(** * The meme republishing bot: text segmentation, rich-text facets,
      media compression, download retries, thread publishing and scratch
      file cleanup of [hello.py], embedded in Rocq. *)

From Stdlib Require Import ZArith QArith Ascii String Lia.
From stdpp Require Import base list strings gmap pretty.

Local Open Scope Z_scope.

(** ** Python strings

    A Python [str] is a sequence of Unicode code points; [len] and slicing
    count code points.  A [bytes] value is a sequence of integers below 256. *)

Definition str := list Z.
Definition bytes := list Z.

(** A string literal of the source (ASCII only). *)
Definition py (s : string) : str :=
  (fun a => Z.of_N (N_of_ascii a)) <$> list_ascii_of_string s.

Definition py_len {A} (s : list A) : Z := Z.of_nat (length s).

(** Slice bounds as Python resolves them: a negative bound counts from the
    end, and bounds outside the sequence are clamped. *)
Definition slice_index {A} (s : list A) (k : Z) : nat :=
  Z.to_nat (if k <? 0 then Z.max 0 (py_len s + k) else Z.min k (py_len s)).

(** [s[:k]] *)
Definition slice_to {A} (s : list A) (k : Z) : list A := take (slice_index s k) s.
(** [s[k:]] *)
Definition slice_from {A} (s : list A) (k : Z) : list A := drop (slice_index s k) s.
(** [s[a:b]] *)
Definition slice {A} (s : list A) (a b : Z) : list A :=
  take (slice_index s b - slice_index s a) (drop (slice_index s a) s).

(** ** split_into_thread *)

Definition RACE_HASHTAG : str := py "AustrianGP".

Definition hashtag_section : str := py "#f1 #formula1 #memes #" ++ RACE_HASHTAG.

(** The [while remaining_text:] loop.  [fuel] bounds the number of
    iterations; [None] means the bound was reached before the loop ended. *)
Fixpoint split_loop (fuel : nat) (limit : Z) (remaining_text : str)
    (chunks : list str) : option (list str) :=
  match remaining_text with
  | [] => Some chunks
  | _ :: _ =>
      if py_len remaining_text <=? limit then Some (chunks ++ [remaining_text])
      else
        match fuel with
        | O => None
        | S fuel' =>
            let chunk := slice_to remaining_text (limit - 3) ++ py "..." in
            split_loop fuel' limit (slice_from remaining_text (limit - 3))
              (chunks ++ [chunk])
        end
  end.

Definition first_post_limit (limit : Z) : Z := limit - py_len hashtag_section - 2.

Definition split_into_thread (fuel : nat) (text : str) (limit : Z)
    : option (list str) :=
  if py_len text <=? first_post_limit limit then Some [text]
  else
    let first_chunk := slice_to text (first_post_limit limit) in
    split_loop fuel limit (slice_from text (first_post_limit limit)) [first_chunk].

Definition default_limit : Z := 300.

(** What a reader of a thread recovers from the chunks: the first chunk and
    the last chunk as they are, every chunk in between without its last
    three characters ([c[:-3]]). *)
Definition strip_marker (c : str) : str := slice_to c (-3).

Fixpoint later_payload (cs : list str) : str :=
  match cs with
  | [] => []
  | [c] => c
  | c :: cs' => strip_marker c ++ later_payload cs'
  end.

Definition payload (chunks : list str) : str :=
  match chunks with
  | [] => []
  | c :: cs => c ++ later_payload cs
  end.

(** ** UTF-8, as [str.encode("utf-8")] and [bytes.decode("utf-8")]

    Encoding a lone surrogate raises [UnicodeEncodeError]; [None] stands for
    the exception. *)

Definition utf8_encode_cp (c : Z) : option bytes :=
  if c <? 0 then None
  else if c <? 128 then Some [c]
  else if c <? 2048 then Some [192 + c / 64; 128 + c mod 64]
  else if c <? 65536 then
    if (55296 <=? c) && (c <=? 57343) then None
    else Some [224 + c / 4096; 128 + (c / 64) mod 64; 128 + c mod 64]
  else if c <? 1114112 then
    Some [240 + c / 262144; 128 + (c / 4096) mod 64;
          128 + (c / 64) mod 64; 128 + c mod 64]
  else None.

Fixpoint encode_utf8 (s : str) : option bytes :=
  match s with
  | [] => Some []
  | c :: s' =>
      b ← utf8_encode_cp c;
      bs ← encode_utf8 s';
      Some (b ++ bs)
  end.

Definition is_cont (b : Z) : bool := (128 <=? b) && (b <? 192).

Fixpoint decode_utf8 (bs : bytes) : option str :=
  match bs with
  | [] => Some []
  | b0 :: r0 =>
      if (0 <=? b0) && (b0 <? 128) then cons b0 <$> decode_utf8 r0
      else if (194 <=? b0) && (b0 <? 224) then
        match r0 with
        | b1 :: r1 =>
            if is_cont b1
            then cons ((b0 - 192) * 64 + (b1 - 128)) <$> decode_utf8 r1
            else None
        | _ => None
        end
      else if (224 <=? b0) && (b0 <? 240) then
        match r0 with
        | b1 :: b2 :: r2 =>
            let c := (b0 - 224) * 4096 + (b1 - 128) * 64 + (b2 - 128) in
            if is_cont b1 && is_cont b2 && (2048 <=? c)
               && negb ((55296 <=? c) && (c <=? 57343))
            then cons c <$> decode_utf8 r2
            else None
        | _ => None
        end
      else if (240 <=? b0) && (b0 <? 245) then
        match r0 with
        | b1 :: b2 :: b3 :: r3 =>
            let c := (b0 - 240) * 262144 + (b1 - 128) * 4096
                     + (b2 - 128) * 64 + (b3 - 128) in
            if is_cont b1 && is_cont b2 && is_cont b3
               && (65536 <=? c) && (c <? 1114112)
            then cons c <$> decode_utf8 r3
            else None
        | _ => None
        end
      else None
  end.

(** ** create_hashtag_facets *)

(** [s.find(sub)]: the lowest index at which [sub] occurs in [s], or -1. *)
Fixpoint str_find_at (i : Z) (s sub : str) : Z :=
  if bool_decide (take (length sub) s = sub) then i
  else
    match s with
    | [] => -1
    | _ :: s' => str_find_at (i + 1) s' sub
    end.

Definition str_find (s sub : str) : Z := str_find_at 0 s sub.

Record facet := Facet { byteStart : Z; byteEnd : Z; tag : str }.

Definition hashtags : list str := [py "f1"; py "formula1"; py "memes"; RACE_HASHTAG].

(** One iteration of [for tag in [...]]. *)
Definition facet_step (formatted_text : str) (facets : list facet) (tg : str)
    : option (list facet) :=
  let tag_with_hash := py "#" ++ tg in
  let tag_pos := str_find formatted_text tag_with_hash in
  if negb (tag_pos =? -1) then
    pre ← encode_utf8 (slice_to formatted_text tag_pos);
    upto ← encode_utf8 (slice_to formatted_text (tag_pos + py_len tag_with_hash));
    Some (facets ++ [Facet (py_len pre) (py_len upto) tg])
  else Some facets.

Fixpoint facet_loop (formatted_text : str) (facets : list facet) (tags : list str)
    : option (list facet) :=
  match tags with
  | [] => Some facets
  | tg :: tags' =>
      facets' ← facet_step formatted_text facets tg;
      facet_loop formatted_text facets' tags'
  end.

Definition create_hashtag_facets (formatted_text : str) : option (list facet) :=
  text_bytes ← encode_utf8 formatted_text;
  facet_loop formatted_text [] hashtags.

(** ** Outcomes of effectful calls

    A call returns a value or raises; the exception's class matters only
    where a handler of the source tells classes apart. *)

Inductive outcome (A : Type) : Type :=
  | Return (a : A)
  | Raises.
Arguments Return {A} a.
Arguments Raises {A}.

(** ** compress_video

    One pass through the body of [while min_crf <= max_crf] runs ffmpeg and
    then looks at [output_path]. *)

Inductive encode_obs : Type :=
  | NoOutput                    (* [os.path.exists(output_path)] is false *)
  | Output (current_size : Z)   (* the file exists and has this size *)
  | ProcessError.               (* the body raised [CalledProcessError] *)

Record crf_state := CrfState { min_crf : Z; max_crf : Z; current_crf : Z }.

(** The body of the loop: [inr b] is [return b], [inl st] the state at the
    end of the pass.  [current_size > target_size * 0.9] is written over the
    integers; for the default budget the float product is exactly 829440. *)
Definition crf_step (target_size : Z) (obs : encode_obs) (st : crf_state)
    : crf_state + bool :=
  match obs with
  | Output current_size =>
      if current_size <=? target_size then
        if (current_crf st =? min_crf st) || (target_size * 9 <? current_size * 10)
        then inr true
        else
          let max_crf' := current_crf st - 1 in
          inl (CrfState (min_crf st) max_crf' ((min_crf st + max_crf') / 2))
      else
        let min_crf' := current_crf st + 1 in
        inl (CrfState min_crf' (max_crf st) ((min_crf' + max_crf st) / 2))
  | NoOutput =>
      inl (CrfState (min_crf st) (max_crf st) ((min_crf st + max_crf st) / 2))
  | ProcessError =>
      inl (CrfState (current_crf st + 1) (max_crf st) (current_crf st))
  end.

(** [enc n crf] is what the [n]-th pass observes after encoding at [crf].
    [None]: the loop is still running when the fuel is used up. *)
Fixpoint crf_loop (fuel : nat) (target_size : Z) (enc : nat -> Z -> encode_obs)
    (n : nat) (st : crf_state) : option bool :=
  if min_crf st <=? max_crf st then
    match fuel with
    | O => None
    | S fuel' =>
        match crf_step target_size (enc n (current_crf st)) st with
        | inr b => Some b
        | inl st' => crf_loop fuel' target_size enc (S n) st'
        end
    end
  else Some false.

Definition crf_init : crf_state := CrfState 18 35 18.

(** [target_bitrate] is the value computed before the loop from the probed
    duration ([None] when that computation raises, as on a duration of 0);
    it only reaches ffmpeg's command line. *)
Definition compress_video (fuel : nat) (max_size_kb original_size : Z)
    (target_bitrate : option Z) (enc : nat -> Z -> encode_obs)
    : option (outcome bool) :=
  let target_size := max_size_kb * 1024 in
  match target_bitrate with
  | None => Some Raises
  | Some _ =>
      if original_size <=? target_size then Some (Return true)
      else Return <$> crf_loop fuel target_size enc 0 crf_init
  end.

(** The range of quality factors still to be searched. *)
Definition crf_width (st : crf_state) : Z := max_crf st - min_crf st + 1.

(** ** download_media *)

Inductive attempt_obs : Type :=
  | Status200 (file_ok : bool)  (* 200; [file_ok]: the file exists, not empty *)
  | StatusOther (code : Z)      (* [raise_for_status] passed, status not 200 *)
  | HTTPError (code : Z)        (* [raise_for_status] raised *)
  | RequestException            (* connection error or timeout *)
  | IOError                     (* opening or writing the file failed *)
  | OtherException.

Inductive net_event : Type :=
  | Get (attempt : nat)
  | Sleep (attempt : nat) (seconds : Z).

Definition max_retries : nat := 3.
Definition retry_delay : Z := 5.

(** [for attempt in range(max_retries)], with the log of requests and
    sleeps made so far. *)
Fixpoint download_loop (net : nat -> attempt_obs) (attempts : list nat)
    (log : list net_event) : bool * list net_event :=
  match attempts with
  | [] => (false, log)
  | attempt :: rest =>
      let log := log ++ [Get attempt] in
      match net attempt with
      | Status200 file_ok => (file_ok, log)
      | StatusOther _ => (false, log)
      | HTTPError code =>
          if (code =? 429) && bool_decide (attempt < max_retries - 1)%nat
          then download_loop net rest (log ++ [Sleep attempt retry_delay])
          else download_loop net rest log
      | RequestException | IOError | OtherException =>
          download_loop net rest log
      end
  end.

Definition download_media (net : nat -> attempt_obs) : bool * list net_event :=
  download_loop net (seq 0 max_retries) [].

Definition is_get (e : net_event) : bool :=
  match e with Get _ => true | Sleep _ _ => false end.

Definition attempts_made (log : list net_event) : nat :=
  length (filter (fun e => is_get e = true) log).

(** An attempt that ends in an exception. *)
Definition raised (o : attempt_obs) : bool :=
  match o with
  | Status200 _ | StatusOther _ => false
  | _ => true
  end.

(** What an attempt that raised leaves in the log before the next one. *)
Definition backoff (o : attempt_obs) (attempt : nat) : list net_event :=
  match o with
  | HTTPError code =>
      if (code =? 429) && bool_decide (attempt < max_retries - 1)%nat
      then [Sleep attempt retry_delay] else []
  | _ => []
  end.

(** The result of an attempt that did not raise. *)
Definition succeeded (o : attempt_obs) : bool :=
  match o with Status200 file_ok => file_ok | _ => false end.

(** ** compress_image

    Pillow is used through the interface below.  [None] stands for a raised
    exception: [Image.open] on bytes that are no image, [resize] or [save]
    on an image they reject. *)

Class Pillow := {
  image : Type;
  Image_open : bytes -> option image;
  img_mode : image -> string;
  img_size : image -> Z * Z;
  convert_RGB : image -> image;
  resize : image -> Z * Z -> option image;
  save_JPEG : image -> Z -> option bytes;
}.

(** [int(x)] of a float: truncation towards zero. *)
Definition py_int (x : Q) : Z := Z.quot (Qnum x) (Z.pos (Qden x)).

Definition Qlt_bool (a b : Q) : bool := negb (Qle_bool b a).

(** The scale only takes the values 0.75^k, which binary floats hold
    exactly, so the rationals below are the floats of the source; none of
    them equals the bound 0.3. *)
Definition scale_factor : Q := 3 # 4.
Definition scale_floor : Q := 3 # 10.

Section CompressImage.
Context `{Pillow}.

(** The first half of the loop body: resize if [scale < 1.0], then encode
    into the in-memory buffer. *)
Definition render (img : image) (quality : Z) (scale : Q) : option bytes :=
  resized_img ←
    (if Qlt_bool scale 1
     then resize img (py_int (inject_Z (img_size img).1 * scale),
                      py_int (inject_Z (img_size img).2 * scale))
     else Some img);
  save_JPEG resized_img quality.

(** [while True:], returning the buffer of the last pass. *)
Fixpoint image_loop (fuel : nat) (img : image) (max_size_kb quality : Z)
    (scale : Q) : option (outcome bytes) :=
  match fuel with
  | O => None
  | S fuel' =>
      match render img quality scale with
      | None => Some Raises
      | Some img_byte_arr =>
          if py_len img_byte_arr <=? max_size_kb * 1024
          then Some (Return img_byte_arr)
          else
            let quality' := if 20 <? quality then quality - 5 else quality in
            let scale' :=
              if 20 <? quality then scale else (scale * scale_factor)%Q in
            if Qlt_bool scale' scale_floor then Some (Return img_byte_arr)
            else image_loop fuel' img max_size_kb quality' scale'
      end
  end.

(** [img.convert("RGB")] for the modes RGBA and P. *)
Definition normalize (img : image) : image :=
  if bool_decide (img_mode img ∈ ["RGBA"; "P"]%string) then convert_RGB img
  else img.

(** The files are a map from paths to contents. *)
Definition compress_image (fuel : nat) (fs : gmap string bytes)
    (image_path : string) (max_size_kb : Z)
    : option (outcome (bool * gmap string bytes)) :=
  match fs !! image_path ≫= Image_open with
  | None => Some Raises
  | Some img =>
      match image_loop fuel (normalize img) max_size_kb 95 1 with
      | None => None
      | Some Raises => Some Raises
      | Some (Return img_byte_arr) =>
          let fs' := <[image_path := img_byte_arr]> fs in
          Some (Return (bool_decide (py_len img_byte_arr ≤ max_size_kb * 1024),
                        fs'))
      end
  end.

(** The settings the loop can reach, in order: quality 95 down to 20 at
    full size, then quality 20 at 0.75, 0.75^2, 0.75^3 and 0.75^4. *)
Definition settings : list (Z * Q) :=
  ((fun k => (95 - 5 * Z.of_nat k, 1%Q)) <$> seq 0 16)
  ++ [(20, 3 # 4); (20, 9 # 16); (20, 27 # 64); (20, 81 # 256)].

(** The encoder takes the image at every setting. *)
Definition encodable (img : image) : Prop :=
  ∀ q s, (q, s) ∈ settings → is_Some (render img q s).

(** The loop reaches the setting at position [k]: every setting before it
    was rendered and gave an output over the budget. *)
Definition reaches (img : image) (max_size_kb : Z) (k : nat) : Prop :=
  forall (j : nat) q s,
    (j < k)%nat -> settings !! j = Some (q, s) ->
    exists out, render img q s = Some out /\ max_size_kb * 1024 < py_len out.

(** Pillow resizes and encodes the image at every setting the loop tries. *)
Definition accepted (img : image) (max_size_kb : Z) : Prop :=
  forall (k : nat) q s,
    settings !! k = Some (q, s) -> reaches img max_size_kb k ->
    is_Some (render img q s).
End CompressImage.

(** The setting the loop moves to after one whose output did not fit. *)
Definition next_setting (qs : Z * Q) : Z * Q :=
  if 20 <? qs.1 then (qs.1 - 5, qs.2) else (qs.1, (qs.2 * scale_factor)%Q).

(** [rest] lists the settings that follow [qs] until the scale falls below
    the floor. *)
Fixpoint chain (qs : Z * Q) (rest : list (Z * Q)) : Prop :=
  match rest with
  | [] => Qlt_bool (next_setting qs).2 scale_floor = true
  | qs' :: rest' =>
      Qlt_bool (next_setting qs).2 scale_floor = false
      /\ next_setting qs = qs' /\ chain qs' rest'
  end.

(** A small codec to run the model on.  Contents are a format byte (1: a
    lossless format, 2: JPEG), a mode byte, width and height, then filler
    standing for the pixel data.  As Pillow's JPEG writer, the encoder takes
    the modes L, RGB and CMYK and rejects those with alpha or a palette. *)
Module Codec.
Definition mode_of_code (m : Z) : option string :=
  if m =? 0 then Some "RGB"%string else if m =? 1 then Some "RGBA"%string
  else if m =? 2 then Some "P"%string else if m =? 3 then Some "L"%string
  else if m =? 4 then Some "LA"%string else if m =? 5 then Some "CMYK"%string
  else None.

Definition code_of_mode (m : string) : Z :=
  if String.eqb m "RGB" then 0 else if String.eqb m "RGBA" then 1
  else if String.eqb m "P" then 2 else if String.eqb m "L" then 3
  else if String.eqb m "LA" then 4 else 5.

Definition img : Type := string * (Z * Z).

Definition open (data : bytes) : option img :=
  match data with
  | fmt :: m :: w :: h :: _ =>
      if (fmt =? 1) || (fmt =? 2)
      then mode ← mode_of_code m; Some (mode, (w, h))
      else None
  | _ => None
  end.

Definition save (i : img) (quality : Z) : option bytes :=
  if bool_decide (i.1 ∈ ["L"; "RGB"; "CMYK"]%string)
  then Some ([2; code_of_mode i.1; i.2.1; i.2.2]
             ++ replicate (Z.to_nat (i.2.1 * i.2.2 * quality / 100)) 0)
  else None.

Definition scaled (i : img) (size : Z * Z) : option img :=
  if (0 <? size.1) && (0 <? size.2) then Some (i.1, size) else None.

#[export] Instance pillow : Pillow := {|
  image := img;
  Image_open := open;
  img_mode := fst;
  img_size := snd;
  convert_RGB := fun i => ("RGB"%string, i.2);
  resize := scaled;
  save_JPEG := save;
|}.

(** A lossless file of an image: header and [n] bytes of pixel data. *)
Definition lossless (mode : string) (w h : Z) (n : nat) : bytes :=
  [1; code_of_mode mode; w; h] ++ replicate n 0.
End Codec.

(** ** Paths and URIs

    File names and post URIs are byte strings; [lower] acts on the ASCII
    letters, which is all the extensions tested below contain. *)

Definition lower_ascii (a : ascii) : ascii :=
  let n := nat_of_ascii a in
  if (65 <=? n)%nat && (n <=? 90)%nat then ascii_of_nat (n + 32) else a.

Fixpoint lower (s : string) : string :=
  match s with
  | EmptyString => EmptyString
  | String a s' => String (lower_ascii a) (lower s')
  end.

Definition endswith (s suffix : string) : bool :=
  let n := String.length s in
  let m := String.length suffix in
  (m <=? n)%nat && String.eqb (substring (n - m) m s) suffix.

Definition endswith_any (s : string) (suffixes : list string) : bool :=
  existsb (endswith s) suffixes.

(** [s.split("/")[-1]] *)
Fixpoint last_segment_from (s acc : string) : string :=
  match s with
  | EmptyString => acc
  | String a s' =>
      if Ascii.eqb a "/" then last_segment_from s' EmptyString
      else last_segment_from s' (acc ++ String a EmptyString)%string
  end.

Definition last_segment (s : string) : string := last_segment_from s EmptyString.

(** A value used as a condition: [None] and the empty string are false. *)
Definition truthy (u : option string) : bool :=
  match u with
  | Some s => negb (String.eqb s EmptyString)
  | None => false
  end.

(** ** convert_gif_to_mp4, on the set of scratch files

    [converted]: ffmpeg ran and left [output_path].  Otherwise the gif stays
    and no output remains. *)
Definition mp4_path_of (gif_path : string) : string :=
  (substring 0 (String.length gif_path - 4) gif_path ++ ".mp4")%string.

Definition convert_gif_to_mp4 (converted : bool) (gif_path : string)
    (files : gset string) : option string * gset string :=
  let output_path := mp4_path_of gif_path in
  if converted then (Some output_path, {[output_path]} ∪ files ∖ {[gif_path]})
  else (None, files ∖ {[output_path]}).

(** ** create_bluesky_thread *)

Record reply_ref := ReplyRef {
  ref_root_uri : string; ref_root_cid : string;
  ref_parent_uri : string; ref_parent_cid : string }.

Inductive embed : Type :=
  | Images (images : list (Z * str))   (* blob and alt text of each image *)
  | Video (video_path : string).

(** The arguments of one [send_post] or [send_video] call. *)
Record post := Post {
  post_text : str;
  post_facets : option (list facet);
  post_embed : embed;
  post_reply_to : option reply_ref }.

Inductive post_result : Type :=
  | Created (uri : string)   (* a result object, with its uri *)
  | Falsy
  | SendRaised.

Inductive image_obs : Type :=
  | ImageTooBig          (* over budget and [compress_image] returned False *)
  | Uploaded (blob : Z)
  | UploadEmpty          (* no response, or a response without a blob *)
  | UploadRaised
  | ImageAbort.          (* [compress_image] or reading the file raised *)

Inductive video_obs : Type :=
  | VideoTooBig          (* over budget and [compress_video] returned False *)
  | VideoReady
  | VideoAbort.          (* probing, compressing or reading raised *)

(** What the calls made during one publish observe. *)
Record world := World {
  image_env : string -> image_obs;
  send_post_env : nat -> post_result;     (* by the batch's first index *)
  convert_env : string -> bool;
  video_env : string -> video_obs;
  send_video_env : string -> post_result }.

Record thread := Thread {
  root_uri : option string;
  parent_uri : option string;
  sent : list (post * post_result);
  files : gset string }.

Inductive flow : Type := Normal | Aborted.

(** [reply_ref], as both loops compute it. *)
Definition reply_ref_of (st : thread) : option reply_ref :=
  if truthy (root_uri st) && truthy (parent_uri st) then
    match root_uri st, parent_uri st with
    | Some r, Some p => Some (ReplyRef r (last_segment r) p (last_segment p))
    | _, _ => None
    end
  else None.

(** [if post_result: ...] after a send. *)
Definition record_result (st : thread) (p : post) (r : post_result) : thread :=
  match r with
  | Created uri =>
      Thread (if truthy (root_uri st) then root_uri st else Some uri) (Some uri)
        (sent st ++ [(p, r)]) (files st)
  | _ => Thread (root_uri st) (parent_uri st) (sent st ++ [(p, r)]) (files st)
  end.

Definition image_suffixes : list string := [".jpg"; ".jpeg"; ".png"; ".webp"]%string.
Definition video_suffixes : list string := [".mp4"; ".gif"]%string.

Section Publish.
Variable w : world.
Variables formatted_text chunk0 : str.
Variable facets : list facet.
Variable image_paths : list string.

(** [for media_path in chunk]; [None] when an exception leaves the loop. *)
Fixpoint upload_chunk (chunk : list string) (images : list (Z * str))
    : option (list (Z * str)) :=
  match chunk with
  | [] => Some images
  | media_path :: rest =>
      match image_env w media_path with
      | ImageTooBig | UploadEmpty | UploadRaised => upload_chunk rest images
      | Uploaded blob => upload_chunk rest (images ++ [(blob, slice_to chunk0 300)])
      | ImageAbort => None
      end
  end.

Definition continued (i : nat) : str :=
  py "Continued... (" ++ py (pretty (i / 4 + 1)%nat) ++ py "/"
  ++ py (pretty ((length image_paths + 3) / 4)%nat) ++ py ")".

(** [for i in range(0, len(image_paths), 4)] *)
Fixpoint image_posts (starts : list nat) (st : thread) : flow * thread :=
  match starts with
  | [] => (Normal, st)
  | i :: rest =>
      match upload_chunk (take 4 (drop i image_paths)) [] with
      | None => (Aborted, st)
      | Some [] => image_posts rest st
      | Some images =>
          let post_text := if (i =? 0)%nat then formatted_text else continued i in
          let reply_ref := reply_ref_of st in
          let p := Post post_text (if (i =? 0)%nat then Some facets else None)
                     (Images images)
                     (if truthy (root_uri st) && truthy (parent_uri st)
                      then reply_ref else None) in
          image_posts rest (record_result st p (send_post_env w i))
      end
  end.

(** [for video_path in video_paths] *)
Fixpoint video_posts (video_paths : list string) (st : thread) : flow * thread :=
  match video_paths with
  | [] => (Normal, st)
  | video_path :: rest =>
      let '(video_path, fs) :=
        if endswith video_path ".gif" then
          match convert_gif_to_mp4 (convert_env w video_path) video_path (files st) with
          | (Some mp4_path, fs) => (mp4_path, fs)
          | (None, fs) => (video_path, fs)
          end
        else (video_path, files st) in
      let st := Thread (root_uri st) (parent_uri st) (sent st) fs in
      match video_env w video_path with
      | VideoTooBig => video_posts rest st
      | VideoAbort => (Aborted, st)
      | VideoReady =>
          let post_text :=
            if negb (truthy (root_uri st)) then formatted_text
            else chunk0 ++ py " (Video)" in
          let reply_ref := reply_ref_of st in
          let p := Post post_text
                     (if negb (truthy (root_uri st)) then Some facets else None)
                     (Video video_path) None in
          match send_video_env w video_path with
          | SendRaised => (Aborted, record_result st p SendRaised)
          | r => video_posts rest (record_result st p r)
          end
      end
  end.
End Publish.

(** [range(0, n, 4)] *)
Definition batch_starts (n : nat) : list nat := (fun k => 4 * k)%nat <$> seq 0 ((n + 3) / 4).

Definition hashtag_suffix : str := [10; 10] ++ py "#f1 #formula1 #memes #" ++ RACE_HASHTAG.

(** The call returns [True] unless an exception reached the outer handler;
    the posts sent and the scratch files left are those of the final state. *)
Definition create_bluesky_thread (w : world) (title : str)
    (media_paths : list string) (author : str) (scratch : gset string)
    : bool * thread :=
  let st0 := Thread None None [] scratch in
  let quoted_text := [34] ++ title ++ [34] ++ [10; 10] ++ py "- u/" ++ author in
  match split_into_thread (length quoted_text) quoted_text default_limit with
  | Some (chunk0 :: _) =>
      let formatted_text := chunk0 ++ hashtag_suffix in
      match create_hashtag_facets formatted_text with
      | None => (false, st0)
      | Some facets =>
          let image_paths :=
            filter (fun p => endswith_any (lower p) image_suffixes = true) media_paths in
          let video_paths :=
            filter (fun p => endswith_any (lower p) video_suffixes = true) media_paths in
          match image_posts w formatted_text chunk0 facets image_paths
                  (batch_starts (length image_paths)) st0 with
          | (Aborted, st) => (false, st)
          | (Normal, st) =>
              match video_posts w formatted_text chunk0 facets video_paths st with
              | (Aborted, st) => (false, st)
              | (Normal, st) => (true, st)
              end
          end
      end
  | _ => (false, st0)
  end.

(** The posts that were created, in order. *)
Definition created (st : thread) : list (post * string) :=
  omap (fun pr => match pr.2 with Created uri => Some (pr.1, uri) | _ => None end)
       (sent st).

(** ** check_and_post: publishing one item and cleaning up

    [scratch] holds the files the downloads left; [media_files] lists the
    ones that were accepted.  The [finally] block runs whatever the publish
    step did. *)
Definition cleanup (media_files : list string) (scratch : gset string) : gset string :=
  foldl (fun fs filename => if bool_decide (filename ∈ fs) then fs ∖ {[filename]} else fs)
        scratch media_files.

Definition publish_item (w : world) (title : str) (media_files : list string)
    (author : str) (scratch : gset string) : bool * gset string :=
  match media_files with
  | [] => (false, scratch)
  | _ :: _ =>
      let '(ok, st) := create_bluesky_thread w title media_files author scratch in
      (ok, cleanup media_files (files st))
  end.


(** ** Sample inputs *)

Definition long_text : str := concat (replicate 70 (py "0123456789")).

(** A race car, an e with acute accent, a space and a euro sign, of 4, 2, 1
    and 3 bytes, before the hashtag suffix. *)
Definition emoji_text : str := [127950; 233; 32; 8364] ++ hashtag_suffix.

Definition emoji_bytes : bytes :=
  [240; 159; 143; 142; 195; 169; 32; 226; 130; 172; 10; 10; 35; 102;
   49; 32; 35; 102; 111; 114; 109; 117; 108; 97; 49; 32; 35; 109; 101;
   109; 101; 115; 32; 35; 65; 117; 115; 116; 114; 105; 97; 110; 71; 80].

Definition emoji_facets : list facet :=
  [Facet 12 15 (py "f1"); Facet 16 25 (py "formula1"); Facet 26 32 (py "memes");
   Facet 33 44 RACE_HASHTAG].

(** Files to run [compress_image] on: an RGBA, a grey and a grey-with-alpha
    image of 100 by 100 pixels, and bytes that are no image. *)
Definition sample_files : gmap string bytes :=
  {[ "rgba.png"%string := Codec.lossless "RGBA" 100 100 5000;
     "grey.png"%string := Codec.lossless "L" 100 100 5000;
     "greya.png"%string := Codec.lossless "LA" 100 100 5000;
     "notes.txt"%string := [104; 105] ]}.


(** A publish in which every upload, conversion and post succeeds. *)
Definition all_ok : world :=
  World (fun _ => Uploaded 7)
        (fun i => Created ("at://did:plc:bot/app.bsky.feed.post/image" ++ pretty i)%string)
        (fun _ => true) (fun _ => VideoReady)
        (fun p => Created ("at://did:plc:bot/app.bsky.feed.post/" ++ p)%string).

(** The same, except that sending the first image batch raises. *)
Definition first_post_fails : world :=
  World (image_env all_ok)
        (fun i => if (i =? 0)%nat then SendRaised else send_post_env all_ok i)
        (convert_env all_ok) (video_env all_ok) (send_video_env all_ok).

Definition five_images : list string :=
  ["temp_abc_0.jpg"; "temp_abc_1.jpg"; "temp_abc_2.jpg"; "temp_abc_3.jpg";
   "temp_abc_4.jpg"]%string.

Definition is_video (e : embed) : bool :=
  match e with Video _ => true | Images _ => false end.

(** A post with a video carries no reply reference. *)
Definition unlinked_video (pr : post * post_result) : Prop :=
  is_video (post_embed pr.1) = true -> post_reply_to pr.1 = None.

(** The reply references and the kind of each post that was created. *)
Definition links (st : thread) : list (bool * option reply_ref * string) :=
  (fun pu => (is_video (post_embed pu.1), post_reply_to pu.1, pu.2)) <$> created st.

(** The text and facets of each post that was created. *)
Definition captions (st : thread) : list (str * bool * string) :=
  (fun pu => (post_text pu.1, bool_decide (is_Some (post_facets pu.1)), pu.2))
    <$> created st.


(** ** More on compress_video *)

(** The bounds stay within the initial range, and so does the quality
    factor of every pass that runs. *)
Definition crf_in_range (st : crf_state) : Prop :=
  18 <= min_crf st /\ max_crf st <= 35
  /\ (min_crf st <= max_crf st -> 18 <= current_crf st <= 35).

(** After the first pass the quality factor is the middle of the range. *)
Definition crf_at_middle (st : crf_state) : Prop :=
  current_crf st = (min_crf st + max_crf st) / 2.

(** The quality factors of the passes the loop runs, in order:
    [current_crf] at each pass, from pass [n] on. *)
Fixpoint crf_passes (fuel : nat) (target_size : Z) (enc : nat -> Z -> encode_obs)
    (n : nat) (st : crf_state) : list Z :=
  if min_crf st <=? max_crf st then
    match fuel with
    | O => []
    | S fuel' =>
        current_crf st ::
        match crf_step target_size (enc n (current_crf st)) st with
        | inr _ => []
        | inl st' => crf_passes fuel' target_size enc (S n) st'
        end
    end
  else [].

(** ** login_with_retry

    [login attempt] tells whether [bluesky.login] returned at that attempt;
    otherwise it raised.  The result comes with the sleeps made, in
    seconds. *)
Fixpoint login_loop (login : nat -> bool) (attempts : list nat) (sleeps : list Z)
    : bool * list Z :=
  match attempts with
  | [] => (false, sleeps)
  | attempt :: rest =>
      if login attempt then (true, sleeps)
      else
        let wait_time := 2 ^ Z.of_nat attempt in
        login_loop login rest (sleeps ++ [wait_time])
  end.

Definition login_with_retry (login : nat -> bool) (max_attempts : nat)
    : bool * list Z :=
  login_loop login (seq 0 max_attempts) [].

(** [sum(l)] *)
Definition py_sum (l : list Z) : Z := foldr Z.add 0 l.

(** ** Threads

    The posts after the first reply to [root] and to the post created just
    before them. *)
Fixpoint chained (root prev : string) (posts : list (post * string)) : Prop :=
  match posts with
  | [] => True
  | pu :: rest =>
      post_reply_to pu.1
      = Some (ReplyRef root (last_segment root) prev (last_segment prev))
      /\ chained root pu.2 rest
  end.

(** A thread: the first post is no reply and is the root of the others. *)
Definition linear_chain (posts : list (post * string)) : Prop :=
  match posts with
  | [] => True
  | pu :: rest => post_reply_to pu.1 = None /\ chained pu.2 pu.2 rest
  end.

(** The created posts that embed images. *)
Definition created_image_posts (st : thread) : list (post * string) :=
  filter (fun pu => is_video (post_embed pu.1) = false) (created st).

(** The uri of the last post of [posts], or [prev] when there is none. *)
Definition last_uri (prev : string) (posts : list (post * string)) : string :=
  match last posts with Some pu => pu.2 | None => prev end.

(** The number of images a post embeds. *)
Definition embedded_images (p : post) : nat :=
  match post_embed p with Images images => length images | Video _ => 0 end.

(** A publish in which no post is created: every send returns nothing. *)
Definition nothing_posted : world :=
  World (image_env all_ok) (fun _ => Falsy) (convert_env all_ok)
        (video_env all_ok) (fun _ => Falsy).

(** What the image loop keeps true of a thread under construction. *)
Definition thread_ok (st : thread) : Prop :=
  root_uri st = snd <$> head (created st)
  /\ parent_uri st = snd <$> last (created st)
  /\ Forall (fun pu : post * string => pu.2 <> EmptyString) (created st)
  /\ Forall (fun pu : post * string => is_video (post_embed pu.1) = false) (created st)
  /\ linear_chain (created st).

(** A post with images embeds between one and four of them. *)
Definition batch_ok (pr : post * post_result) : Prop :=
  is_video (post_embed pr.1) = false -> (1 <= embedded_images pr.1 <= 4)%nat.

Definition image_sends (st : thread) : list (post * post_result) :=
  filter (fun pr => is_video (post_embed pr.1) = false) (sent st).

(** ** check_and_post: the ledger of published ids

    A submission as the loop reads it.  [has_is_gallery] tells whether the
    object has an [is_gallery] attribute. *)
Record submission := Submission {
  sub_id : string;
  created_utc : Q;
  sub_url : string;
  has_is_gallery : bool }.

(** [sub in s] on strings. *)
Fixpoint contains (s sub : string) : bool :=
  String.prefix sub s
  || match s with
     | EmptyString => false
     | String _ s' => contains s' sub
     end.

Definition media_suffixes : list string :=
  [".jpg"; ".jpeg"; ".png"; ".gif"; ".mp4"; ".webp"]%string.

(** The test that lets a submission through to [get_media_urls]. *)
Definition has_supported_media (post : submission) : bool :=
  endswith_any (lower (sub_url post)) media_suffixes
  || has_is_gallery post
  || contains (sub_url post) "v.redd.it".

(** What handling one submission observes once it is let through. *)
Inductive item_obs : Type :=
  | NoMediaUrls                   (* [get_media_urls] returned no url *)
  | NoMediaFiles                  (* no download was accepted *)
  | ThreadReturned (ok : bool)    (* [create_bluesky_thread] returned [ok];
                                     for [True], the save returned too *)
  | SaveRaised                    (* it returned [True], the id was added,
                                     and [save_posted_ids] raised: caught,
                                     logged *)
  | ThreadRaised                  (* the call raised: caught, logged *)
  | CycleRaised.                  (* an exception reached the outer handler *)

(** [load_posted_ids] and [save_posted_ids]: the file holds a JSON list of
    ids, or does not exist. *)
Definition load_posted_ids (file : option (list string)) : gset string :=
  match file with
  | Some ids => list_to_set ids
  | None => ∅
  end.

Definition save_posted_ids (posted_ids : gset string) : list string :=
  elements posted_ids.

(** The set in memory, the contents written to the file, one per call of
    [save_posted_ids] that returned, and the calls of
    [create_bluesky_thread] with the id of the submission and whether the
    call returned [True]. *)
Record ledger := Ledger {
  posted_ids : gset string;
  saves : list (list string);
  threads : list (string * bool) }.

(** [for post in subreddit.new(limit=50)], from the submission at position
    [n] of the listing on. *)
Fixpoint check_loop (cutoff : Q) (obs : nat -> item_obs) (n : nat)
    (posts : list submission) (st : ledger) : ledger :=
  match posts with
  | [] => st
  | post :: rest =>
      if Qlt_bool (created_utc post) cutoff
      then check_loop cutoff obs (S n) rest st
      else if bool_decide (sub_id post ∈ posted_ids st)
      then check_loop cutoff obs (S n) rest st
      else if negb (has_supported_media post)
      then check_loop cutoff obs (S n) rest st
      else
        match obs n with
        | NoMediaUrls | NoMediaFiles => check_loop cutoff obs (S n) rest st
        | ThreadReturned true =>
            let posted_ids := {[sub_id post]} ∪ posted_ids st in
            check_loop cutoff obs (S n) rest
              (Ledger posted_ids (saves st ++ [save_posted_ids posted_ids])
                 (threads st ++ [(sub_id post, true)]))
        | SaveRaised =>
            let posted_ids := {[sub_id post]} ∪ posted_ids st in
            check_loop cutoff obs (S n) rest
              (Ledger posted_ids (saves st)
                 (threads st ++ [(sub_id post, true)]))
        | ThreadReturned false | ThreadRaised =>
            check_loop cutoff obs (S n) rest
              (Ledger (posted_ids st) (saves st)
                 (threads st ++ [(sub_id post, false)]))
        | CycleRaised => st
        end
  end.

(** [now] is [time.time()], in seconds. *)
Definition check_and_post (now : Q) (file : option (list string))
    (obs : nat -> item_obs) (posts : list submission) : ledger :=
  check_loop (now - 5400) obs 0 posts (Ledger (load_posted_ids file) [] []).

(** The ids of the calls that returned [True]. *)
Definition published (st : ledger) : list string :=
  fst <$> filter (fun c => c.2 = true) (threads st).

(** What the loop keeps true of the ledger, for the set [stored] loaded at
    the start of the cycle.  Every list written is the set in memory at the
    time of the write: the ids loaded and the ids published up to then. *)
Definition ledger_ok (stored : gset string) (st : ledger) : Prop :=
  (forall id, id ∈ posted_ids st <-> id ∈ stored \/ id ∈ published st)
  /\ (forall c, c ∈ threads st -> c.1 ∉ stored)
  /\ NoDup (published st)
  /\ (length (saves st) <= length (published st))%nat
  /\ Forall (fun ids =>
               exists m : nat,
                 (1 <= m <= length (published st))%nat
                 /\ list_to_set ids
                    = stored ∪ list_to_set (take m (published st)))
       (saves st).

(** What it keeps true as long as no save has raised: every publish was
    saved, and the last list written is the set in memory. *)
Definition ledger_synced (stored : gset string) (st : ledger) : Prop :=
  length (saves st) = length (published st)
  /\ match last (saves st) with
     | Some ids => list_to_set ids = posted_ids st
     | None => posted_ids st = stored
     end.

(** A listing of three submissions: one already published, one too old and
    one new. *)
Definition sample_listing : list submission :=
  [Submission "seen" 10000 "https://i.redd.it/a.jpg" false;
   Submission "old" 100 "https://i.redd.it/b.jpg" false;
   Submission "new" 10000 "https://i.redd.it/c.png" false].

(** ** Files left by the publish step

    A file is new when it is the output of the conversion of a gif of
    [paths]. *)
Definition converted_from (paths : list string) (f : string) : Prop :=
  exists g, g ∈ paths /\ endswith g ".gif" = true /\ f = mp4_path_of g.

(** ** download_and_process_media, on the files

    The files of the working directory, with their contents.  One attempt
    of [download_media] as the files see it: *)
Inductive transfer : Type :=
  | Received (content : bytes)   (* status 200: [response.content] is written *)
  | Refused                      (* [raise_for_status] passed, status not 200 *)
  | Broke (partial : option bytes).
      (* an exception; [partial]: what [open] and [write] put in the file
         before it, if they ran *)

(** [with open(path, "wb") as f: f.write(content)] *)
Definition write_file (path : string) (content : bytes) (fs : gmap string bytes)
    : gmap string bytes :=
  <[path := content]> fs.

Definition write_opt (path : string) (content : option bytes)
    (fs : gmap string bytes) : gmap string bytes :=
  match content with
  | Some c => write_file path c fs
  | None => fs
  end.

(** [os.path.exists(path)] *)
Definition path_exists (fs : gmap string bytes) (path : string) : bool :=
  bool_decide (is_Some (fs !! path)).

(** [os.path.exists(path) and os.path.getsize(path) > 0] *)
Definition exists_nonempty (fs : gmap string bytes) (path : string) : bool :=
  match fs !! path with
  | Some c => 0 <? py_len c
  | None => false
  end.

(** [for attempt in range(max_retries)]: the sleep between attempts leaves
    the files alone. *)
Fixpoint download_loop_files (net : nat -> transfer) (filename : string)
    (attempts : list nat) (fs : gmap string bytes) : bool * gmap string bytes :=
  match attempts with
  | [] => (false, fs)
  | attempt :: rest =>
      match net attempt with
      | Received content =>
          let fs := write_file filename content fs in
          (exists_nonempty fs filename, fs)
      | Refused => (false, fs)
      | Broke partial =>
          download_loop_files net filename rest (write_opt filename partial fs)
      end
  end.

Definition download_media_files (net : nat -> transfer) (filename : string)
    (fs : gmap string bytes) : bool * gmap string bytes :=
  download_loop_files net filename (seq 0 max_retries) fs.

(** The run of ffmpeg in [merge_video_audio]: whether it exited with 0, and
    what it wrote to [output_path], if anything. *)
Inductive merge_obs : Type :=
  | FfmpegDone (output : option bytes)
  | FfmpegFailed (output : option bytes).  (* [CalledProcessError] or another
                                              exception *)

Definition merge_video_audio (m : merge_obs) (video_path audio_path output_path : string)
    (fs : gmap string bytes) : bool * gmap string bytes :=
  match m with
  | FfmpegDone output =>
      let fs := write_opt output_path output fs in
      (path_exists fs output_path, fs)
  | FfmpegFailed output => (false, write_opt output_path output fs)
  end.

(** A url of [media_urls]: a string, or the pair of a video url and an audio
    url that may be [None]. *)
Inductive media_url : Type :=
  | Direct (url : string)
  | VideoAudio (video_url : string) (audio_url : option string).

(** [net_env url filename]: the attempts of [download_media(url, filename)]. *)
Record fetch_env := FetchEnv {
  net_env : option string -> string -> nat -> transfer;
  merge_env : merge_obs }.

(** [if os.path.exists(path): os.remove(path)] for each path. *)
Definition remove_existing (paths : list string) (fs : gmap string bytes)
    : gmap string bytes :=
  foldl (fun fs path => if path_exists fs path then delete path fs else fs) fs paths.

(** The value returned is [True], [False] or, where the function falls off
    its end, [None]; [Raises] where [os.rename] or [os.path.getsize] is
    called on a path that does not exist. *)
Definition download_and_process_media (w : fetch_env) (url : media_url)
    (filename : string) (fs : gmap string bytes)
    : outcome (option bool) * gmap string bytes :=
  match url with
  | VideoAudio video_url audio_url =>
      let video_path := ("temp_video_" ++ filename)%string in
      let '(video_ok, fs) :=
        download_media_files (net_env w (Some video_url) video_path) video_path fs in
      if video_ok then
        let audio_path := ("temp_audio_" ++ filename)%string in
        let '(has_audio, fs) :=
          download_media_files (net_env w audio_url audio_path) audio_path fs in
        if has_audio && path_exists fs audio_path then
          let '(success, fs) :=
            merge_video_audio (merge_env w) video_path audio_path filename fs in
          let fs := remove_existing [video_path; audio_path] fs in
          if success then
            match fs !! filename with
            | Some _ => (Return (Some true), fs)
            | None => (Raises, fs)
            end
          else (Return None, fs)
        else
          match fs !! video_path with
          | None => (Raises, fs)
          | Some content =>
              let fs := write_file filename content (delete video_path fs) in
              if path_exists fs filename then (Return (Some true), fs)
              else (Return None, fs)
          end
      else (Return (Some false), fs)
  | Direct url =>
      let '(ok, fs) := download_media_files (net_env w (Some url) filename) filename fs in
      (Return (Some ok), fs)
  end.

(** A video with sound: both downloads succeed and ffmpeg writes the merged
    file. *)
Definition video_with_sound : fetch_env :=
  FetchEnv (fun _ _ _ => Received [1; 2; 3]) (FfmpegDone (Some [4; 5; 6; 7])).

(** An attempt that ended in an exception. *)
Definition broke (t : transfer) : bool :=
  match t with Broke _ => true | _ => false end.

(** ** The files of a submission: clean_filename and the download loop

    [s.split(c)[0]]: the text before the first [c]. *)
Fixpoint before_first (c : ascii) (s : string) : string :=
  match s with
  | EmptyString => EmptyString
  | String a s' =>
      if Ascii.eqb a c then EmptyString else String a (before_first c s')
  end.

(** [url[0]] of a pair, the url itself otherwise. *)
Definition url_of (url : media_url) : string :=
  match url with
  | Direct url => url
  | VideoAudio video_url _ => video_url
  end.

(** [os.path.basename] is the text after the last slash. *)
Definition clean_filename (url : media_url) : string :=
  let base_name := before_first "?" (url_of url) in
  last_segment base_name.

(** The text before the last [c] and the text from it on. *)
Fixpoint rsplit_at (c : ascii) (s : string) : option (string * string) :=
  match s with
  | EmptyString => None
  | String a s' =>
      match rsplit_at c s' with
      | Some (root, ext) => Some (String a root, ext)
      | None => if Ascii.eqb a c then Some (EmptyString, s) else None
      end
  end.

Fixpoint all_dots (s : string) : bool :=
  match s with
  | EmptyString => true
  | String a s' => Ascii.eqb a "." && all_dots s'
  end.

(** [os.path.splitext(p)[1]]: the text from the last dot of the last
    segment on, unless only dots come before it in that segment. *)
Definition splitext_ext (p : string) : string :=
  match rsplit_at "." (last_segment p) with
  | Some (root, ext) => if all_dots root then EmptyString else ext
  | None => EmptyString
  end.

(** [f"temp_{post.id}_{i}{os.path.splitext(clean_url)[1]}"] *)
Definition media_filename (id : string) (i : nat) (url : media_url) : string :=
  ("temp_" ++ id ++ "_" ++ pretty i ++ splitext_ext (clean_filename url))%string.

(** [for i, url in enumerate(media_urls)], from position [i] on.  An
    exception raised for a url is caught and the loop goes on. *)
Fixpoint media_loop (w : nat -> fetch_env) (id : string) (urls : list media_url)
    (i : nat) (media_files : list string) (fs : gmap string bytes)
    : list string * gmap string bytes :=
  match urls with
  | [] => (media_files, fs)
  | url :: rest =>
      let filename := media_filename id i url in
      let '(r, fs) := download_and_process_media (w i) url filename fs in
      match r with
      | Return (Some true) =>
          if exists_nonempty fs filename
          then media_loop w id rest (S i) (media_files ++ [filename]) fs
          else media_loop w id rest (S i) media_files fs
      | _ => media_loop w id rest (S i) media_files fs
      end
  end.

Definition is_digit (a : ascii) : bool :=
  let n := nat_of_ascii a in (48 <=? n)%nat && (n <=? 57)%nat.

Fixpoint all_digits (s : string) : bool :=
  match s with
  | EmptyString => true
  | String a s' => is_digit a && all_digits s'
  end.

(** ** get_media_urls

    [s.replace(old, new)] for a pattern [old] that is not empty: the
    occurrences are found from the left and do not overlap.  [skip]
    characters of an occurrence are still to be passed. *)
Fixpoint replace_from (old new : string) (skip : nat) (s : string) : string :=
  match s with
  | EmptyString => EmptyString
  | String a s' =>
      match skip with
      | S k => replace_from old new k s'
      | O =>
          if String.prefix old s
          then (new ++ replace_from old new (String.length old - 1) s')%string
          else String a (replace_from old new 0 s')
      end
  end.

Definition replace (old new s : string) : string := replace_from old new 0 s.

(** [s.rsplit(c, 1)[0]]: the text before the last [c]. *)
Definition rsplit_head (c : ascii) (s : string) : string :=
  match rsplit_at c s with
  | Some (root, _) => root
  | None => s
  end.

(** What the gallery loop finds for one item. *)
Inductive gallery_entry : Type :=
  | EntryRaises            (* reading the item or its preview raises *)
  | NoMetadata             (* [media_id] is not in [post.media_metadata] *)
  | NoPreview              (* the metadata has no ["p"] *)
  | Preview (u : string).  (* [post.media_metadata[media_id]["p"][0]["u"]] *)

Inductive reddit_media : Type :=
  | NoRedditVideo                  (* [post.media] is falsy or has no
                                      ["reddit_video"] *)
  | Fallback (video_url : string)  (* [post.media["reddit_video"]["fallback_url"]] *)
  | FallbackRaises.                (* reading the url raises *)

(** The attributes of a submission that [get_media_urls] reads besides the
    url.  [gallery_items] is [None] without the attribute [media_metadata]
    and [Some None] where reading [post.gallery_data["items"]] raises;
    [media] is [None] without the attribute [media]. *)
Record media_attrs := MediaAttrs {
  is_gallery : bool;
  gallery_items : option (option (list gallery_entry));
  media : option reddit_media }.

(** [requests.head(test_url, timeout=5)] *)
Inductive head_obs : Type :=
  | HeadStatus (status_code : Z)
  | HeadFailed                    (* a [RequestException] *)
  | HeadRaised.                   (* another exception *)

(** [for item_id in post.gallery_data["items"]]; an exception ends the loop
    and the urls found so far are returned. *)
Fixpoint gallery_urls (items : list gallery_entry) (media_urls : list media_url)
    : list media_url :=
  match items with
  | [] => media_urls
  | EntryRaises :: _ => media_urls
  | NoMetadata :: rest | NoPreview :: rest => gallery_urls rest media_urls
  | Preview u :: rest =>
      gallery_urls rest (media_urls ++ [Direct (replace "preview" "i" u)])
  end.

Definition audio_patterns : list string :=
  ["/DASH_audio.mp4"; "/DASH_AUDIO_128.mp4"; "/DASH_audio_128.mp4"; "/audio";
   "/DASH_audio"; "/DASH_128.mp4"; "/DASH_96.mp4"; "/DASH_64.mp4"]%string.

(** [for pattern in audio_patterns]: the audio url found, if any; [None]
    where an exception that is no [RequestException] leaves the loop. *)
Fixpoint probe_audio (head : string -> head_obs) (base_url : string)
    (patterns : list string) : option (option string) :=
  match patterns with
  | [] => Some None
  | pattern :: rest =>
      let test_url := (base_url ++ pattern)%string in
      match head test_url with
      | HeadStatus status_code =>
          if status_code =? 200 then Some (Some test_url)
          else probe_audio head base_url rest
      | HeadFailed => probe_audio head base_url rest
      | HeadRaised => None
      end
  end.

Definition imgur_suffixes : list string := [".jpg"; ".jpeg"; ".png"; ".gif"]%string.

(** The submission has a url, as [check_and_post] has tested before the
    call.  An exception raised inside is caught and the urls found so far
    are returned. *)
Definition get_media_urls (head : string -> head_obs) (post : submission)
    (attrs : media_attrs) : list media_url :=
  if contains (sub_url post) "imgur.com" then
    if negb (endswith_any (sub_url post) imgur_suffixes) then
      let img_id := last_segment (sub_url post) in
      [Direct ("https://i.imgur.com/" ++ img_id ++ ".png")%string]
    else [Direct (sub_url post)]
  else if has_is_gallery post && is_gallery attrs then
    match gallery_items attrs with
    | Some (Some items) => gallery_urls items []
    | Some None | None => []
    end
  else if contains (sub_url post) "v.redd.it" && bool_decide (is_Some (media attrs)) then
    match media attrs with
    | Some (Fallback video_url) =>
        let base_url := rsplit_head "/" video_url in
        match probe_audio head base_url audio_patterns with
        | Some audio_url => [VideoAudio video_url audio_url]
        | None => []
        end
    | _ => []
    end
  else if endswith_any (lower (sub_url post)) media_suffixes then
    [Direct (sub_url post)]
  else [].

(** A video hosted by Reddit whose audio is found at the fourth pattern. *)
Definition sample_head (u : string) : head_obs :=
  if String.eqb u "https://v.redd.it/xyz/audio" then HeadStatus 200
  else HeadStatus 403.

Definition sample_video_post : submission :=
  Submission "abc" 10000 "https://v.redd.it/xyz" false.

Definition sample_video_url : string :=
  "https://v.redd.it/xyz/DASH_720.mp4?source=fallback".

Definition sample_video_attrs : media_attrs :=
  MediaAttrs false None (Some (Fallback sample_video_url)).
(** * Properties *)

(** ** Slices *)

Lemma slice_index_le {A} (s : list A) (k : Z) : (slice_index s k <= length s)%nat.
Proof. unfold slice_index, py_len. destruct (k <? 0) eqn:E; lia. Qed.

Lemma slice_to_from {A} (s : list A) (k : Z) : slice_to s k ++ slice_from s k = s.
Proof. unfold slice_to, slice_from. apply take_drop. Qed.

Lemma py_len_app {A} (a b : list A) : py_len (a ++ b) = py_len a + py_len b.
Proof. unfold py_len. rewrite length_app. lia. Qed.

Lemma strip_marker_app (x : str) : strip_marker (x ++ py "...") = x.
Proof.
  unfold strip_marker, slice_to, slice_index.
  replace (-3 <? 0) with true by reflexivity.
  rewrite py_len_app.
  replace (py_len (py "...")) with 3 by reflexivity.
  replace (Z.to_nat (Z.max 0 (py_len x + 3 + -3))) with (length x)
    by (unfold py_len; lia).
  apply take_app_length.
Qed.

(** ** split_into_thread *)

Lemma later_payload_cons (a b : str) (l : list str) :
  later_payload (a :: b :: l) = strip_marker a ++ later_payload (b :: l).
Proof. reflexivity. Qed.

Lemma later_payload_snoc (acc : list str) (c : str) :
  later_payload (acc ++ [c]) = concat (strip_marker <$> acc) ++ c.
Proof.
  induction acc as [|a acc IH]; [reflexivity|].
  change ((a :: acc) ++ [c]) with (a :: (acc ++ [c])).
  destruct (acc ++ [c]) as [|d l] eqn:E.
  - destruct acc; discriminate.
  - rewrite later_payload_cons, IH. cbn. now rewrite <- app_assoc.
Qed.

Lemma slice_from_nonempty (rem : str) (k : Z) :
  rem <> [] -> k < py_len rem -> slice_from rem k <> [].
Proof.
  intros Hne Hk Hnil.
  assert (Hlen : length (slice_from rem k) = 0%nat) by now rewrite Hnil.
  unfold slice_from in Hlen. rewrite length_drop in Hlen.
  assert (0 < length rem)%nat by (destruct rem; [congruence | cbn; lia]).
  unfold slice_index, py_len in *. destruct (k <? 0) eqn:E; lia.
Qed.

(** The loop keeps the text: what was cut off so far, without the markers,
    followed by what remains. *)
Lemma split_loop_payload (limit : Z) (first : str) :
  forall fuel remaining acc chunks,
    remaining <> [] \/ acc = [] ->
    split_loop fuel limit remaining (first :: acc) = Some chunks ->
    payload chunks = first ++ concat (strip_marker <$> acc) ++ remaining.
Proof.
  induction fuel as [|fuel IH]; intros remaining acc chunks Hinv Hrun.
  - destruct remaining as [|c r].
    + destruct Hinv as [?| ->]; [congruence|].
      cbn in Hrun. injection Hrun as <-. reflexivity.
    + cbn [split_loop] in Hrun.
      destruct (py_len (c :: r) <=? limit); [|discriminate].
      injection Hrun as <-. change ((first :: acc) ++ [c :: r])
        with (first :: (acc ++ [c :: r])).
      cbn [payload]. now rewrite later_payload_snoc.
  - destruct remaining as [|c r].
    + destruct Hinv as [?| ->]; [congruence|].
      cbn in Hrun. injection Hrun as <-. reflexivity.
    + cbn [split_loop] in Hrun.
      destruct (py_len (c :: r) <=? limit) eqn:E.
      * injection Hrun as <-. change ((first :: acc) ++ [c :: r])
          with (first :: (acc ++ [c :: r])).
        cbn [payload]. now rewrite later_payload_snoc.
      * change ((first :: acc) ++ [slice_to (c :: r) (limit - 3) ++ py "..."])
          with (first :: (acc ++ [slice_to (c :: r) (limit - 3) ++ py "..."])) in Hrun.
        apply IH in Hrun.
        -- rewrite Hrun, fmap_app, concat_app. cbn [fmap list_fmap concat].
           rewrite strip_marker_app, app_nil_r, <- !app_assoc.
           now rewrite slice_to_from.
        -- left. apply slice_from_nonempty; [congruence|].
           apply Z.leb_gt in E. lia.
Qed.

Lemma length_slice_from (rem : str) (k : Z) :
  0 < k -> rem <> [] -> (length (slice_from rem k) < length rem)%nat.
Proof.
  intros Hk Hne. unfold slice_from. rewrite length_drop.
  assert (0 < length rem)%nat by (destruct rem; [congruence | cbn; lia]).
  unfold slice_index, py_len.
  replace (k <? 0) with false by (symmetry; apply Z.ltb_ge; lia). lia.
Qed.

(** With a limit of at least 4 every pass shortens the remaining text, so a
    pass per character is enough. *)
Lemma split_loop_total (limit : Z) :
  4 <= limit ->
  forall fuel remaining chunks,
    (length remaining <= fuel)%nat ->
    is_Some (split_loop fuel limit remaining chunks).
Proof.
  intros Hlim. induction fuel as [|fuel IH]; intros remaining chunks Hfuel.
  - destruct remaining; [eexists; reflexivity | cbn in Hfuel; lia].
  - destruct remaining as [|c r]; [eexists; reflexivity|].
    cbn [split_loop]. destruct (py_len (c :: r) <=? limit); [eexists; reflexivity|].
    apply IH.
    pose proof (length_slice_from (c :: r) (limit - 3)) as Hlt.
    assert (length (slice_from (c :: r) (limit - 3)) < length (c :: r))%nat
      by (apply Hlt; [lia | congruence]).
    lia.
Qed.

(** C9. A text no longer than the first-segment budget (the limit minus the
    length of the hashtag suffix minus the two separator characters) comes
    back as a single chunk, unchanged. *)
Theorem split_into_thread_short (fuel : nat) (text : str) (limit : Z) :
  py_len text <= limit - py_len hashtag_section - 2 ->
  split_into_thread fuel text limit = Some [text].
Proof.
  intros Hlen. unfold split_into_thread, first_post_limit.
  now apply Z.leb_le in Hlen as ->.
Qed.

Lemma split_into_thread_short_witness :
  py_len (py "Nice pass! - u/alice") <= 300 - py_len hashtag_section - 2
  /\ split_into_thread 0 (py "Nice pass! - u/alice") 300
     = Some [py "Nice pass! - u/alice"].
Proof.
  split; [vm_compute; discriminate|].
  apply (split_into_thread_short 0 (py "Nice pass! - u/alice") 300).
  vm_compute; discriminate.
Defined.

(** C6. For a text longer than the first-segment budget, the chunks that
    [split_into_thread] returns carry the text exactly once: the first chunk,
    the later chunks without their three-character marker and the final
    chunk as it is, joined, are the text.  The chunks are returned whenever
    the limit is at least 4 (as the limit 300 in use is). *)
Theorem split_into_thread_payload (text : str) (limit : Z) :
  first_post_limit limit < py_len text ->
  (forall fuel chunks,
      split_into_thread fuel text limit = Some chunks -> payload chunks = text)
  /\ (4 <= limit ->
      forall fuel, (length text <= fuel)%nat ->
        exists chunks, split_into_thread fuel text limit = Some chunks
                       /\ payload chunks = text).
Proof.
  intros Hlong.
  assert (Hpart : forall fuel chunks,
             split_into_thread fuel text limit = Some chunks ->
             payload chunks = text).
  { intros fuel chunks. unfold split_into_thread.
    replace (py_len text <=? first_post_limit limit) with false
      by (symmetry; apply Z.leb_gt; lia).
    intros Hrun. apply split_loop_payload in Hrun.
    - rewrite Hrun. cbn. apply slice_to_from.
    - now right. }
  split; [exact Hpart|].
  intros Hlim fuel Hfuel.
  destruct (split_into_thread fuel text limit) as [chunks|] eqn:E.
  - exists chunks. split; [reflexivity|]. now apply (Hpart fuel).
  - exfalso. unfold split_into_thread in E.
    replace (py_len text <=? first_post_limit limit) with false in E
      by (symmetry; apply Z.leb_gt; lia).
    assert (Hsome : is_Some (split_loop fuel limit
                      (slice_from text (first_post_limit limit))
                      [slice_to text (first_post_limit limit)])).
    { apply split_loop_total; [exact Hlim|].
      unfold slice_from. rewrite length_drop. lia. }
    rewrite E in Hsome. now destruct Hsome.
Qed.

Lemma split_into_thread_payload_witness :
  first_post_limit 300 < py_len long_text
  /\ exists chunks, split_into_thread 700 long_text 300 = Some chunks
                    /\ payload chunks = long_text.
Proof.
  assert (H : first_post_limit 300 < py_len long_text) by (vm_compute; reflexivity).
  split; [exact H|].
  apply (proj2 (split_into_thread_payload long_text 300 H)).
  - lia.
  - vm_compute. lia.
Defined.

(** ** UTF-8 *)

Lemma encode_utf8_app (a b : str) :
  encode_utf8 (a ++ b)
  = (x ← encode_utf8 a; y ← encode_utf8 b; Some (x ++ y)).
Proof.
  induction a as [|c a IH]; cbn [app encode_utf8].
  - cbn. destruct (encode_utf8 b); reflexivity.
  - destruct (utf8_encode_cp c) as [bc|]; cbn; [|reflexivity].
    rewrite IH. destruct (encode_utf8 a) as [x|]; cbn; [|reflexivity].
    destruct (encode_utf8 b) as [y|]; cbn; [|reflexivity].
    now rewrite app_assoc.
Qed.

Ltac decide_tests :=
  repeat match goal with
    | |- context [?a <=? ?b] => destruct (Z.leb_spec a b); try lia
    | |- context [?a <? ?b] => destruct (Z.ltb_spec a b); try lia
    end.

(** Decoding undoes the encoding of one code point. *)
Lemma decode_encode_cp (c : Z) (b rest : bytes) :
  utf8_encode_cp c = Some b ->
  decode_utf8 (b ++ rest) = cons c <$> decode_utf8 rest.
Proof.
  unfold utf8_encode_cp.
  destruct (Z.ltb_spec c 0); [discriminate|].
  destruct (Z.ltb_spec c 128).
  { intros [= <-]. cbn [app decode_utf8]. decide_tests. reflexivity. }
  destruct (Z.ltb_spec c 2048).
  { intros [= <-]. cbn [app decode_utf8]. unfold is_cont.
    pose proof (Z.div_mod c 64 ltac:(lia)).
    pose proof (Z.mod_pos_bound c 64 ltac:(lia)).
    decide_tests. cbn [andb]. f_equal. f_equal. lia. }
  destruct (Z.ltb_spec c 65536).
  { destruct ((55296 <=? c) && (c <=? 57343)) eqn:Es; [discriminate|].
    intros [= <-]. cbn [app decode_utf8]. unfold is_cont.
    pose proof (Z.div_mod c 64 ltac:(lia)).
    pose proof (Z.mod_pos_bound c 64 ltac:(lia)).
    pose proof (Z.div_mod (c / 64) 64 ltac:(lia)).
    pose proof (Z.mod_pos_bound (c / 64) 64 ltac:(lia)).
    assert (c / 4096 = c / 64 / 64) by (rewrite Z.div_div by lia; reflexivity).
    assert (Hc : (224 + c / 4096 - 224) * 4096 + (128 + (c / 64) mod 64 - 128) * 64
                 + (128 + c mod 64 - 128) = c) by lia.
    cbv zeta. rewrite Hc, Es.
    decide_tests. reflexivity. }
  destruct (Z.ltb_spec c 1114112); [|discriminate].
  intros [= <-]. cbn [app decode_utf8]. unfold is_cont.
  pose proof (Z.div_mod c 64 ltac:(lia)).
  pose proof (Z.mod_pos_bound c 64 ltac:(lia)).
  pose proof (Z.div_mod (c / 64) 64 ltac:(lia)).
  pose proof (Z.mod_pos_bound (c / 64) 64 ltac:(lia)).
  pose proof (Z.div_mod (c / 4096) 64 ltac:(lia)).
  pose proof (Z.mod_pos_bound (c / 4096) 64 ltac:(lia)).
  assert (c / 4096 = c / 64 / 64) by (rewrite Z.div_div by lia; reflexivity).
  assert (c / 262144 = c / 4096 / 64) by (rewrite Z.div_div by lia; reflexivity).
  assert (Hc : (240 + c / 262144 - 240) * 262144
               + (128 + (c / 4096) mod 64 - 128) * 4096
               + (128 + (c / 64) mod 64 - 128) * 64
               + (128 + c mod 64 - 128) = c) by lia.
  cbv zeta. rewrite Hc.
  decide_tests. reflexivity.
Qed.

(** Round trip: a string that encodes decodes to itself. *)
Lemma decode_encode_utf8 (s : str) (bs : bytes) :
  encode_utf8 s = Some bs -> decode_utf8 bs = Some s.
Proof.
  revert bs. induction s as [|c s IH]; intros bs.
  - intros [= <-]. reflexivity.
  - cbn [encode_utf8].
    destruct (utf8_encode_cp c) as [b|] eqn:Ec; [|discriminate].
    destruct (encode_utf8 s) as [bs'|]; [|discriminate].
    cbn. intros [= <-].
    rewrite (decode_encode_cp c b bs' Ec), (IH bs' eq_refl). reflexivity.
Qed.

(** ** create_hashtag_facets *)

(** Where [find] reports an occurrence there is one. *)
Lemma str_find_at_found (sub : str) :
  forall s i p,
    str_find_at i s sub = p -> 0 <= i -> p <> -1 ->
    i <= p /\ take (length sub) (drop (Z.to_nat (p - i)) s) = sub.
Proof.
  induction s as [|c s IH]; intros i p Hp Hi Hfound; cbn [str_find_at] in Hp.
  - case_bool_decide as Hd.
    + subst p. replace (i - i) with 0 by lia. split; [lia | exact Hd].
    + congruence.
  - case_bool_decide as Hd.
    + subst p. replace (i - i) with 0 by lia. split; [lia | exact Hd].
    + apply IH in Hp as [Hle Htake]; [|lia|exact Hfound].
      split; [lia|].
      replace (Z.to_nat (p - i)) with (S (Z.to_nat (p - (i + 1)))) by lia.
      exact Htake.
Qed.

Lemma str_find_found (s sub : str) (p : Z) :
  str_find s sub = p -> p <> -1 ->
  0 <= p /\ s = take (Z.to_nat p) s ++ sub ++ drop (Z.to_nat p + length sub) s.
Proof.
  intros Hp Hfound. apply str_find_at_found in Hp as [Hle Htake]; [|lia|exact Hfound].
  split; [exact Hle|].
  replace (p - 0) with p in Htake by lia.
  rewrite <- (take_drop (Z.to_nat p) s) at 1. f_equal.
  rewrite <- (take_drop (length sub) (drop (Z.to_nat p) s)) at 1.
  rewrite Htake, drop_drop. reflexivity.
Qed.

Lemma slice_to_app_l {A} (a b : list A) :
  slice_to (a ++ b) (py_len a) = a.
Proof.
  unfold slice_to, slice_index.
  replace (py_len a <? 0) with false by (unfold py_len; symmetry; apply Z.ltb_ge; lia).
  rewrite py_len_app.
  replace (Z.to_nat (Z.min (py_len a) (py_len a + py_len b))) with (length a)
    by (unfold py_len; lia).
  apply take_app_length.
Qed.

Lemma slice_middle {A} (a m b : list A) :
  slice (a ++ m ++ b) (py_len a) (py_len (a ++ m)) = m.
Proof.
  unfold slice, slice_index. rewrite !py_len_app.
  replace (py_len a <? 0) with false by (unfold py_len; symmetry; apply Z.ltb_ge; lia).
  replace (py_len a + py_len m <? 0) with false
    by (unfold py_len; symmetry; apply Z.ltb_ge; lia).
  replace (Z.to_nat (Z.min (py_len a) (py_len a + (py_len m + py_len b))))
    with (length a) by (unfold py_len; lia).
  replace (Z.to_nat (Z.min (py_len a + py_len m) (py_len a + (py_len m + py_len b))))
    with (length a + length m)%nat by (unfold py_len; lia).
  rewrite drop_app_length.
  replace (length a + length m - length a)%nat with (length m) by lia.
  apply take_app_length.
Qed.

Lemma encode_utf8_app_inv (a b : str) (bs : bytes) :
  encode_utf8 (a ++ b) = Some bs ->
  exists ba bb, encode_utf8 a = Some ba /\ encode_utf8 b = Some bb /\ bs = ba ++ bb.
Proof.
  rewrite encode_utf8_app.
  destruct (encode_utf8 a) as [ba|]; [|discriminate].
  destruct (encode_utf8 b) as [bb|]; [|discriminate].
  cbn. intros [= <-]. now exists ba, bb.
Qed.

(** The byte range of a facet selects the hashtag. *)
Definition selects (text_bytes : bytes) (f : facet) : Prop :=
  decode_utf8 (slice text_bytes (byteStart f) (byteEnd f)) = Some (py "#" ++ tag f).

Lemma facet_step_selects (text : str) (text_bytes : bytes)
    (facets facets' : list facet) (tg : str) :
  encode_utf8 text = Some text_bytes ->
  facet_step text facets tg = Some facets' ->
  Forall (selects text_bytes) facets ->
  Forall (selects text_bytes) facets'.
Proof.
  intros Henc Hstep Hold. unfold facet_step in Hstep. cbv zeta in Hstep.
  assert (Hsub : (0 < length (py "#" ++ tg))%nat) by (cbn; lia).
  remember (py "#" ++ tg) as sub eqn:Esub.
  destruct (str_find text sub =? -1) eqn:Ep; cbn [negb] in Hstep.
  { now injection Hstep as <-. }
  apply Z.eqb_neq in Ep.
  destruct (str_find_found text sub _ eq_refl Ep) as [Hpos Hsplit].
  set (p := str_find text sub) in *.
  set (a := take (Z.to_nat p) text) in *.
  set (b := drop (Z.to_nat p + length sub) text) in *.
  assert (Hp : p = py_len a).
  { assert (Z.to_nat p <= length text)%nat.
    { destruct (Nat.le_gt_cases (Z.to_nat p) (length text)) as [|Hgt]; [assumption|].
      exfalso. apply (f_equal length) in Hsplit.
      subst a b. rewrite !length_app, length_take, length_drop in Hsplit.
      lia. }
    subst a. unfold py_len. rewrite length_take. lia. }
  rewrite Hsplit in Hstep, Henc.
  rewrite Hp in Hstep at 1. rewrite slice_to_app_l in Hstep.
  replace (p + py_len sub) with (py_len (a ++ sub)) in Hstep
    by (rewrite py_len_app; lia).
  rewrite app_assoc, slice_to_app_l in Hstep.
  apply encode_utf8_app_inv in Henc as (ba & bmb & Ha & Hmb & ->).
  apply encode_utf8_app_inv in Hmb as (bm & bb & Hm & Hb & ->).
  rewrite encode_utf8_app, Ha, Hm in Hstep.
  cbn in Hstep. injection Hstep as <-.
  apply Forall_app. split; [exact Hold|].
  constructor; [|constructor].
  unfold selects. cbn [byteStart byteEnd tag].
  rewrite slice_middle, <- Esub. now apply decode_encode_utf8.
Qed.

Lemma facet_loop_selects (text : str) (text_bytes : bytes) :
  encode_utf8 text = Some text_bytes ->
  forall tags facets facets',
    facet_loop text facets tags = Some facets' ->
    Forall (selects text_bytes) facets ->
    Forall (selects text_bytes) facets'.
Proof.
  intros Henc. induction tags as [|tg tags IH]; intros facets facets' Hrun Hold.
  - now injection Hrun as <-.
  - cbn [facet_loop] in Hrun.
    destruct (facet_step text facets tg) as [facets1|] eqn:Es; [|discriminate].
    cbn in Hrun. eapply IH; [exact Hrun|].
    eapply facet_step_selects; eassumption.
Qed.

(** C7. Every facet that [create_hashtag_facets] produces for a text selects,
    in the UTF-8 encoding of that text, a byte range [byteStart, byteEnd)
    that decodes to the hashtag, '#' followed by the facet's tag, whatever
    multibyte characters come before it. *)
Theorem create_hashtag_facets_selects (formatted_text : str)
    (text_bytes : bytes) (facets : list facet) (i : nat) (f : facet) :
  create_hashtag_facets formatted_text = Some facets ->
  encode_utf8 formatted_text = Some text_bytes ->
  facets !! i = Some f ->
  decode_utf8 (slice text_bytes (byteStart f) (byteEnd f)) = Some (py "#" ++ tag f).
Proof.
  intros Hrun Henc Hf. unfold create_hashtag_facets in Hrun.
  rewrite Henc in Hrun. cbn in Hrun.
  pose proof (facet_loop_selects formatted_text text_bytes Henc hashtags []
                facets Hrun (Forall_nil_2 _)) as Hall.
  rewrite Forall_lookup in Hall. exact (Hall i f Hf).
Qed.

Lemma create_hashtag_facets_selects_witness :
  create_hashtag_facets emoji_text = Some emoji_facets
  /\ encode_utf8 emoji_text = Some emoji_bytes
  /\ emoji_facets !! 3%nat = Some (Facet 33 44 RACE_HASHTAG)
  /\ decode_utf8 (slice emoji_bytes 33 44) = Some (py "#" ++ RACE_HASHTAG).
Proof.
  assert (H1 : create_hashtag_facets emoji_text = Some emoji_facets) by reflexivity.
  assert (H2 : encode_utf8 emoji_text = Some emoji_bytes) by reflexivity.
  assert (H3 : emoji_facets !! 3%nat = Some (Facet 33 44 RACE_HASHTAG)) by reflexivity.
  split; [exact H1|]. split; [exact H2|]. split; [exact H3|].
  exact (create_hashtag_facets_selects emoji_text emoji_bytes emoji_facets 3
           (Facet 33 44 RACE_HASHTAG) H1 H2 H3).
Defined.

(** ** compress_video *)

(** A pass that finds an output file narrows the range, from one side or
    the other, or returns. *)
Lemma crf_step_output_shrinks (target_size current_size : Z) (st : crf_state) :
  min_crf st <= current_crf st <= max_crf st ->
  match crf_step target_size (Output current_size) st with
  | inr b => b = true
  | inl st' =>
      crf_width st' < crf_width st
      /\ min_crf st <= min_crf st' /\ max_crf st' <= max_crf st
      /\ (min_crf st' <= max_crf st' ->
          min_crf st' <= current_crf st' <= max_crf st')
  end.
Proof.
  intros Hin. unfold crf_step, crf_width.
  destruct (current_size <=? target_size).
  - destruct ((current_crf st =? min_crf st) || (target_size * 9 <? current_size * 10));
      [reflexivity|].
    cbn [min_crf max_crf current_crf]. repeat split; try lia.
    + intros. apply Z.div_le_lower_bound; lia.
    + intros. apply Z.div_le_upper_bound; lia.
  - cbn [min_crf max_crf current_crf]. repeat split; try lia.
    + intros. apply Z.div_le_lower_bound; lia.
    + intros. apply Z.div_le_upper_bound; lia.
Qed.

(** So when every pass finds an output file the search returns, within as
    many passes as the range is wide. *)
Lemma crf_loop_output_returns (target_size : Z) (enc : nat -> Z -> encode_obs) :
  (forall n crf, exists size, enc n crf = Output size) ->
  forall fuel n st,
    min_crf st <= current_crf st <= max_crf st \/ max_crf st < min_crf st ->
    crf_width st <= Z.of_nat fuel ->
    is_Some (crf_loop fuel target_size enc n st).
Proof.
  intros Henc. induction fuel as [|fuel IH]; intros n st Hin Hfuel.
  - cbn [crf_loop]. unfold crf_width in Hfuel.
    replace (min_crf st <=? max_crf st) with false
      by (symmetry; apply Z.leb_gt; lia).
    now eexists.
  - cbn [crf_loop]. destruct (Z.leb_spec (min_crf st) (max_crf st)) as [Hle|Hgt];
      [|now eexists].
    destruct Hin as [Hin|]; [|lia].
    destruct (Henc n (current_crf st)) as [size ->].
    pose proof (crf_step_output_shrinks target_size size st Hin) as Hstep.
    destruct (crf_step target_size (Output size) st) as [st'|b]; [|now eexists].
    destruct Hstep as (Hw & Hlo & Hhi & Hcur).
    apply IH; [|lia].
    destruct (Z.le_gt_cases (min_crf st') (max_crf st')); [left; auto | right; lia].
Qed.

Lemma crf_loop_no_output (target_size : Z) :
  forall fuel n st,
    min_crf st <= max_crf st ->
    crf_loop fuel target_size (fun _ _ => NoOutput) n st = None.
Proof.
  induction fuel as [|fuel IH]; intros n st Hle; cbn [crf_loop].
  - now apply Z.leb_le in Hle as ->.
  - apply Z.leb_le in Hle as Hb. rewrite Hb. cbn [crf_step]. now apply IH.
Qed.

(** C2, on a video over the budget for which ffmpeg leaves no output file:
    a pass then changes neither bound, the range [18, 35] is searched for
    ever, and [compress_video] does not return whatever the number of
    passes allowed. *)
Theorem compress_video_no_output_never_returns :
  (forall target_size st,
      exists st', crf_step target_size NoOutput st = inl st'
                  /\ min_crf st' = min_crf st /\ max_crf st' = max_crf st)
  /\ forall fuel,
       compress_video fuel 900 1000000 (Some 2000) (fun _ _ => NoOutput) = None.
Proof.
  split.
  - intros target_size st. eexists. split; [reflexivity|]. split; reflexivity.
  - intros fuel. unfold compress_video.
    replace (1000000 <=? 900 * 1024) with false by reflexivity.
    rewrite crf_loop_no_output; [reflexivity | cbn; lia].
Qed.

(** The same video returns within 18 passes once every pass finds an output
    file. *)
Lemma compress_video_output_returns (max_size_kb original_size bitrate : Z)
    (enc : nat -> Z -> encode_obs) :
  (forall n crf, exists size, enc n crf = Output size) ->
  exists b, compress_video 18 max_size_kb original_size (Some bitrate) enc
            = Some (Return b).
Proof.
  intros Henc. unfold compress_video.
  destruct (original_size <=? max_size_kb * 1024); [now eexists|].
  destruct (crf_loop_output_returns (max_size_kb * 1024) enc Henc 18 0 crf_init)
    as [b Hb]; [left; cbn; lia | unfold crf_width; cbn; lia |].
  rewrite Hb. now exists b.
Qed.

(** ** download_media *)

Lemma download_loop_cons (net : nat -> attempt_obs) (attempt : nat)
    (rest : list nat) (log : list net_event) :
  download_loop net (attempt :: rest) log
  = if raised (net attempt)
    then download_loop net rest (log ++ Get attempt :: backoff (net attempt) attempt)
    else (succeeded (net attempt), log ++ [Get attempt]).
Proof.
  cbn [download_loop]. destruct (net attempt) as [ok|code|code| | | ]; cbn;
    try reflexivity; try (now rewrite <- app_assoc).
  match goal with |- context [if ?b then _ else _] => destruct b end;
    now rewrite <- ?app_assoc.
Qed.

Lemma elem_of_backoff (o : attempt_obs) (k : nat) (e : net_event) :
  e ∈ backoff o k <-> e = Sleep k 5 /\ o = HTTPError 429 /\ (k < 2)%nat.
Proof.
  unfold backoff. destruct o as [ok|code|code| | | ];
    try (rewrite elem_of_nil; split; [tauto | intros (_ & ? & _); discriminate]).
  destruct (Z.eqb_spec code 429) as [->|Hne]; cbn [andb].
  - case_bool_decide as Hk; unfold max_retries in Hk.
    + rewrite list_elem_of_singleton. unfold retry_delay.
      split; [intros ->; repeat split; lia | tauto].
    + rewrite elem_of_nil. split; [tauto | intros (_ & _ & ?); lia].
  - rewrite elem_of_nil. split; [tauto | intros (_ & [= ?] & _); contradiction].
Qed.

(** The three attempts, unrolled. *)
Lemma download_media_unroll (net : nat -> attempt_obs) :
  download_media net
  = if raised (net 0%nat) then
      if raised (net 1%nat) then
        if raised (net 2%nat) then
          (false, Get 0%nat :: backoff (net 0%nat) 0 ++ Get 1%nat
                  :: backoff (net 1%nat) 1 ++ Get 2%nat :: backoff (net 2%nat) 2)
        else (succeeded (net 2%nat),
              Get 0%nat :: backoff (net 0%nat) 0 ++ Get 1%nat
              :: backoff (net 1%nat) 1 ++ [Get 2%nat])
      else (succeeded (net 1%nat), Get 0%nat :: backoff (net 0%nat) 0 ++ [Get 1%nat])
    else (succeeded (net 0%nat), [Get 0%nat]).
Proof.
  unfold download_media. cbn [max_retries seq].
  rewrite !download_loop_cons. cbn [download_loop app].
  destruct (raised (net 0%nat)); [|reflexivity].
  destruct (raised (net 1%nat)); [|now rewrite <- ?app_assoc].
  destruct (raised (net 2%nat)); cbn [app]; now rewrite <- ?app_assoc.
Qed.

Lemma attempts_made_app (l1 l2 : list net_event) :
  attempts_made (l1 ++ l2) = (attempts_made l1 + attempts_made l2)%nat.
Proof. unfold attempts_made. now rewrite filter_app, length_app. Qed.

Lemma attempts_made_backoff (o : attempt_obs) (k : nat) :
  attempts_made (backoff o k) = 0%nat.
Proof.
  unfold backoff. destruct o; try reflexivity.
  match goal with |- context [if ?b then _ else _] => destruct b end; reflexivity.
Qed.

Lemma attempts_made_get (a : nat) (l : list net_event) :
  attempts_made (Get a :: l) = S (attempts_made l).
Proof. reflexivity. Qed.

Ltac unroll net :=
  rewrite (download_media_unroll net);
  destruct (raised (net 0%nat)) eqn:R0;
  [destruct (raised (net 1%nat)) eqn:R1;
   [destruct (raised (net 2%nat)) eqn:R2|]|];
  cbn [fst snd].

Lemma download_media_attempts (net : nat -> attempt_obs) :
  (1 <= attempts_made (download_media net).2 <= 3)%nat.
Proof.
  unroll net;
    rewrite ?attempts_made_get, ?attempts_made_app, ?attempts_made_get,
      ?attempts_made_app, ?attempts_made_get, ?attempts_made_backoff;
    cbn; lia.
Qed.

Ltac log_unfold :=
  rewrite ?elem_of_cons, ?elem_of_app, ?elem_of_cons, ?elem_of_app,
    ?elem_of_cons, ?elem_of_backoff, ?elem_of_nil.

Ltac log_unfold_in H :=
  rewrite ?elem_of_cons, ?elem_of_app, ?elem_of_cons, ?elem_of_app,
    ?elem_of_cons, ?elem_of_backoff, ?elem_of_nil in H.

Ltac bounded a :=
  destruct a as [|[|[|a]]]; try lia.

Lemma download_media_gets (net : nat -> attempt_obs) (a : nat) :
  Get a ∈ (download_media net).2
  <-> (a < 3)%nat /\ forall a', (a' < a)%nat -> raised (net a') = true.
Proof.
  unroll net; log_unfold; (split;
    [ intros H;
      assert (Ha : (a < 3)%nat) by (intuition (try discriminate); simplify_eq; lia);
      split; [exact Ha|];
      intros a' Ha'; bounded a; bounded a'; try assumption;
      exfalso; intuition (try discriminate; simplify_eq; lia)
    | intros [Ha Hall]; bounded a;
      first [ now intuition
            | pose proof (Hall 0%nat ltac:(lia)); congruence
            | pose proof (Hall 1%nat ltac:(lia)); congruence ] ]).
Qed.

Lemma raised_429 (o : attempt_obs) : o = HTTPError 429 -> raised o = true.
Proof. now intros ->. Qed.

Lemma download_media_sleeps (net : nat -> attempt_obs) (a : nat) (s : Z) :
  Sleep a s ∈ (download_media net).2
  <-> s = 5 /\ Get (S a) ∈ (download_media net).2 /\ net a = HTTPError 429.
Proof.
  rewrite download_media_gets.
  unroll net; log_unfold.
  all: split;
    [ intros H;
      repeat match type of H with
        | _ \/ _ => destruct H as [H|H]
        | False => destruct H
        | Sleep _ _ = Get _ => discriminate H
        | _ /\ _ => destruct H as ([= -> ->] & H429 & Hk)
        end;
      try lia;
      (split; [reflexivity|]); (split; [|exact H429]);
      (split; [lia|]);
      intros a' Ha'; bounded a'; try assumption; lia
    | intros (-> & [Ha Hall] & H429);
      pose proof (raised_429 _ H429) as Hr;
      bounded a; try congruence;
      try (pose proof (Hall 0%nat ltac:(lia)); congruence);
      try (pose proof (Hall 1%nat ltac:(lia)); congruence);
      intuition ].
Qed.

Lemma backoff_429 (o : attempt_obs) (k : nat) :
  o = HTTPError 429 -> (k < 2)%nat -> backoff o k = [Sleep k 5].
Proof.
  intros -> Hk. unfold backoff, max_retries. cbn [Z.eqb Pos.eqb andb].
  now rewrite bool_decide_eq_true_2 by lia.
Qed.

(** A sleep stands between the attempt that met the 429 and the next. *)
Lemma download_media_sleep_between (net : nat -> attempt_obs) (a : nat) :
  Sleep a 5 ∈ (download_media net).2 ->
  exists l1 l2,
    (download_media net).2 = l1 ++ [Get a; Sleep a 5; Get (S a)] ++ l2.
Proof.
  unroll net; log_unfold; intros H;
    repeat match type of H with
      | _ \/ _ => destruct H as [H|H]
      | False => destruct H
      | Sleep _ _ = Get _ => discriminate H
      | _ /\ _ => destruct H as ([= ->] & H429 & Hk)
      end;
    try lia;
    rewrite (backoff_429 _ _ H429 Hk);
    first [ exists []; eexists; reflexivity
          | exists (Get 0%nat :: backoff (net 0%nat) 0); eexists; reflexivity ].
Qed.

Lemma download_media_ok (net : nat -> attempt_obs) :
  (download_media net).1 = true
  <-> exists a, Get a ∈ (download_media net).2 /\ net a = Status200 true.
Proof.
  split.
  - unroll net; intros Hok;
      match type of Hok with
      | succeeded (net ?k) = true =>
          exists k; split;
          [ log_unfold; intuition
          | destruct (net k) as [[|]| | | | | ]; try discriminate; reflexivity ]
      | _ => discriminate
      end.
  - intros (a & Hget & Hok). apply download_media_gets in Hget as [Ha Hall].
    assert (Hr : raised (net a) = false) by now rewrite Hok.
    unroll net; bounded a; try congruence;
      try (rewrite Hok; reflexivity);
      first [ pose proof (Hall 0%nat ltac:(lia)); congruence
            | pose proof (Hall 1%nat ltac:(lia)); congruence ].
Qed.

(** C4, as the code has it.  [download_media] makes at most three attempts.
    An attempt is made exactly when it is one of the first three and every
    earlier attempt raised, be it an HTTP error of any status, a request
    error or an I/O error; an attempt that does not raise ends the call.
    The call sleeps only after an HTTP 429 that is followed by another
    attempt, for 5 seconds, between the two.  It reports success exactly
    when an attempt it made got a 200 and left a file that is not empty. *)
Theorem download_media_retry_policy (net : nat -> attempt_obs) :
  let ok := (download_media net).1 in
  let log := (download_media net).2 in
  (1 <= attempts_made log <= 3)%nat
  /\ (forall a, Get a ∈ log
                <-> (a < 3)%nat /\ forall a', (a' < a)%nat -> raised (net a') = true)
  /\ (forall a s, Sleep a s ∈ log
                  <-> s = 5 /\ Get (S a) ∈ log /\ net a = HTTPError 429)
  /\ (forall a, Sleep a 5 ∈ log ->
                exists l1 l2, log = l1 ++ [Get a; Sleep a 5; Get (S a)] ++ l2)
  /\ (ok = true <-> exists a, Get a ∈ log /\ net a = Status200 true).
Proof.
  cbv zeta. split; [apply download_media_attempts|].
  split; [apply download_media_gets|].
  split; [apply download_media_sleeps|].
  split; [apply download_media_sleep_between | apply download_media_ok].
Qed.

(** C4 as stated fails: an HTTP 404 on every attempt is retried twice, at
    once, and the call returns after three attempts, not after the first. *)
Lemma download_media_retries_404 :
  download_media (fun _ => HTTPError 404) = (false, [Get 0; Get 1; Get 2]%nat)
  /\ ~ (forall net : nat -> attempt_obs,
           raised (net 0%nat) = true -> net 0%nat <> HTTPError 429 ->
           (download_media net).1 = false
           /\ attempts_made (download_media net).2 = 1%nat).
Proof.
  split; [reflexivity|].
  intros Hclaim.
  destruct (Hclaim (fun _ => HTTPError 404) eq_refl ltac:(discriminate)) as [_ H].
  vm_compute in H. discriminate.
Qed.

(** ** compress_image *)

Section CompressImageFacts.
Context `{Pillow}.

Lemma image_loop_step (fuel : nat) (img : image) (max_size_kb quality : Z)
    (scale : Q) :
  image_loop (S fuel) img max_size_kb quality scale
  = match render img quality scale with
    | None => Some Raises
    | Some out =>
        if py_len out <=? max_size_kb * 1024 then Some (Return out)
        else if Qlt_bool (next_setting (quality, scale)).2 scale_floor
             then Some (Return out)
             else image_loop fuel img max_size_kb
                    (next_setting (quality, scale)).1
                    (next_setting (quality, scale)).2
    end.
Proof.
  cbn [image_loop]. unfold next_setting. cbn [fst snd].
  destruct (render img quality scale) as [out|]; [|reflexivity].
  destruct (py_len out <=? max_size_kb * 1024); [reflexivity|].
  destruct (20 <? quality); reflexivity.
Qed.

Lemma settings_chain : chain (95, 1%Q) (tail settings).
Proof. cbn. repeat split. Qed.

(** What [render] returns came out of the JPEG encoder. *)
Lemma render_jpeg (img : image) (quality : Z) (scale : Q) (out : bytes) :
  render img quality scale = Some out ->
  exists resized_img,
    save_JPEG resized_img quality = Some out
    /\ (resized_img = img \/ exists size, resize img size = Some resized_img).
Proof.
  unfold render. destruct (Qlt_bool scale 1).
  - destruct (resize img _) as [r|] eqn:Er; [|discriminate].
    cbn. intros Hs. exists r. split; [exact Hs|]. right. eexists. exact Er.
  - cbn. intros Hs. exists img. split; [exact Hs | now left].
Qed.

End CompressImageFacts.


Lemma codec_encodable (m : string) :
  m ∈ ["L"; "RGB"; "CMYK"]%string ->
  encodable (H:=Codec.pillow) (m, (100, 100)).
Proof.
  intros Hm q s Hin.
  repeat (apply elem_of_cons in Hm as [->|Hm];
          [repeat (apply elem_of_cons in Hin as [[= -> ->]|Hin];
                   [vm_compute; eexists; reflexivity|]);
           now apply elem_of_nil in Hin|]).
  now apply elem_of_nil in Hm.
Qed.

Section CompressImageScan.
Context `{Pillow}.

(** The loop walks down the chain of settings: it stops at the first one
    that Pillow rejects or whose output fits, and at the last one
    otherwise. *)
Lemma image_loop_scan (img : image) (max_size_kb : Z) :
  forall rest qs fuel,
    chain qs rest -> (length rest < fuel)%nat ->
    exists (k : nat) q s,
      (qs :: rest) !! k = Some (q, s)
      /\ (forall (j : nat) q' s',
             (j < k)%nat -> (qs :: rest) !! j = Some (q', s') ->
             exists out', render img q' s' = Some out'
                          /\ max_size_kb * 1024 < py_len out')
      /\ match render img q s with
         | None => image_loop fuel img max_size_kb qs.1 qs.2 = Some Raises
         | Some out =>
             image_loop fuel img max_size_kb qs.1 qs.2 = Some (Return out)
             /\ (max_size_kb * 1024 < py_len out -> k = length rest)
         end.
Proof.
  induction rest as [|qs1 rest IH]; intros [q s] fuel Hchain Hfuel;
    (destruct fuel as [|fuel]; [cbn in Hfuel; lia|]).
  - exists 0%nat, q, s. split; [reflexivity|]. split; [intros j q' s' Hj; lia|].
    rewrite image_loop_step. cbn [fst snd].
    destruct (render img q s) as [out|]; [|reflexivity].
    cbn in Hchain. rewrite Hchain. split; [|reflexivity].
    now destruct (py_len out <=? max_size_kb * 1024).
  - destruct Hchain as (Hfloor & Hnext & Hchain).
    destruct (render img q s) as [out|] eqn:Hout.
    2: { exists 0%nat, q, s. split; [reflexivity|].
         split; [intros j q' s' Hj; lia|].
         rewrite Hout, image_loop_step. cbn [fst snd]. now rewrite Hout. }
    destruct (Z.leb_spec (py_len out) (max_size_kb * 1024)) as [Hfit|Hover].
    + exists 0%nat, q, s. split; [reflexivity|].
      split; [intros j q' s' Hj; lia|].
      rewrite Hout, image_loop_step. cbn [fst snd]. rewrite Hout.
      apply Z.leb_le in Hfit as Hfit'. rewrite Hfit'. split; [reflexivity | lia].
    + destruct (IH qs1 fuel Hchain) as (k & q1 & s1 & Hk & Hbefore & Hrun).
      { cbn in Hfuel. lia. }
      exists (S k), q1, s1. split; [exact Hk|]. split.
      * intros [|j] q' s' Hj Hj'.
        -- injection Hj' as <- <-. now exists out.
        -- apply (Hbefore j); [lia | exact Hj'].
      * assert (Hstep : image_loop (S fuel) img max_size_kb q s
                        = image_loop fuel img max_size_kb qs1.1 qs1.2).
        { rewrite image_loop_step. cbn [fst snd]. rewrite Hout.
          apply Z.leb_gt in Hover as Hover'. rewrite Hover'.
          now rewrite Hfloor, Hnext. }
        cbn [fst snd]. rewrite Hstep.
        destruct (render img q1 s1) as [out1|]; [|exact Hrun].
        destruct Hrun as [Hrun Hlast]. split; [exact Hrun|].
        intros Hover1. cbn [length]. now rewrite (Hlast Hover1).
Qed.

(** [compress_image] on a decodable image, by the setting the loop stops
    at. *)
Lemma compress_image_scan (fs : gmap string bytes) (image_path : string)
    (max_size_kb : Z) (fuel : nat) (img : image) :
  (20 <= fuel)%nat ->
  fs !! image_path ≫= Image_open = Some img ->
  exists (k : nat) q s,
    settings !! k = Some (q, s)
    /\ reaches (normalize img) max_size_kb k
    /\ match render (normalize img) q s with
       | None => compress_image fuel fs image_path max_size_kb = Some Raises
       | Some out =>
           compress_image fuel fs image_path max_size_kb
           = Some (Return (bool_decide (py_len out <= max_size_kb * 1024),
                           <[image_path := out]> fs))
           /\ (max_size_kb * 1024 < py_len out -> k = 19%nat)
       end.
Proof.
  intros Hfuel Himg.
  destruct (image_loop_scan (normalize img) max_size_kb (tail settings) (95, 1%Q)
              fuel settings_chain) as (k & q & s & Hk & Hbefore & Hrun).
  { cbn. lia. }
  exists k, q, s. split; [exact Hk|]. split; [exact Hbefore|].
  unfold compress_image. rewrite Himg. cbn [fst snd] in Hrun.
  destruct (render (normalize img) q s) as [out|].
  - destruct Hrun as [-> Hlast]. split; [reflexivity | exact Hlast].
  - now rewrite Hrun.
Qed.

Lemma settings_lookup_lt (k : nat) (qs : Z * Q) :
  settings !! k = Some qs -> (k < 20)%nat.
Proof. intros Hk. now apply lookup_lt_Some in Hk. Qed.

Lemma compress_image_raises_at (fs : gmap string bytes) (image_path : string)
    (max_size_kb : Z) (fuel : nat) (img : image) (k : nat) (q : Z) (s : Q) :
  (20 <= fuel)%nat ->
  fs !! image_path ≫= Image_open = Some img ->
  settings !! k = Some (q, s) ->
  reaches (normalize img) max_size_kb k ->
  render (normalize img) q s = None ->
  compress_image fuel fs image_path max_size_kb = Some Raises.
Proof.
  intros Hfuel Himg Hk Hreach Hnone.
  destruct (compress_image_scan fs image_path max_size_kb fuel img Hfuel Himg)
    as (k1 & q1 & s1 & Hk1 & Hreach1 & Hrun).
  destruct (lt_eq_lt_dec k1 k) as [[Hlt|Heq]|Hgt].
  - destruct (Hreach k1 q1 s1 Hlt Hk1) as (out & Hout & Hover).
    rewrite Hout in Hrun. destruct Hrun as [_ Hlast].
    apply settings_lookup_lt in Hk. specialize (Hlast Hover). lia.
  - subst k1. rewrite Hk in Hk1. injection Hk1 as <- <-. now rewrite Hnone in Hrun.
  - destruct (Hreach1 k q s Hgt Hk) as (out & Hout & _). congruence.
Qed.

Lemma compress_image_accepted (fs : gmap string bytes) (image_path : string)
    (max_size_kb : Z) (fuel : nat) (img : image) :
  (20 <= fuel)%nat ->
  fs !! image_path ≫= Image_open = Some img ->
  accepted (normalize img) max_size_kb ->
  exists (k : nat) q s out,
    settings !! k = Some (q, s)
    /\ reaches (normalize img) max_size_kb k
    /\ render (normalize img) q s = Some out
    /\ compress_image fuel fs image_path max_size_kb
       = Some (Return (bool_decide (py_len out <= max_size_kb * 1024),
                       <[image_path := out]> fs))
    /\ (max_size_kb * 1024 < py_len out -> k = 19%nat).
Proof.
  intros Hfuel Himg Hacc.
  destruct (compress_image_scan fs image_path max_size_kb fuel img Hfuel Himg)
    as (k & q & s & Hk & Hreach & Hrun).
  destruct (Hacc k q s Hk Hreach) as [out Hout]. rewrite Hout in Hrun.
  destruct Hrun as [Hrun Hlast]. now exists k, q, s, out.
Qed.



Lemma encodable_accepted (img : image) (max_size_kb : Z) :
  encodable img -> accepted img max_size_kb.
Proof.
  intros Henc k q s Hk _. apply Henc. now apply list_elem_of_lookup_2 in Hk.
Qed.
End CompressImageScan.




(** C10, as the code has it.  For a decodable image that Pillow takes at
    the settings tried, [compress_image] replaces the bytes at the path by
    the JPEG encoding of the image, at full size or resized, whatever the
    size of the file before and whatever verdict it returns.  The image
    encoded, resized or not, is RGB when the file's mode was RGB, RGBA or P,
    and has the mode of the file otherwise: only RGBA and P are converted,
    and resizing keeps the mode.  When Pillow rejects the image at a setting
    tried, the call raises and nothing is written. *)
Theorem compress_image_writes_jpeg `{Pillow} (fs : gmap string bytes)
    (image_path : string) (max_size_kb : Z) (fuel : nat) :
  (20 <= fuel)%nat ->
  (forall im, img_mode (convert_RGB im) = "RGB"%string) ->
  (forall im size resized_img,
      resize im size = Some resized_img -> img_mode resized_img = img_mode im) ->
  (forall img,
      fs !! image_path ≫= Image_open = Some img ->
      accepted (normalize img) max_size_kb ->
      exists verdict out (k : nat) quality scale resized_img,
        compress_image fuel fs image_path max_size_kb
        = Some (Return (verdict, <[image_path := out]> fs))
        /\ settings !! k = Some (quality, scale)
        /\ reaches (normalize img) max_size_kb k
        /\ render (normalize img) quality scale = Some out
        /\ save_JPEG resized_img quality = Some out
        /\ (resized_img = normalize img
            \/ exists size, resize (normalize img) size = Some resized_img)
        /\ (img_mode img ∈ ["RGB"; "RGBA"; "P"]%string ->
            img_mode resized_img = "RGB"%string)
        /\ (img_mode img ∉ ["RGBA"; "P"]%string ->
            normalize img = img /\ img_mode resized_img = img_mode img))
  /\ (forall img (k : nat) q s,
        fs !! image_path ≫= Image_open = Some img ->
        settings !! k = Some (q, s) ->
        reaches (normalize img) max_size_kb k ->
        render (normalize img) q s = None ->
        compress_image fuel fs image_path max_size_kb = Some Raises).
Proof.
  intros Hfuel Hrgb Hresize.
  split; [|intros img k q s; now apply compress_image_raises_at].
  intros img Himg Hacc.
  destruct (compress_image_accepted fs image_path max_size_kb fuel img Hfuel Himg Hacc)
    as (k & q & s & out & Hk & Hreach & Hr & Hrun & _).
  destruct (render_jpeg _ _ _ _ Hr) as (r & Hs & Hres).
  exists (bool_decide (py_len out <= max_size_kb * 1024)), out, k, q, s, r.
  split; [exact Hrun|]. split; [exact Hk|]. split; [exact Hreach|].
  split; [exact Hr|]. split; [exact Hs|]. split; [exact Hres|].
  assert (Hmode : img_mode r = img_mode (normalize img)).
  { destruct Hres as [->|[size Hsize]]; [reflexivity | now apply Hresize in Hsize]. }
  clear Hrun Hreach Hacc Hr. rewrite Hmode. unfold normalize. split.
  - intros Hm. case_bool_decide as Hc; [apply Hrgb|].
    apply elem_of_cons in Hm as [Hm|Hm]; [exact Hm|]. contradiction.
  - intros Hm. now rewrite bool_decide_eq_false_2.
Qed.

Lemma compress_image_writes_jpeg_witness :
  (20 <= 20)%nat
  /\ (forall im : Codec.img, fst (("RGB"%string, im.2) : Codec.img) = "RGB"%string)
  /\ (forall (im : Codec.img) size resized_img,
         Codec.scaled im size = Some resized_img -> fst resized_img = fst im)
  /\ accepted (H:=Codec.pillow) (normalize (H:=Codec.pillow) (("RGBA"%string, (100, 100)) : Codec.img)) 1
  /\ exists verdict out quality resized_img,
       compress_image (H:=Codec.pillow) 20 sample_files "rgba.png" 1
       = Some (Return (verdict, <["rgba.png"%string := out]> sample_files))
       /\ Codec.save resized_img quality = Some out
       /\ fst resized_img = "RGB"%string.
Proof.
  assert (Hresize : forall (im : Codec.img) size resized_img,
            Codec.scaled im size = Some resized_img -> fst resized_img = fst im).
  { intros im size r. unfold Codec.scaled.
    destruct (_ && _); [now intros [= <-] | discriminate]. }
  assert (Hacc : accepted (H:=Codec.pillow) (normalize (H:=Codec.pillow) (("RGBA"%string, (100, 100)) : Codec.img)) 1).
  { assert (Hn : normalize (H:=Codec.pillow) (("RGBA"%string, (100, 100)) : Codec.img)
                 = ("RGB"%string, (100, 100))) by (vm_compute; reflexivity).
    rewrite Hn. apply encodable_accepted, (codec_encodable "RGB"). set_solver. }
  split; [lia|]. split; [reflexivity|]. split; [exact Hresize|]. split; [exact Hacc|].
  assert (Himg : sample_files !! "rgba.png"%string ≫= Codec.open
                 = Some ("RGBA"%string, (100, 100))) by (vm_compute; reflexivity).
  destruct (proj1 (compress_image_writes_jpeg (H:=Codec.pillow) sample_files
                     "rgba.png" 1 20 ltac:(lia) ltac:(reflexivity) Hresize)
              ("RGBA"%string, (100, 100)) Himg Hacc)
    as (verdict & out & k & quality & scale & r & Hrun & _ & _ & _ & Hs & _ & Hmode & _).
  exists verdict, out, quality, r. split; [exact Hrun|]. split; [exact Hs|].
  apply Hmode, list_elem_of_further, list_elem_of_here.
Defined.

(** C10 as stated fails.  A grey image with alpha is decodable, yet the JPEG
    encoder rejects its mode: the call raises and the file stays as it was.
    A grey image is written as JPEG in its own mode, not as RGB. *)
Lemma compress_image_not_always_rgb_jpeg :
  Codec.open (Codec.lossless "LA" 100 100 5000) = Some ("LA"%string, (100, 100))
  /\ compress_image (H:=Codec.pillow) 20 sample_files "greya.png" 900 = Some Raises
  /\ exists out,
       compress_image (H:=Codec.pillow) 20 sample_files "grey.png" 900
       = Some (Return (true, <["grey.png"%string := out]> sample_files))
       /\ Codec.open out = Some ("L"%string, (100, 100)).
Proof.
  split; [reflexivity|]. split; [reflexivity|].
  eexists. split; [vm_compute; reflexivity|]. reflexivity.
Qed.

(** ** create_bluesky_thread *)


Lemma record_result_sent (st : thread) (p : post) (r : post_result) :
  sent (record_result st p r) = sent st ++ [(p, r)].
Proof. now destruct r. Qed.

Lemma image_posts_unlinked_video (w : world) (formatted_text chunk0 : str)
    (facets : list facet) (image_paths : list string) :
  forall starts st,
    Forall unlinked_video (sent st) ->
    Forall unlinked_video
      (sent (image_posts w formatted_text chunk0 facets image_paths starts st).2).
Proof.
  induction starts as [|i starts IH]; intros st Hst; cbn [image_posts]; [exact Hst|].
  destruct (upload_chunk w chunk0 (take 4 (drop i image_paths)) []) as [[|im ims]|];
    [now apply IH | | exact Hst].
  apply IH. rewrite record_result_sent. apply Forall_app. split; [exact Hst|].
  constructor; [|constructor]. intros Hv. discriminate Hv.
Qed.

Lemma video_posts_unlinked_video (w : world) (formatted_text chunk0 : str)
    (facets : list facet) :
  forall video_paths st,
    Forall unlinked_video (sent st) ->
    Forall unlinked_video
      (sent (video_posts w formatted_text chunk0 facets video_paths st).2).
Proof.
  induction video_paths as [|v video_paths IH]; intros st Hst;
    cbn [video_posts]; [exact Hst|].
  destruct (if endswith v ".gif" then _ else _) as [video_path fs].
  destruct (video_env w video_path); [now apply IH | | exact Hst].
  cbn [root_uri parent_uri sent files].
  set (p := Post _ _ (Video video_path) None).
  assert (Hp : forall r,
             Forall unlinked_video
               (sent (record_result
                        (Thread (root_uri st) (parent_uri st) (sent st) fs) p r))).
  { intros r. rewrite record_result_sent. apply Forall_app. split; [exact Hst|].
    constructor; [|constructor]. intros _. reflexivity. }
  destruct (send_video_env w video_path) eqn:Er;
    [apply IH | apply IH | ]; rewrite <- ?Er; apply Hp.
Qed.

(** Whatever the calls observe, no video post of a publish is a reply. *)
Lemma create_bluesky_thread_unlinked_video (w : world) (title author : str)
    (media_paths : list string) (scratch : gset string) :
  Forall unlinked_video
    (sent (create_bluesky_thread w title media_paths author scratch).2).
Proof.
  unfold create_bluesky_thread.
  destruct (split_into_thread _ _ _) as [[|chunk0 chunks]|]; try constructor.
  destruct (create_hashtag_facets _) as [facets|]; [|constructor].
  match goal with |- context [image_posts ?w ?a ?b ?c ?d ?e ?f] =>
    pose proof (image_posts_unlinked_video w a b c d e f (Forall_nil_2 _)) as Hi;
    destruct (image_posts w a b c d e f) as [[|] sti] end; [|exact Hi].
  match goal with |- context [video_posts ?w ?a ?b ?c ?d ?e] =>
    pose proof (video_posts_unlinked_video w a b c d e Hi) as Hv;
    destruct (video_posts w a b c d e) as [[|] stv] end; exact Hv.
Qed.


(** C1, on an image followed by a video, every call succeeding.  The image
    post becomes the root; the video post is created after it and is sent
    without a reply reference, so it is not part of the thread.  A second
    image batch, in contrast, replies to the root and to the post before
    it. *)
Theorem video_post_outside_thread :
  (let st := (create_bluesky_thread all_ok (py "Nice pass!")
                ["temp_abc_0.jpg"; "temp_abc_1.mp4"]%string (py "alice")
                (list_to_set ["temp_abc_0.jpg"; "temp_abc_1.mp4"]%string)).2 in
   root_uri st = Some "at://did:plc:bot/app.bsky.feed.post/image0"%string
   /\ links st
      = [(false, None, "at://did:plc:bot/app.bsky.feed.post/image0"%string);
         (true, None, "at://did:plc:bot/app.bsky.feed.post/temp_abc_1.mp4"%string)])
  /\ (let st := (create_bluesky_thread all_ok (py "Nice pass!") five_images
                   (py "alice") (list_to_set five_images)).2 in
      links st
      = [(false, None, "at://did:plc:bot/app.bsky.feed.post/image0"%string);
         (false,
          Some (ReplyRef "at://did:plc:bot/app.bsky.feed.post/image0" "image0"
                  "at://did:plc:bot/app.bsky.feed.post/image0" "image0"),
          "at://did:plc:bot/app.bsky.feed.post/image4"%string)]).
Proof. split; [split|]; vm_compute; reflexivity. Qed.


(** C5, on five images when sending the first batch raises.  The second
    batch becomes the root of the thread, with the caption of a
    continuation and without facets.  When a video is the next post after
    the failure, it becomes the root with the full text and the facets. *)
Theorem root_after_failed_batch :
  (let st := (create_bluesky_thread first_post_fails (py "Nice pass!") five_images
                (py "alice") (list_to_set five_images)).2 in
   root_uri st = Some "at://did:plc:bot/app.bsky.feed.post/image4"%string
   /\ captions st
      = [(py "Continued... (2/2)", false,
          "at://did:plc:bot/app.bsky.feed.post/image4"%string)])
  /\ (let st := (create_bluesky_thread first_post_fails (py "Nice pass!")
                   ["temp_abc_0.jpg"; "temp_abc_1.mp4"]%string (py "alice")
                   (list_to_set ["temp_abc_0.jpg"; "temp_abc_1.mp4"]%string)).2 in
      root_uri st = Some "at://did:plc:bot/app.bsky.feed.post/temp_abc_1.mp4"%string
      /\ captions st
         = [([34] ++ py "Nice pass!" ++ [34; 10; 10] ++ py "- u/alice" ++ hashtag_suffix,
             true, "at://did:plc:bot/app.bsky.feed.post/temp_abc_1.mp4"%string)]).
Proof. split; split; vm_compute; reflexivity. Qed.

(** ** check_and_post *)

(** The [finally] block removes the files it is given, and no others. *)
Lemma cleanup_removes (media_files : list string) (scratch : gset string) :
  cleanup media_files scratch = scratch ∖ list_to_set media_files.
Proof.
  revert scratch. induction media_files as [|f media_files IH]; intros scratch;
    cbn [cleanup foldl list_to_set].
  - now rewrite difference_empty_L.
  - fold (cleanup media_files
            (if bool_decide (f ∈ scratch) then scratch ∖ {[f]} else scratch)).
    rewrite IH. apply set_eq. intros x.
    case_bool_decide as Hf;
      rewrite !elem_of_difference, elem_of_union, elem_of_singleton.
    + tauto.
    + split; [|tauto]. intros [Hx Hn]. split; [exact Hx|].
      intros [->|Hm]; [exact (Hf Hx) | exact (Hn Hm)].
Qed.

(** C3, on an item with one gif, every call succeeding.  The publish step
    converts the gif, which removes it and leaves an mp4 under a name that
    is not in [media_files]; the cleanup removes nothing and the mp4 stays
    behind, whether or not the publish step reports success. *)
Theorem converted_video_left_behind :
  (let r := publish_item all_ok (py "Nice pass!") ["temp_abc_0.gif"]%string
              (py "alice") {["temp_abc_0.gif"%string]} in
   r.1 = true /\ elements r.2 = ["temp_abc_0.mp4"%string])
  /\ (let r := publish_item
                 (World (image_env all_ok) (send_post_env all_ok)
                    (convert_env all_ok) (video_env all_ok) (fun _ => SendRaised))
                 (py "Nice pass!") ["temp_abc_0.gif"]%string
                 (py "alice") {["temp_abc_0.gif"%string]} in
      r.1 = false /\ elements r.2 = ["temp_abc_0.mp4"%string]).
Proof. split; split; vm_compute; reflexivity. Qed.

(** ** More on split_into_thread *)

Lemma py_len_slice_to_le (s : str) (k : Z) : 0 <= k -> py_len (slice_to s k) <= k.
Proof.
  intros Hk. unfold slice_to, py_len. rewrite length_take.
  unfold slice_index, py_len.
  replace (k <? 0) with false by (symmetry; apply Z.ltb_ge; lia). lia.
Qed.

Lemma py_len_slice_to_exact (s : str) (k : Z) :
  0 <= k <= py_len s -> py_len (slice_to s k) = k.
Proof.
  intros Hk. unfold slice_to, py_len in *. rewrite length_take.
  unfold slice_index, py_len.
  replace (k <? 0) with false by (symmetry; apply Z.ltb_ge; lia). lia.
Qed.

Lemma split_loop_bounded (limit : Z) :
  3 <= limit ->
  forall fuel remaining acc chunks,
    Forall (fun c => py_len c <= limit) acc ->
    split_loop fuel limit remaining acc = Some chunks ->
    Forall (fun c => py_len c <= limit) chunks.
Proof.
  intros Hlim. induction fuel as [|fuel IH]; intros remaining acc chunks Hacc Hrun;
    destruct remaining as [|c r]; cbn [split_loop] in Hrun;
    try (injection Hrun as <-; exact Hacc).
  - destruct (Z.leb_spec (py_len (c :: r)) limit); [|discriminate].
    injection Hrun as <-. apply Forall_app. split; [exact Hacc|].
    now repeat constructor.
  - destruct (Z.leb_spec (py_len (c :: r)) limit) as [Hle|Hgt].
    + injection Hrun as <-. apply Forall_app. split; [exact Hacc|].
      now repeat constructor.
    + eapply IH; [|exact Hrun]. apply Forall_app. split; [exact Hacc|].
      repeat constructor. rewrite py_len_app.
      rewrite py_len_slice_to_exact by lia.
      replace (py_len (py "...")) with 3 by reflexivity. lia.
Qed.

(** Every chunk fits a post: none is longer than the limit, and the first
    one leaves room for the two line breaks and the hashtags that
    [create_bluesky_thread] appends to it. *)
Theorem split_into_thread_fits (fuel : nat) (text : str) (limit : Z)
    (chunks : list str) :
  py_len hashtag_section + 2 <= limit ->
  split_into_thread fuel text limit = Some chunks ->
  Forall (fun c => py_len c <= limit) chunks
  /\ exists first later,
       chunks = first :: later /\ py_len (first ++ hashtag_suffix) <= limit.
Proof.
  intros Hlim. unfold split_into_thread, first_post_limit.
  assert (Hsuf : py_len hashtag_suffix = py_len hashtag_section + 2) by reflexivity.
  assert (Hsec : py_len hashtag_section = 32) by reflexivity.
  destruct (Z.leb_spec (py_len text) (limit - py_len hashtag_section - 2)) as [Hle|Hgt].
  - intros [= <-]. split; [repeat constructor; lia|].
    exists text, []. split; [reflexivity|]. rewrite py_len_app. lia.
  - intros Hrun.
    assert (Hfirst : py_len (slice_to text (limit - py_len hashtag_section - 2))
                     <= limit - py_len hashtag_section - 2)
      by (apply py_len_slice_to_le; lia).
    split.
    + eapply (split_loop_bounded limit); [lia | | exact Hrun].
      repeat constructor. lia.
    + assert (Hhead : forall fuel remaining first acc chunks,
                 split_loop fuel limit remaining (first :: acc) = Some chunks ->
                 exists later, chunks = first :: later).
      { clear. induction fuel as [|fuel IH]; intros remaining first acc chunks Hrun;
          destruct remaining as [|c r]; cbn [split_loop] in Hrun;
          try (injection Hrun as <-; now eexists).
        - destruct (py_len (c :: r) <=? limit); [|discriminate].
          injection Hrun as <-. now eexists.
        - destruct (py_len (c :: r) <=? limit).
          + injection Hrun as <-. now eexists.
          + exact (IH _ _ _ _ Hrun). }
      destruct (Hhead _ _ _ _ _ Hrun) as [later ->].
      eexists _, later. split; [reflexivity|]. rewrite py_len_app. lia.
Qed.

Lemma split_into_thread_fits_witness :
  py_len hashtag_section + 2 <= 300
  /\ split_into_thread 700 long_text 300
     = Some [slice_to long_text 266;
             slice long_text 266 563 ++ py "...";
             slice_from long_text 563]
  /\ Forall (fun c => py_len c <= 300)
       [slice_to long_text 266; slice long_text 266 563 ++ py "...";
        slice_from long_text 563].
Proof.
  assert (H1 : py_len hashtag_section + 2 <= 300) by (vm_compute; discriminate).
  assert (H2 : split_into_thread 700 long_text 300
               = Some [slice_to long_text 266;
                       slice long_text 266 563 ++ py "...";
                       slice_from long_text 563]) by (vm_compute; reflexivity).
  split; [exact H1|]. split; [exact H2|].
  exact (proj1 (split_into_thread_fits 700 long_text 300 _ H1 H2)).
Defined.

(** ** More on create_hashtag_facets *)

Lemma encode_utf8_take (s : str) (bs : bytes) (n : nat) :
  encode_utf8 s = Some bs -> is_Some (encode_utf8 (take n s)).
Proof.
  intros Henc. rewrite <- (take_drop n s) in Henc.
  apply encode_utf8_app_inv in Henc as (ba & _ & Ha & _). now exists ba.
Qed.

Lemma utf8_encode_cp_nonempty (c : Z) (b : bytes) :
  utf8_encode_cp c = Some b -> 0 < py_len b.
Proof.
  unfold utf8_encode_cp.
  repeat match goal with |- context [if ?t then _ else _] => destruct t end;
    intros [= <-]; unfold py_len; cbn; lia.
Qed.

Lemma encode_utf8_nonempty (s : str) (bs : bytes) :
  s <> [] -> encode_utf8 s = Some bs -> 0 < py_len bs.
Proof.
  destruct s as [|c s]; [congruence|]. intros _. cbn [encode_utf8].
  destruct (utf8_encode_cp c) as [b|] eqn:Ec; [|discriminate].
  destruct (encode_utf8 s) as [bs'|]; [|discriminate].
  cbn. intros [= <-]. rewrite py_len_app.
  apply utf8_encode_cp_nonempty in Ec. unfold py_len in *. lia.
Qed.

(** [find] does not miss an occurrence. *)
Lemma str_find_at_occurs (sub : str) :
  forall s i j,
    0 <= i -> take (length sub) (drop j s) = sub -> str_find_at i s sub <> -1.
Proof.
  induction s as [|c s IH]; intros i j Hi Hocc; cbn [str_find_at].
  - rewrite drop_nil in Hocc. rewrite bool_decide_eq_true_2 by exact Hocc. lia.
  - case_bool_decide as Hd; [lia|].
    destruct j as [|j]; [now rewrite drop_0 in Hocc|].
    apply (IH (i + 1) j); [lia | exact Hocc].
Qed.

Lemma str_find_occurs (x sub y : str) : str_find (x ++ sub ++ y) sub <> -1.
Proof.
  apply (str_find_at_occurs sub _ 0 (length x)); [lia|].
  now rewrite drop_app_length, take_app_length.
Qed.

(** In a text that encodes and holds the hashtag, the pass for a tag adds one
    facet, with a byte range inside the encoded text that is not empty. *)
Lemma facet_step_found (text : str) (text_bytes : bytes) (facets : list facet)
    (tg x y : str) :
  encode_utf8 text = Some text_bytes ->
  text = x ++ (py "#" ++ tg) ++ y ->
  exists f,
    facet_step text facets tg = Some (facets ++ [f])
    /\ tag f = tg /\ 0 <= byteStart f < byteEnd f /\ byteEnd f <= py_len text_bytes.
Proof.
  intros Henc Hocc. unfold facet_step. cbv zeta.
  assert (Hsub : py "#" ++ tg <> []) by discriminate.
  remember (py "#" ++ tg) as sub eqn:Esub.
  assert (Hfound : str_find text sub <> -1)
    by (rewrite Hocc; apply str_find_occurs).
  replace (str_find text sub =? -1) with false
    by (symmetry; now apply Z.eqb_neq).
  cbn [negb].
  destruct (str_find_found text sub _ eq_refl Hfound) as [Hpos Hsplit].
  set (p := str_find text sub) in *.
  set (a := take (Z.to_nat p) text) in *.
  set (b := drop (Z.to_nat p + length sub) text) in *.
  assert (Hp : p = py_len a).
  { assert (Z.to_nat p <= length text)%nat.
    { destruct (Nat.le_gt_cases (Z.to_nat p) (length text)) as [|Hgt]; [assumption|].
      exfalso. apply (f_equal length) in Hsplit.
      subst a b. rewrite !length_app, length_take, length_drop in Hsplit.
      assert (0 < length sub)%nat by (destruct sub; [congruence | cbn; lia]).
      lia. }
    subst a. unfold py_len. rewrite length_take. lia. }
  clear Hocc. rewrite Hsplit in Henc.
  apply encode_utf8_app_inv in Henc as (ba & bmb & Ha & Hmb & ->).
  apply encode_utf8_app_inv in Hmb as (bm & bb & Hm & Hb & ->).
  exists (Facet (py_len ba) (py_len (ba ++ bm)) tg). split.
  { rewrite Hsplit. rewrite Hp at 1. rewrite slice_to_app_l.
    replace (p + py_len sub) with (py_len (a ++ sub)) by (rewrite py_len_app; lia).
    rewrite app_assoc, slice_to_app_l.
    rewrite encode_utf8_app, Ha, Hm. reflexivity. }
  cbn [tag byteStart byteEnd]. split; [reflexivity|].
  pose proof (encode_utf8_nonempty sub bm Hsub Hm).
  rewrite !py_len_app. unfold py_len in *. lia.
Qed.

Lemma hashtag_facets_found (chunk0 : str) (text_bytes : bytes) :
  encode_utf8 (chunk0 ++ hashtag_suffix) = Some text_bytes ->
  exists f1 f2 f3 f4,
    create_hashtag_facets (chunk0 ++ hashtag_suffix) = Some [f1; f2; f3; f4]
    /\ [tag f1; tag f2; tag f3; tag f4] = hashtags
    /\ Forall (fun f => 0 <= byteStart f < byteEnd f
                        /\ byteEnd f <= py_len text_bytes) [f1; f2; f3; f4].
Proof.
  intros Henc. unfold create_hashtag_facets. rewrite Henc. cbn [mbind option_bind].
  set (text := chunk0 ++ hashtag_suffix) in *.
  unfold hashtags. cbn [facet_loop].
  destruct (facet_step_found text text_bytes [] (py "f1")
              (chunk0 ++ [10; 10]) (py " #formula1 #memes #" ++ RACE_HASHTAG) Henc)
    as (f1 & -> & Ht1 & Hr1);
    [subst text; rewrite <- app_assoc; reflexivity|].
  cbn [mbind option_bind app].
  destruct (facet_step_found text text_bytes [f1] (py "formula1")
              (chunk0 ++ [10; 10] ++ py "#f1 ") (py " #memes #" ++ RACE_HASHTAG) Henc)
    as (f2 & -> & Ht2 & Hr2);
    [subst text; rewrite <- app_assoc; reflexivity|].
  cbn [mbind option_bind app].
  destruct (facet_step_found text text_bytes [f1; f2] (py "memes")
              (chunk0 ++ [10; 10] ++ py "#f1 #formula1 ") (py " #" ++ RACE_HASHTAG) Henc)
    as (f3 & -> & Ht3 & Hr3);
    [subst text; rewrite <- app_assoc; reflexivity|].
  cbn [mbind option_bind app].
  destruct (facet_step_found text text_bytes [f1; f2; f3] RACE_HASHTAG
              (chunk0 ++ [10; 10] ++ py "#f1 #formula1 #memes ") [] Henc)
    as (f4 & -> & Ht4 & Hr4);
    [subst text; rewrite <- app_assoc; reflexivity|].
  cbn [mbind option_bind app].
  exists f1, f2, f3, f4. split; [reflexivity|]. split.
  - now rewrite Ht1, Ht2, Ht3, Ht4.
  - repeat constructor; lia.
Qed.

(** A text that ends in the hashtag suffix and can be encoded gets one
    facet per hashtag, in the order of the hashtags, each with a byte range
    inside the encoded text that is not empty. *)
Theorem create_hashtag_facets_complete (chunk0 : str) (text_bytes : bytes) :
  encode_utf8 (chunk0 ++ hashtag_suffix) = Some text_bytes ->
  exists facets,
    create_hashtag_facets (chunk0 ++ hashtag_suffix) = Some facets
    /\ tag <$> facets = hashtags
    /\ Forall (fun f => 0 <= byteStart f < byteEnd f /\ byteEnd f <= py_len text_bytes) facets.
Proof.
  intros Henc.
  destruct (hashtag_facets_found chunk0 text_bytes Henc)
    as (f1 & f2 & f3 & f4 & Hrun & Htags & Hranges).
  exists [f1; f2; f3; f4]. split; [exact Hrun|]. split; [exact Htags | exact Hranges].
Qed.

Lemma create_hashtag_facets_complete_witness :
  encode_utf8 ([127950; 233; 32; 8364] ++ hashtag_suffix) = Some emoji_bytes
  /\ exists facets,
       create_hashtag_facets ([127950; 233; 32; 8364] ++ hashtag_suffix) = Some facets
       /\ tag <$> facets = hashtags
       /\ Forall (fun f => 0 <= byteStart f < byteEnd f /\ byteEnd f <= py_len emoji_bytes) facets.
Proof.
  assert (H : encode_utf8 ([127950; 233; 32; 8364] ++ hashtag_suffix)
              = Some emoji_bytes) by reflexivity.
  split; [exact H|].
  exact (create_hashtag_facets_complete [127950; 233; 32; 8364] emoji_bytes H).
Defined.

(** ** More on compress_video *)

Lemma crf_step_in_range (target_size : Z) (obs : encode_obs) (st st' : crf_state) :
  crf_in_range st -> min_crf st <= max_crf st ->
  crf_step target_size obs st = inl st' -> crf_in_range st'.
Proof.
  unfold crf_in_range. intros (Hlo & Hhi & Hcur) Hle. specialize (Hcur Hle).
  unfold crf_step. destruct obs as [|size|].
  - intros [= <-]. cbn [min_crf max_crf current_crf].
    repeat split; try lia.
    + apply Z.div_le_lower_bound; lia.
    + apply Z.div_le_upper_bound; lia.
  - destruct (size <=? target_size).
    + destruct (_ || _); [discriminate|]. intros [= <-].
      cbn [min_crf max_crf current_crf]. repeat split; try lia.
      * apply Z.div_le_lower_bound; lia.
      * apply Z.div_le_upper_bound; lia.
    + intros [= <-]. cbn [min_crf max_crf current_crf]. repeat split; try lia.
      * apply Z.div_le_lower_bound; lia.
      * apply Z.div_le_upper_bound; lia.
  - intros [= <-]. cbn [min_crf max_crf current_crf]. lia.
Qed.

Lemma crf_loop_true_sound (target_size : Z) (enc : nat -> Z -> encode_obs) :
  forall fuel n st,
    crf_in_range st ->
    crf_loop fuel target_size enc n st = Some true ->
    exists k crf size,
      enc k crf = Output size /\ size <= target_size /\ 18 <= crf <= 35.
Proof.
  induction fuel as [|fuel IH]; intros n st Hin Hrun; cbn [crf_loop] in Hrun.
  - destruct (min_crf st <=? max_crf st); discriminate.
  - destruct (Z.leb_spec (min_crf st) (max_crf st)) as [Hle|]; [|discriminate].
    destruct (crf_step target_size (enc n (current_crf st)) st) as [st'|b] eqn:Es.
    + apply (IH (S n) st'); [|exact Hrun].
      eapply crf_step_in_range; eassumption.
    + injection Hrun as ->. unfold crf_step in Es.
      destruct (enc n (current_crf st)) as [|size|] eqn:Eo; try discriminate.
      destruct (Z.leb_spec size target_size); [|discriminate].
      exists n, (current_crf st), size.
      split; [exact Eo|]. split; [assumption|]. now apply Hin.
Qed.

(** Success is sound: [compress_video] returns [True] only when the file was
    within the budget from the start or a pass, at a quality factor between
    18 and 35, left an output within the budget. *)
Theorem compress_video_true_sound (fuel : nat) (max_size_kb original_size : Z)
    (target_bitrate : option Z) (enc : nat -> Z -> encode_obs) :
  compress_video fuel max_size_kb original_size target_bitrate enc
  = Some (Return true) ->
  original_size <= max_size_kb * 1024
  \/ exists k crf size,
       enc k crf = Output size /\ size <= max_size_kb * 1024 /\ 18 <= crf <= 35.
Proof.
  unfold compress_video. destruct target_bitrate as [bitrate|]; [|discriminate].
  destruct (Z.leb_spec original_size (max_size_kb * 1024)); [now left|].
  destruct (crf_loop fuel (max_size_kb * 1024) enc 0 crf_init) as [[|]|] eqn:Er;
    try discriminate.
  intros _. right. eapply crf_loop_true_sound; [|exact Er].
  unfold crf_in_range, crf_init. cbn. lia.
Qed.

Lemma compress_video_true_sound_witness :
  compress_video 1 900 1000000 (Some 2000) (fun _ _ => Output 900000)
  = Some (Return true)
  /\ (1000000 <= 900 * 1024
      \/ exists k crf size,
           (fun (_ : nat) (_ : Z) => Output 900000) k crf = Output size
           /\ size <= 900 * 1024 /\ 18 <= crf <= 35).
Proof.
  assert (H : compress_video 1 900 1000000 (Some 2000) (fun _ _ => Output 900000)
              = Some (Return true)) by reflexivity.
  split; [exact H|].
  exact (compress_video_true_sound 1 900 1000000 (Some 2000) _ H).
Defined.

(** A pass whose output is over the budget moves the lower bound past the
    quality factor and goes on at the middle of the new range. *)
Lemma crf_loop_over_at (target_size : Z) (enc : nat -> Z -> encode_obs)
    (fuel n : nat) (lo hi cur lo' cur' size : Z) :
  enc n cur = Output size -> target_size < size ->
  lo <= hi -> lo' = cur + 1 -> cur' = (lo' + hi) / 2 ->
  crf_loop (S fuel) target_size enc n (CrfState lo hi cur)
  = crf_loop fuel target_size enc (S n) (CrfState lo' hi cur')
  /\ crf_passes (S fuel) target_size enc n (CrfState lo hi cur)
     = cur :: crf_passes fuel target_size enc (S n) (CrfState lo' hi cur').
Proof.
  intros Henc Hsz Hle -> ->. cbn [crf_loop crf_passes min_crf max_crf current_crf].
  apply Z.leb_le in Hle as ->. rewrite Henc. unfold crf_step.
  now replace (size <=? target_size) with false by (symmetry; apply Z.leb_gt; lia).
Qed.

(** When the file is over the budget and the outputs of the first to sixth
    pass, at the quality factors 18, 27, 31, 33, 34 and 35, are over the
    budget, these six passes are the passes [compress_video] runs, whatever
    ffmpeg would leave at another quality factor, and it returns [False].
    It does not return before the sixth pass. *)
Theorem compress_video_never_fits (fuel : nat)
    (max_size_kb original_size bitrate : Z) (enc : nat -> Z -> encode_obs) :
  max_size_kb * 1024 < original_size ->
  (forall (n : nat) crf,
      (n, crf) ∈ [(0%nat, 18); (1%nat, 27); (2%nat, 31); (3%nat, 33);
                  (4%nat, 34); (5%nat, 35)] ->
      exists size, enc n crf = Output size /\ max_size_kb * 1024 < size) ->
  ((6 <= fuel)%nat ->
   compress_video fuel max_size_kb original_size (Some bitrate) enc
   = Some (Return false)
   /\ crf_passes fuel (max_size_kb * 1024) enc 0 crf_init
      = [18; 27; 31; 33; 34; 35])
  /\ ((fuel < 6)%nat ->
      compress_video fuel max_size_kb original_size (Some bitrate) enc = None
      /\ crf_passes fuel (max_size_kb * 1024) enc 0 crf_init
         = take fuel [18; 27; 31; 33; 34; 35]).
Proof.
  intros Hbig Hover. unfold compress_video.
  replace (original_size <=? max_size_kb * 1024) with false
    by (symmetry; apply Z.leb_gt; lia).
  destruct (Hover 0%nat 18) as (s0 & H0 & Hs0); [repeat first [apply list_elem_of_here | apply list_elem_of_further]|].
  destruct (Hover 1%nat 27) as (s1 & H1 & Hs1); [repeat first [apply list_elem_of_here | apply list_elem_of_further]|].
  destruct (Hover 2%nat 31) as (s2 & H2 & Hs2); [repeat first [apply list_elem_of_here | apply list_elem_of_further]|].
  destruct (Hover 3%nat 33) as (s3 & H3 & Hs3); [repeat first [apply list_elem_of_here | apply list_elem_of_further]|].
  destruct (Hover 4%nat 34) as (s4 & H4 & Hs4); [repeat first [apply list_elem_of_here | apply list_elem_of_further]|].
  destruct (Hover 5%nat 35) as (s5 & H5 & Hs5); [repeat first [apply list_elem_of_here | apply list_elem_of_further]|].
  clear Hover. unfold crf_init.
  pose proof (fun fuel => crf_loop_over_at _ enc fuel 0 18 35 18 19 27 s0 H0 Hs0
                ltac:(lia) eq_refl eq_refl) as P0.
  pose proof (fun fuel => crf_loop_over_at _ enc fuel 1 19 35 27 28 31 s1 H1 Hs1
                ltac:(lia) eq_refl eq_refl) as P1.
  pose proof (fun fuel => crf_loop_over_at _ enc fuel 2 28 35 31 32 33 s2 H2 Hs2
                ltac:(lia) eq_refl eq_refl) as P2.
  pose proof (fun fuel => crf_loop_over_at _ enc fuel 3 32 35 33 34 34 s3 H3 Hs3
                ltac:(lia) eq_refl eq_refl) as P3.
  pose proof (fun fuel => crf_loop_over_at _ enc fuel 4 34 35 34 35 35 s4 H4 Hs4
                ltac:(lia) eq_refl eq_refl) as P4.
  pose proof (fun fuel => crf_loop_over_at _ enc fuel 5 35 35 35 36 35 s5 H5 Hs5
                ltac:(lia) eq_refl eq_refl) as P5.
  split; intros Hfuel.
  - do 6 (destruct fuel as [|fuel]; [lia|]). clear Hfuel.
    rewrite (proj1 (P0 _)), (proj1 (P1 _)), (proj1 (P2 _)), (proj1 (P3 _)),
      (proj1 (P4 _)), (proj1 (P5 _)).
    rewrite (proj2 (P0 _)), (proj2 (P1 _)), (proj2 (P2 _)), (proj2 (P3 _)),
      (proj2 (P4 _)), (proj2 (P5 _)).
    destruct fuel; split; reflexivity.
  - destruct fuel as [|fuel]; [split; reflexivity|].
    rewrite (proj1 (P0 _)), (proj2 (P0 _)).
    destruct fuel as [|fuel]; [split; reflexivity|].
    rewrite (proj1 (P1 _)), (proj2 (P1 _)).
    destruct fuel as [|fuel]; [split; reflexivity|].
    rewrite (proj1 (P2 _)), (proj2 (P2 _)).
    destruct fuel as [|fuel]; [split; reflexivity|].
    rewrite (proj1 (P3 _)), (proj2 (P3 _)).
    destruct fuel as [|fuel]; [split; reflexivity|].
    rewrite (proj1 (P4 _)), (proj2 (P4 _)).
    destruct fuel as [|fuel]; [split; reflexivity | lia].
Qed.

Lemma compress_video_never_fits_witness :
  900 * 1024 < 1000000
  /\ (forall (n : nat) crf,
         (n, crf) ∈ [(0%nat, 18); (1%nat, 27); (2%nat, 31); (3%nat, 33);
                     (4%nat, 34); (5%nat, 35)] ->
         exists size,
           (fun (_ : nat) (crf : Z) =>
              if crf <? 18 then Output 100 else Output 950000) n crf = Output size
           /\ 900 * 1024 < size)
  /\ (6 <= 6)%nat
  /\ compress_video 6 900 1000000 (Some 2000)
       (fun _ crf => if crf <? 18 then Output 100 else Output 950000)
     = Some (Return false)
  /\ crf_passes 6 (900 * 1024)
       (fun _ crf => if crf <? 18 then Output 100 else Output 950000) 0 crf_init
     = [18; 27; 31; 33; 34; 35].
Proof.
  assert (H1 : 900 * 1024 < 1000000) by lia.
  assert (H2 : forall (n : nat) crf,
             (n, crf) ∈ [(0%nat, 18); (1%nat, 27); (2%nat, 31); (3%nat, 33);
                         (4%nat, 34); (5%nat, 35)] ->
             exists size,
               (fun (_ : nat) (crf : Z) =>
                  if crf <? 18 then Output 100 else Output 950000) n crf = Output size
               /\ 900 * 1024 < size).
  { intros n crf Hin. exists 950000. split; [|lia].
    repeat (apply elem_of_cons in Hin as [[= -> ->]|Hin]; [reflexivity|]).
    now apply elem_of_nil in Hin. }
  assert (H3 : (6 <= 6)%nat) by lia.
  split; [exact H1|]. split; [exact H2|]. split; [exact H3|].
  exact (proj1 (compress_video_never_fits 6 900 1000000 2000 _ H1 H2) H3).
Defined.

Lemma crf_loop_bisects (target_size : Z) (enc : nat -> Z -> encode_obs) :
  (forall n crf, exists size, enc n crf = Output size) ->
  forall f fuel n st,
    crf_at_middle st -> crf_width st < 2 ^ Z.of_nat f -> (f <= fuel)%nat ->
    is_Some (crf_loop fuel target_size enc n st).
Proof.
  intros Henc. induction f as [|f IH]; intros fuel n st Hmid Hw Hfuel.
  - unfold crf_width in Hw. cbn in Hw.
    destruct fuel; cbn [crf_loop];
      replace (min_crf st <=? max_crf st) with false
        by (symmetry; apply Z.leb_gt; lia);
      now eexists.
  - destruct fuel as [|fuel]; [lia|]. cbn [crf_loop].
    destruct (Z.leb_spec (min_crf st) (max_crf st)) as [Hle|]; [|now eexists].
    destruct (Henc n (current_crf st)) as [size ->].
    rewrite Nat2Z.inj_succ, Z.pow_succ_r in Hw by lia.
    unfold crf_at_middle, crf_width in *. unfold crf_step.
    destruct (size <=? target_size).
    + destruct (_ || _); [now eexists|].
      apply IH; [reflexivity | | lia].
      cbn [min_crf max_crf current_crf]. rewrite Hmid.
      Z.div_mod_to_equations. lia.
    + apply IH; [reflexivity | | lia].
      cbn [min_crf max_crf current_crf]. rewrite Hmid.
      Z.div_mod_to_equations. lia.
Qed.

(** The search is a bisection: when every pass leaves an output file,
    [compress_video] returns after at most six passes. *)
Theorem compress_video_six_passes (fuel : nat)
    (max_size_kb original_size bitrate : Z) (enc : nat -> Z -> encode_obs) :
  (forall n crf, exists size, enc n crf = Output size) ->
  (6 <= fuel)%nat ->
  exists b,
    compress_video fuel max_size_kb original_size (Some bitrate) enc
    = Some (Return b).
Proof.
  intros Henc Hfuel. unfold compress_video.
  destruct (original_size <=? max_size_kb * 1024); [now eexists|].
  destruct fuel as [|fuel]; [lia|].
  unfold crf_init. cbn [crf_loop min_crf max_crf current_crf].
  replace (18 <=? 35) with true by reflexivity.
  destruct (Henc 0%nat 18) as [size ->]. unfold crf_step.
  cbn [min_crf max_crf current_crf].
  destruct (size <=? max_size_kb * 1024).
  - replace (18 =? 18) with true by reflexivity. cbn. now eexists.
  - destruct (crf_loop_bisects (max_size_kb * 1024) enc Henc 5 fuel 1
                (CrfState (18 + 1) 35 ((18 + 1 + 35) / 2)))
      as [b Hb]; [reflexivity | unfold crf_width; cbn; lia | lia |].
    rewrite Hb. now eexists.
Qed.

Lemma compress_video_six_passes_witness :
  (forall (n : nat) (crf : Z),
      exists size, (fun _ crf => Output (40000 * (60 - crf))) n crf = Output size)
  /\ (6 <= 6)%nat
  /\ exists b,
       compress_video 6 900 1000000 (Some 2000)
         (fun _ crf => Output (40000 * (60 - crf)))
       = Some (Return b).
Proof.
  assert (H1 : forall (n : nat) (crf : Z),
             exists size,
               (fun _ crf => Output (40000 * (60 - crf))) n crf = Output size)
    by (intros n crf; now eexists).
  assert (H2 : (6 <= 6)%nat) by lia.
  split; [exact H1|]. split; [exact H2|].
  exact (compress_video_six_passes 6 900 1000000 2000 _ H1 H2).
Defined.

(** ** More on compress_image *)

Section CompressImageSchedule.
Context `{Pillow}.

(** Along a chain of settings that all encode, the loop returns the output
    of the first setting that fits, and of the last one when none fits. *)
Lemma image_loop_chain_first (img : image) (max_size_kb : Z) :
  forall rest qs fuel,
    chain qs rest ->
    (forall qs', qs' ∈ qs :: rest -> is_Some (render img qs'.1 qs'.2)) ->
    (length rest < fuel)%nat ->
    exists (k : nat) out qs',
      (qs :: rest) !! k = Some qs'
      /\ render img qs'.1 qs'.2 = Some out
      /\ image_loop fuel img max_size_kb qs.1 qs.2 = Some (Return out)
      /\ (forall (j : nat) qj outj,
             (j < k)%nat -> (qs :: rest) !! j = Some qj ->
             render img qj.1 qj.2 = Some outj ->
             max_size_kb * 1024 < py_len outj)
      /\ (max_size_kb * 1024 < py_len out -> k = length rest).
Proof.
  induction rest as [|qs1 rest IH]; intros [q s] fuel Hchain Henc Hfuel;
    (destruct fuel as [|fuel]; [cbn in Hfuel; lia|]);
    rewrite image_loop_step;
    destruct (Henc (q, s) ltac:(left)) as [out Hout]; cbn [fst snd] in *;
    rewrite Hout.
  - cbn in Hchain. rewrite Hchain.
    exists 0%nat, out, (q, s). split; [reflexivity|]. split; [exact Hout|].
    split; [now destruct (py_len out <=? max_size_kb * 1024)|].
    split; [intros; lia | reflexivity].
  - destruct Hchain as (Hfloor & Hnext & Hchain). rewrite Hfloor, Hnext.
    destruct (Z.leb_spec (py_len out) (max_size_kb * 1024)) as [Hfit|Hover].
    + exists 0%nat, out, (q, s). split; [reflexivity|]. split; [exact Hout|].
      split; [reflexivity|]. split; [intros; lia | lia].
    + destruct (IH qs1 fuel Hchain) as (k & out' & qs' & Hk & Hr & Hrun & Hbefore & Hlast).
      * intros qs' Hin. apply Henc. now right.
      * cbn in Hfuel. lia.
      * exists (S k), out', qs'. split; [exact Hk|]. split; [exact Hr|].
        split; [exact Hrun|]. split.
        -- intros [|j] qj outj Hj Hqj Hrj.
           ++ cbn in Hqj. injection Hqj as <-. cbn [fst snd] in Hrj.
              rewrite Hout in Hrj. injection Hrj as <-. exact Hover.
           ++ apply (Hbefore j qj outj); [lia | exact Hqj | exact Hrj].
        -- intros Ho. cbn [length]. f_equal. now apply Hlast.
Qed.
End CompressImageSchedule.

(** On a decodable image that the encoder takes, [compress_image] writes
    the output of the first setting of its schedule (quality 95 down to 20
    in steps of 5 at full size, then quality 20 at the scales 0.75, 0.75^2,
    0.75^3 and 0.75^4) whose output is within the budget.  When no setting
    fits, it writes the output of the last one and the verdict is false. *)
Theorem compress_image_first_fit `{Pillow} (fs : gmap string bytes)
    (image_path : string) (max_size_kb : Z) (fuel : nat) (img : image) :
  (20 <= fuel)%nat ->
  fs !! image_path ≫= Image_open = Some img ->
  encodable (normalize img) ->
  exists (k : nat) q s out,
    settings !! k = Some (q, s)
    /\ render (normalize img) q s = Some out
    /\ compress_image fuel fs image_path max_size_kb
       = Some (Return (bool_decide (py_len out <= max_size_kb * 1024),
                       <[image_path := out]> fs))
    /\ (forall (j : nat) q' s' out',
           (j < k)%nat -> settings !! j = Some (q', s') ->
           render (normalize img) q' s' = Some out' ->
           max_size_kb * 1024 < py_len out')
    /\ (max_size_kb * 1024 < py_len out -> k = 19%nat).
Proof.
  intros Hfuel Himg Henc.
  destruct (image_loop_chain_first (normalize img) max_size_kb (tail settings)
              (95, 1%Q) fuel settings_chain)
    as (k & out & [q s] & Hk & Hr & Hrun & Hbefore & Hlast).
  - intros [q s] Hin. now apply Henc.
  - cbn. lia.
  - exists k, q, s, out. split; [exact Hk|]. split; [exact Hr|].
    split; [unfold compress_image; rewrite Himg; cbn [fst snd] in Hrun;
            now rewrite Hrun|].
    split; [|exact Hlast].
    intros j q' s' out' Hj Hqj Hrj. exact (Hbefore j (q', s') out' Hj Hqj Hrj).
Qed.

Lemma compress_image_first_fit_witness :
  (20 <= 20)%nat
  /\ sample_files !! "rgba.png"%string ≫= Codec.open
     = Some ("RGBA"%string, (100, 100))
  /\ encodable (H:=Codec.pillow) ("RGB"%string, (100, 100))
  /\ exists (k : nat) q s out,
       settings !! k = Some (q, s)
       /\ render (H:=Codec.pillow) ("RGB"%string, (100, 100)) q s = Some out
       /\ compress_image (H:=Codec.pillow) 20 sample_files "rgba.png" 1
          = Some (Return (bool_decide (py_len out <= 1 * 1024),
                          <["rgba.png"%string := out]> sample_files)).
Proof.
  assert (H1 : (20 <= 20)%nat) by lia.
  assert (H2 : sample_files !! "rgba.png"%string ≫= Codec.open
               = Some ("RGBA"%string, (100, 100))) by reflexivity.
  assert (H3 : encodable (H:=Codec.pillow) ("RGB"%string, (100, 100)))
    by (apply codec_encodable; set_solver).
  split; [exact H1|]. split; [exact H2|]. split; [exact H3|].
  destruct (compress_image_first_fit (H:=Codec.pillow) sample_files "rgba.png" 1 20
              ("RGBA"%string, (100, 100)) H1 H2 H3)
    as (k & q & s & out & Hk & Hr & Hrun & _).
  exists k, q, s, out. split; [exact Hk|]. split; [exact Hr | exact Hrun].
Defined.

(** ** login_with_retry *)

Lemma login_loop_spec (login : nat -> bool) :
  forall n start sleeps,
    exists k : nat,
      (k <= n)%nat
      /\ (forall a, (a < k)%nat -> login (start + a)%nat = false)
      /\ login_loop login (seq start n) sleeps
         = (bool_decide (k < n)%nat,
            sleeps ++ ((fun a => 2 ^ Z.of_nat a) <$> seq start k))
      /\ ((k < n)%nat -> login (start + k)%nat = true).
Proof.
  induction n as [|n IH]; intros start sleeps.
  - exists 0%nat. cbn. rewrite app_nil_r. repeat split; try (intros; lia).
  - cbn [seq login_loop]. destruct (login start) eqn:E.
    + exists 0%nat. cbn. rewrite app_nil_r, Nat.add_0_r.
      repeat split; try (intros; lia). now intros _.
    + destruct (IH (S start) (sleeps ++ [2 ^ Z.of_nat start]))
        as (k & Hk & Hfail & Hrun & Hok).
      exists (S k). split; [lia|]. split.
      * intros [|a] Ha; [now rewrite Nat.add_0_r|].
        replace (start + S a)%nat with (S start + a)%nat by lia.
        apply Hfail. lia.
      * split.
        -- rewrite Hrun. cbn [seq fmap list_fmap].
           rewrite <- app_assoc. cbn [app]. f_equal.
           apply bool_decide_ext. lia.
        -- intros Hlt. replace (start + S k)%nat with (S start + k)%nat by lia.
           apply Hok. lia.
Qed.

Lemma py_sum_powers (k : nat) :
  py_sum ((fun a => 2 ^ Z.of_nat a) <$> seq 0 k) = 2 ^ Z.of_nat k - 1.
Proof.
  induction k as [|k IH]; [reflexivity|].
  rewrite seq_S, fmap_app. unfold py_sum in *. rewrite foldr_app.
  cbn [fmap list_fmap foldr Nat.add].
  assert (Hshift : forall (l : list Z) (z : Z), foldr Z.add z l = foldr Z.add 0 l + z).
  { induction l as [|x l IHl]; intros z; cbn [foldr]; [lia|]. rewrite IHl. lia. }
  rewrite Hshift, IH, Nat2Z.inj_succ, Z.pow_succ_r by lia. lia.
Qed.

(** [login_with_retry] succeeds exactly when one of the first
    [max_attempts] attempts logs in.  Before that attempt, and after every
    attempt when none logs in, it has slept 1, 2, 4, ... seconds, one sleep
    per failed attempt, the last failed attempt included: [2^k - 1] seconds
    for [k] failed attempts. *)
Theorem login_with_retry_backoff (login : nat -> bool) (max_attempts : nat) :
  let ok := (login_with_retry login max_attempts).1 in
  let sleeps := (login_with_retry login max_attempts).2 in
  (ok = true <-> exists a, (a < max_attempts)%nat /\ login a = true)
  /\ (length sleeps <= max_attempts)%nat
  /\ sleeps = (fun a => 2 ^ Z.of_nat a) <$> seq 0 (length sleeps)
  /\ (forall a, (a < length sleeps)%nat -> login a = false)
  /\ (ok = true -> login (length sleeps) = true)
  /\ (ok = false -> length sleeps = max_attempts)
  /\ py_sum sleeps = 2 ^ Z.of_nat (length sleeps) - 1.
Proof.
  cbv zeta. unfold login_with_retry.
  destruct (login_loop_spec login max_attempts 0 []) as (k & Hk & Hfail & Hrun & Hok).
  rewrite Hrun. cbn [fst snd app].
  assert (Hlen : length ((fun a => 2 ^ Z.of_nat a) <$> seq 0 k) = k)
    by now rewrite length_fmap, length_seq.
  rewrite Hlen. cbn [Nat.add] in *.
  split.
  { rewrite bool_decide_eq_true. split.
    - intros Hlt. exists k. split; [exact Hlt | now apply Hok].
    - intros (a & Ha & Hlogin).
      destruct (Nat.lt_ge_cases k max_attempts) as [|Hge]; [assumption|].
      rewrite Hfail in Hlogin by lia. discriminate. }
  split; [exact Hk|]. split; [reflexivity|]. split; [exact Hfail|].
  split; [rewrite bool_decide_eq_true; exact Hok|].
  split; [rewrite bool_decide_eq_false; lia|].
  apply py_sum_powers.
Qed.

(** ** More on create_bluesky_thread *)
Lemma created_record_result (st : thread) (p : post) (r : post_result) :
  created (record_result st p r)
  = created st ++ match r with Created uri => [(p, uri)] | _ => [] end.
Proof.
  unfold created. rewrite record_result_sent, omap_app.
  destruct r; cbn; now rewrite ?app_nil_r.
Qed.

Lemma last_uri_cons (prev : string) (pu : post * string)
    (posts : list (post * string)) :
  last_uri prev (pu :: posts) = last_uri pu.2 posts.
Proof.
  unfold last_uri. destruct posts as [|p0 posts]; [reflexivity|].
  change (last (pu :: p0 :: posts)) with (last (p0 :: posts)).
  destruct (last (p0 :: posts)) eqn:El; [reflexivity|].
  now apply last_None in El.
Qed.

Lemma chained_snoc (root : string) (p : post) (uri : string) :
  forall posts prev,
    chained root prev (posts ++ [(p, uri)])
    <-> chained root prev posts
        /\ post_reply_to p
           = Some (ReplyRef root (last_segment root) (last_uri prev posts)
                     (last_segment (last_uri prev posts))).
Proof.
  induction posts as [|pu posts IH]; intros prev.
  - cbn. tauto.
  - cbn [app chained]. rewrite IH, last_uri_cons. tauto.
Qed.

Lemma truthy_some (u : string) : u <> EmptyString -> truthy (Some u) = true.
Proof. intros Hu. cbn. now destruct u. Qed.

(** In such a thread the reply reference is none before the first post and
    names the root and the last post after it. *)
Lemma reply_ref_of_ok (st : thread) :
  thread_ok st ->
  reply_ref_of st
  = match created st with
    | [] => None
    | pu :: rest =>
        Some (ReplyRef pu.2 (last_segment pu.2) (last_uri pu.2 rest)
                (last_segment (last_uri pu.2 rest)))
    end.
Proof.
  intros (Hroot & Hparent & Hne & _ & _). unfold reply_ref_of.
  rewrite Hroot, Hparent. destruct (created st) as [|pu rest] eqn:Ec; [reflexivity|].
  cbn [head fmap option_fmap option_map].
  assert (Hl : snd <$> last (pu :: rest) = Some (last_uri pu.2 rest)).
  { rewrite <- (last_uri_cons EmptyString). unfold last_uri.
    destruct (last (pu :: rest)) eqn:El; [reflexivity | now apply last_None in El]. }
  rewrite Hl.
  assert (Hu0 : pu.2 <> EmptyString) by now inversion Hne.
  assert (Hul : last_uri pu.2 rest <> EmptyString).
  { unfold last_uri. destruct (last rest) as [pl|] eqn:El; [|exact Hu0].
    apply last_Some in El as [l' ->]. inversion Hne as [|? ? _ Hrest]; subst.
    apply Forall_app in Hrest as [_ Hpl]. now inversion Hpl. }
  now rewrite !truthy_some.
Qed.

Lemma thread_ok_record (st : thread) (p : post) (r : post_result) :
  thread_ok st ->
  (forall uri, r = Created uri -> uri <> EmptyString) ->
  is_video (post_embed p) = false ->
  post_reply_to p = reply_ref_of st ->
  thread_ok (record_result st p r).
Proof.
  intros Hok Hr Himg Hreply.
  pose proof (reply_ref_of_ok st Hok) as Href.
  destruct Hok as (Hroot & Hparent & Hne & Hnv & Hchain).
  unfold thread_ok. rewrite created_record_result.
  destruct r as [uri| |];
    [|rewrite app_nil_r; now repeat split..].
  specialize (Hr uri eq_refl).
  cbn [record_result root_uri parent_uri].
  destruct (created st) as [|pu rest] eqn:Ec.
  - rewrite Hroot. cbn. repeat split; try (repeat constructor; assumption).
    now rewrite Hreply, Href.
  - rewrite Hroot. cbn [head fmap option_fmap option_map app].
    rewrite truthy_some by now inversion Hne.
    split; [reflexivity|]. split.
    { change (pu :: rest ++ [(p, uri)]) with ((pu :: rest) ++ [(p, uri)]).
      now rewrite last_snoc. }
    split; [apply (Forall_app _ (pu :: rest)); split; [exact Hne | now repeat constructor]|].
    split; [apply (Forall_app _ (pu :: rest)); split; [exact Hnv | now repeat constructor]|].
    cbn [linear_chain] in *. split; [apply Hchain|].
    apply chained_snoc. split; [apply Hchain|]. now rewrite Hreply, Href.
Qed.

Lemma image_posts_thread_ok (w : world) (formatted_text chunk0 : str)
    (facets : list facet) (image_paths : list string) :
  (forall i uri, send_post_env w i = Created uri -> uri <> EmptyString) ->
  forall starts st,
    thread_ok st ->
    thread_ok (image_posts w formatted_text chunk0 facets image_paths starts st).2.
Proof.
  intros Huri. induction starts as [|i starts IH]; intros st Hst;
    cbn [image_posts]; [exact Hst|].
  destruct (upload_chunk w chunk0 (take 4 (drop i image_paths)) []) as [[|im ims]|];
    [now apply IH | | exact Hst].
  apply IH. apply thread_ok_record; [exact Hst | apply Huri | reflexivity|].
  cbn [post_reply_to]. unfold reply_ref_of.
  now destruct (truthy (root_uri st) && truthy (parent_uri st)).
Qed.

Lemma video_posts_created (w : world) (formatted_text chunk0 : str)
    (facets : list facet) :
  forall video_paths st,
    exists videos,
      created (video_posts w formatted_text chunk0 facets video_paths st).2
      = created st ++ videos
      /\ Forall (fun pu : post * string => is_video (post_embed pu.1) = true) videos.
Proof.
  induction video_paths as [|v video_paths IH]; intros st; cbn [video_posts].
  - exists []. now rewrite app_nil_r.
  - destruct (if endswith v ".gif" then _ else _) as [video_path fs].
    set (st1 := Thread (root_uri st) (parent_uri st) (sent st) fs).
    assert (Hc1 : created st1 = created st) by reflexivity.
    destruct (video_env w video_path).
    + destruct (IH st1) as (videos & Hv & Hall). exists videos. now rewrite Hv, Hc1.
    + set (p := Post _ _ (Video video_path) None).
      assert (Hrec : forall r, exists videos,
                 created (record_result st1 p r) = created st ++ videos
                 /\ Forall (fun pu : post * string =>
                              is_video (post_embed pu.1) = true) videos).
      { intros r. rewrite created_record_result, Hc1. eexists. split; [reflexivity|].
        destruct r; repeat constructor. }
      destruct (send_video_env w video_path) eqn:Er.
      * destruct (IH (record_result st1 p (Created uri))) as (videos & Hv & Hall).
        destruct (Hrec (Created uri)) as (v1 & Hv1 & Hall1).
        exists (v1 ++ videos). rewrite Hv, Hv1, app_assoc. split; [reflexivity|].
        now apply Forall_app.
      * destruct (IH (record_result st1 p Falsy)) as (videos & Hv & Hall).
        destruct (Hrec Falsy) as (v1 & Hv1 & Hall1).
        exists (v1 ++ videos). rewrite Hv, Hv1, app_assoc. split; [reflexivity|].
        now apply Forall_app.
      * apply Hrec.
    + exists []. now rewrite app_nil_r.
Qed.

Lemma filter_images_app (images videos : list (post * string)) :
  Forall (fun pu : post * string => is_video (post_embed pu.1) = false) images ->
  Forall (fun pu : post * string => is_video (post_embed pu.1) = true) videos ->
  filter (fun pu : post * string => is_video (post_embed pu.1) = false)
    (images ++ videos) = images.
Proof.
  intros Hi Hv. rewrite filter_app.
  replace (filter _ videos) with (@nil (post * string)).
  - rewrite app_nil_r. induction Hi as [|pu l Hpu _ IH]; [reflexivity|].
    rewrite filter_cons_True by exact Hpu. now rewrite IH.
  - symmetry. induction Hv as [|pu l Hpu _ IH]; [reflexivity|].
    rewrite filter_cons_False by (rewrite Hpu; discriminate). exact IH.
Qed.

Lemma video_posts_root (w : world) (formatted_text chunk0 : str)
    (facets : list facet) :
  forall video_paths st,
    truthy (root_uri st) = true ->
    root_uri (video_posts w formatted_text chunk0 facets video_paths st).2
    = root_uri st.
Proof.
  induction video_paths as [|v video_paths IH]; intros st Hroot;
    cbn [video_posts]; [reflexivity|].
  destruct (if endswith v ".gif" then _ else _) as [video_path fs].
  set (st1 := Thread (root_uri st) (parent_uri st) (sent st) fs).
  destruct (video_env w video_path); [now rewrite IH | | reflexivity].
  set (p := Post _ _ (Video video_path) None).
  assert (Hrec : forall r, root_uri (record_result st1 p r) = root_uri st)
    by (intros r; destruct r; cbn; now rewrite ?Hroot).
  destruct (send_video_env w video_path);
    [rewrite IH | rewrite IH | ]; rewrite ?Hrec; auto.
Qed.

(** The image posts of a publish form one thread, whatever the uploads and
    sends do: the first post created is no reply and stays the root, and
    every later one replies to it as root and to the post created just
    before it as parent.  Posts come back with a uri that is not empty. *)
Theorem image_posts_linear_chain (w : world) (title author : str)
    (media_paths : list string) (scratch : gset string) :
  (forall i uri, send_post_env w i = Created uri -> uri <> EmptyString) ->
  let st := (create_bluesky_thread w title media_paths author scratch).2 in
  linear_chain (created_image_posts st)
  /\ (forall pu rest,
         created_image_posts st = pu :: rest -> root_uri st = Some pu.2).
Proof.
  intros Huri. cbv zeta. unfold create_bluesky_thread, created_image_posts.
  assert (Hinit : thread_ok (Thread None None [] scratch))
    by (repeat split; constructor).
  destruct (split_into_thread _ _ _) as [[|chunk0 chunks]|];
    try (split; [exact I | discriminate]).
  destruct (create_hashtag_facets _) as [facets|]; [|split; [exact I | discriminate]].
  match goal with |- context [image_posts ?w ?a ?b ?c ?d ?e ?f] =>
    pose proof (image_posts_thread_ok w a b c d Huri e f Hinit) as Hi;
    destruct (image_posts w a b c d e f) as [[|] sti] end;
    cbn [snd] in Hi; destruct Hi as (Hroot & _ & Hne & Hnv & Hchain).
  - assert (Hkeep : forall fl stv,
               video_posts w (chunk0 ++ hashtag_suffix) chunk0 facets
                 (filter (fun p => endswith_any (lower p) video_suffixes = true)
                    media_paths) sti = (fl, stv) ->
               linear_chain
                 (filter (fun pu : post * string =>
                            is_video (post_embed pu.1) = false) (created stv))
               /\ (forall pu rest,
                      filter (fun pu : post * string =>
                                is_video (post_embed pu.1) = false) (created stv)
                      = pu :: rest -> root_uri stv = Some pu.2)).
    { intros fl stv Hv.
      destruct (video_posts_created w (chunk0 ++ hashtag_suffix) chunk0 facets
                  (filter (fun p => endswith_any (lower p) video_suffixes = true)
                     media_paths) sti) as (videos & Hc & Hall).
      rewrite Hv in Hc. cbn [snd] in Hc.
      rewrite Hc, filter_images_app by assumption.
      split; [exact Hchain|]. intros pu rest Hcr.
      assert (Hr : root_uri sti = Some pu.2) by now rewrite Hroot, Hcr.
      replace stv with
        (video_posts w (chunk0 ++ hashtag_suffix) chunk0 facets
           (filter (fun p => endswith_any (lower p) video_suffixes = true)
              media_paths) sti).2 by now rewrite Hv.
      rewrite video_posts_root; [exact Hr|].
      rewrite Hr. apply truthy_some. rewrite Hcr in Hne. now inversion Hne. }
    destruct (video_posts _ _ _ _ _ sti) as [[|] stv] eqn:Ev;
      cbn [snd]; exact (Hkeep _ _ eq_refl).
  - cbn [snd]. rewrite <- (app_nil_r (created sti)), filter_images_app;
      [|exact Hnv | constructor].
    split; [exact Hchain|]. intros pu rest Hcr. now rewrite Hroot, Hcr.
Qed.

Lemma all_ok_uris (i : nat) (uri : string) :
  send_post_env all_ok i = Created uri -> uri <> EmptyString.
Proof. intros [= <-]. discriminate. Qed.

Lemma image_posts_linear_chain_witness :
  (forall i uri, send_post_env all_ok i = Created uri -> uri <> EmptyString)
  /\ linear_chain
       (created_image_posts
          (create_bluesky_thread all_ok (py "Nice pass!") five_images (py "alice")
             (list_to_set five_images)).2).
Proof.
  split; [exact all_ok_uris|].
  exact (proj1 (image_posts_linear_chain all_ok (py "Nice pass!") (py "alice")
                  five_images (list_to_set five_images) all_ok_uris)).
Defined.

Lemma upload_chunk_length (w : world) (chunk0 : str) :
  forall chunk acc images,
    upload_chunk w chunk0 chunk acc = Some images ->
    (length images <= length acc + length chunk)%nat.
Proof.
  induction chunk as [|media_path chunk IH]; intros acc images; cbn [upload_chunk].
  - intros [= <-]. lia.
  - destruct (image_env w media_path); try discriminate; intros Hrun;
      apply IH in Hrun; rewrite ?length_app in Hrun; cbn [length] in *; lia.
Qed.

Lemma image_posts_batches (w : world) (formatted_text chunk0 : str)
    (facets : list facet) (image_paths : list string) :
  forall starts st,
    Forall batch_ok (sent st) ->
    let st' := (image_posts w formatted_text chunk0 facets image_paths starts st).2 in
    Forall batch_ok (sent st')
    /\ (length (sent st') <= length (sent st) + length starts)%nat.
Proof.
  induction starts as [|i starts IH]; intros st Hst; cbn [image_posts length];
    [split; [exact Hst | cbn; lia]|].
  destruct (upload_chunk w chunk0 (take 4 (drop i image_paths)) [])
    as [[|im ims]|] eqn:Eu.
  - destruct (IH st Hst) as [Hb Hl]. split; [exact Hb | cbn zeta in Hl; lia].
  - apply upload_chunk_length in Eu. rewrite length_take in Eu. cbn [length] in Eu.
    match goal with |- context [record_result st ?p ?r] =>
      destruct (IH (record_result st p r)) as [Hb Hl] end.
    + rewrite record_result_sent. apply Forall_app. split; [exact Hst|].
      constructor; [|constructor]. intros _. cbn. lia.
    + split; [exact Hb|]. cbn zeta in Hl.
      rewrite record_result_sent, length_app in Hl. cbn [length] in Hl. lia.
  - split; [exact Hst | cbn; lia].
Qed.

Lemma video_posts_batches (w : world) (formatted_text chunk0 : str)
    (facets : list facet) :
  forall video_paths st,
    let st' := (video_posts w formatted_text chunk0 facets video_paths st).2 in
    (Forall batch_ok (sent st) -> Forall batch_ok (sent st'))
    /\ image_sends st' = image_sends st.
Proof.
  induction video_paths as [|v video_paths IH]; intros st; cbn [video_posts];
    [now split|].
  destruct (if endswith v ".gif" then _ else _) as [video_path fs].
  set (st1 := Thread (root_uri st) (parent_uri st) (sent st) fs).
  destruct (video_env w video_path); [apply (IH st1) | | now split].
  set (p := Post _ _ (Video video_path) None).
  assert (Hrec : forall r,
             (Forall batch_ok (sent st) -> Forall batch_ok (sent (record_result st1 p r)))
             /\ image_sends (record_result st1 p r) = image_sends st).
  { intros r. unfold image_sends. rewrite record_result_sent. split.
    - intros Hst. apply Forall_app. split; [exact Hst|].
      constructor; [|constructor]. intros Hv. discriminate Hv.
    - rewrite filter_app, filter_cons_False by (cbn; discriminate).
      now rewrite filter_nil, app_nil_r. }
  destruct (send_video_env w video_path) eqn:Er.
  - destruct (IH (record_result st1 p (Created uri))) as [Hb He].
    destruct (Hrec (Created uri)) as [Hb1 He1]. cbn zeta in *.
    split; [auto | now rewrite He, He1].
  - destruct (IH (record_result st1 p Falsy)) as [Hb He].
    destruct (Hrec Falsy) as [Hb1 He1]. cbn zeta in *.
    split; [auto | now rewrite He, He1].
  - apply Hrec.
Qed.

(** Every post with images embeds at least one and at most four of them,
    and a publish sends at most one such post for every four image files,
    rounded up. *)
Theorem image_batches_bounded (w : world) (title author : str)
    (media_paths : list string) (scratch : gset string) :
  let st := (create_bluesky_thread w title media_paths author scratch).2 in
  let image_paths :=
    filter (fun p => endswith_any (lower p) image_suffixes = true) media_paths in
  Forall batch_ok (sent st)
  /\ (length (image_sends st) <= (length image_paths + 3) / 4)%nat.
Proof.
  cbv zeta. unfold create_bluesky_thread.
  destruct (split_into_thread _ _ _) as [[|chunk0 chunks]|];
    try (split; [constructor | cbn; lia]).
  destruct (create_hashtag_facets _) as [facets|]; [|split; [constructor | cbn; lia]].
  set (image_paths := filter _ media_paths).
  destruct (image_posts_batches w (chunk0 ++ hashtag_suffix) chunk0 facets image_paths
              (batch_starts (length image_paths)) (Thread None None [] scratch)
              (Forall_nil_2 _)) as [Hb Hl].
  cbn zeta in Hb, Hl. cbn [sent length] in Hl.
  unfold batch_starts in Hl. rewrite length_fmap, length_seq in Hl.
  assert (Hcount : forall st' : thread,
             (length (sent st') <= (length image_paths + 3) / 4)%nat ->
             (length (image_sends st') <= (length image_paths + 3) / 4)%nat).
  { intros st' Hs. unfold image_sends.
    pose proof (length_filter (fun pr : post * post_result =>
                                 is_video (post_embed pr.1) = false) (sent st')).
    lia. }
  destruct (image_posts _ _ _ _ _ _ _) as [[|] sti]; cbn [snd] in *.
  - match goal with |- context [video_posts ?w ?a ?b ?c ?d ?e] =>
      destruct (video_posts_batches w a b c d e) as [Hvb Hve];
      destruct (video_posts w a b c d e) as [[|] stv] end;
      cbn zeta in *; cbn [snd] in *;
      (split; [now apply Hvb | rewrite Hve; now apply Hcount]).
  - split; [exact Hb | now apply Hcount].
Qed.

Lemma split_loop_head (limit : Z) :
  forall fuel remaining first acc chunks,
    split_loop fuel limit remaining (first :: acc) = Some chunks ->
    exists later, chunks = first :: later.
Proof.
  induction fuel as [|fuel IH]; intros remaining first acc chunks Hrun;
    destruct remaining as [|c r]; cbn [split_loop] in Hrun;
    try (injection Hrun as <-; now eexists).
  - destruct (py_len (c :: r) <=? limit); [|discriminate].
    injection Hrun as <-. now eexists.
  - destruct (py_len (c :: r) <=? limit).
    + injection Hrun as <-. now eexists.
    + exact (IH _ _ _ _ Hrun).
Qed.

(** With the limit in use and a pass per character the split returns, and
    the first chunk is the first 266 characters of the text. *)
Lemma split_default_head (text : str) :
  exists later,
    split_into_thread (length text) text default_limit
    = Some (take 266 text :: later).
Proof.
  unfold split_into_thread, default_limit, first_post_limit.
  replace (300 - py_len hashtag_section - 2) with 266 by reflexivity.
  destruct (Z.leb_spec (py_len text) 266) as [Hle|Hgt].
  - exists []. rewrite take_ge by (unfold py_len in Hle; lia). reflexivity.
  - assert (Hs : slice_to text 266 = take 266 text).
    { unfold slice_to, slice_index. cbn [Z.ltb Z.compare].
      f_equal. unfold py_len in *. lia. }
    rewrite Hs.
    destruct (split_loop_total 300 ltac:(lia) (length text) (slice_from text 266)
                [take 266 text]) as [chunks Hrun].
    { unfold slice_from. rewrite length_drop. lia. }
    rewrite Hrun. destruct (split_loop_head _ _ _ _ _ _ Hrun) as [later ->].
    now exists later.
Qed.

Lemma image_posts_normal (w : world) (formatted_text chunk0 : str)
    (facets : list facet) (image_paths : list string) :
  (forall p, image_env w p <> ImageAbort) ->
  forall starts st,
    (image_posts w formatted_text chunk0 facets image_paths starts st).1 = Normal.
Proof.
  intros Hno.
  assert (Hup : forall chunk acc, is_Some (upload_chunk w chunk0 chunk acc)).
  { induction chunk as [|media_path chunk IH]; intros acc; cbn [upload_chunk];
      [now eexists|].
    pose proof (Hno media_path). destruct (image_env w media_path);
      try apply IH. contradiction. }
  induction starts as [|i starts IH]; intros st; cbn [image_posts]; [reflexivity|].
  destruct (Hup (take 4 (drop i image_paths)) []) as [images ->].
  destruct images; apply IH.
Qed.

Lemma video_posts_normal (w : world) (formatted_text chunk0 : str)
    (facets : list facet) :
  (forall p, video_env w p <> VideoAbort) ->
  (forall p, send_video_env w p <> SendRaised) ->
  forall video_paths st,
    (video_posts w formatted_text chunk0 facets video_paths st).1 = Normal.
Proof.
  intros Hno Hsend. induction video_paths as [|v video_paths IH]; intros st;
    cbn [video_posts]; [reflexivity|].
  destruct (if endswith v ".gif" then _ else _) as [video_path fs].
  pose proof (Hno video_path). pose proof (Hsend video_path).
  destruct (video_env w video_path); [apply IH | | contradiction].
  destruct (send_video_env w video_path); [apply IH | apply IH | contradiction].
Qed.

(** [create_bluesky_thread] returns [True] whenever the title and author can
    be encoded and no exception reaches its outer handler, whether or not
    any upload or post succeeded. *)
Theorem create_bluesky_thread_reports_success (w : world) (title author : str)
    (media_paths : list string) (scratch : gset string) (quoted_bytes : bytes) :
  encode_utf8 ([34] ++ title ++ [34] ++ [10; 10] ++ py "- u/" ++ author)
  = Some quoted_bytes ->
  (forall p, image_env w p <> ImageAbort) ->
  (forall p, video_env w p <> VideoAbort) ->
  (forall p, send_video_env w p <> SendRaised) ->
  (create_bluesky_thread w title media_paths author scratch).1 = true.
Proof.
  intros Henc Hi Hv Hs. unfold create_bluesky_thread.
  set (quoted_text := [34] ++ title ++ [34] ++ [10; 10] ++ py "- u/" ++ author) in *.
  destruct (split_default_head quoted_text) as [later ->].
  destruct (encode_utf8_take quoted_text quoted_bytes 266 Henc) as [b0 Hb0].
  assert (Hfmt : is_Some (encode_utf8 (take 266 quoted_text ++ hashtag_suffix))).
  { rewrite encode_utf8_app, Hb0.
    replace (encode_utf8 hashtag_suffix)
      with (Some (hashtag_suffix : bytes)) by reflexivity.
    now eexists. }
  destruct Hfmt as [fb Hfb].
  destruct (hashtag_facets_found _ _ Hfb) as (f1 & f2 & f3 & f4 & -> & _).
  match goal with |- context [image_posts ?w ?a ?b ?c ?d ?e ?f] =>
    pose proof (image_posts_normal w a b c d Hi e f) as Hin;
    destruct (image_posts w a b c d e f) as [fl sti] end.
  cbn [fst] in Hin. subst fl.
  match goal with |- context [video_posts ?w ?a ?b ?c ?d ?e] =>
    pose proof (video_posts_normal w a b c Hv Hs d e) as Hvn;
    destruct (video_posts w a b c d e) as [fl stv] end.
  cbn [fst] in Hvn. now subst fl.
Qed.

Lemma create_bluesky_thread_reports_success_witness :
  encode_utf8 ([34] ++ py "Nice pass!" ++ [34] ++ [10; 10] ++ py "- u/" ++ py "alice")
  = Some ([34] ++ py "Nice pass!" ++ [34] ++ [10; 10] ++ py "- u/" ++ py "alice")
  /\ (forall p, image_env nothing_posted p <> ImageAbort)
  /\ (forall p, video_env nothing_posted p <> VideoAbort)
  /\ (forall p, send_video_env nothing_posted p <> SendRaised)
  /\ (create_bluesky_thread nothing_posted (py "Nice pass!")
        ["temp_abc_0.jpg"; "temp_abc_1.mp4"]%string (py "alice")
        (list_to_set ["temp_abc_0.jpg"; "temp_abc_1.mp4"]%string)).1 = true.
Proof.
  assert (H1 : encode_utf8 ([34] ++ py "Nice pass!" ++ [34] ++ [10; 10]
                            ++ py "- u/" ++ py "alice")
               = Some ([34] ++ py "Nice pass!" ++ [34] ++ [10; 10]
                       ++ py "- u/" ++ py "alice")) by reflexivity.
  assert (H2 : forall p, image_env nothing_posted p <> ImageAbort) by discriminate.
  assert (H3 : forall p, video_env nothing_posted p <> VideoAbort) by discriminate.
  assert (H4 : forall p, send_video_env nothing_posted p <> SendRaised) by discriminate.
  split; [exact H1|]. split; [exact H2|]. split; [exact H3|]. split; [exact H4|].
  exact (create_bluesky_thread_reports_success nothing_posted (py "Nice pass!")
           (py "alice") _ _ _ H1 H2 H3 H4).
Defined.

(** ** check_and_post *)

Lemma published_snoc (st : ledger) (id : string) (ok : bool) (ps : gset string)
    (sv : list (list string)) :
  published (Ledger ps sv (threads st ++ [(id, ok)]))
  = published st ++ (if ok then [id] else []).
Proof.
  unfold published. cbn [threads]. rewrite filter_app, fmap_app.
  destruct ok.
  - now rewrite filter_cons_True by reflexivity.
  - rewrite filter_cons_False by (cbn; discriminate). reflexivity.
Qed.

Lemma take_snoc_le {A : Type} (l : list A) (x : A) (m : nat) :
  (m <= length l)%nat -> take m (l ++ [x]) = take m l.
Proof. intros Hm. now apply take_app_le. Qed.

(** A publish adds the id to the set and to the published ids, whether or
    not the save that follows returns. *)
Lemma ledger_ok_added (stored : gset string) (st : ledger) (id : string)
    (sv : list (list string)) :
  ledger_ok stored st -> id ∉ posted_ids st ->
  (sv = saves st \/ sv = saves st ++ [save_posted_ids ({[id]} ∪ posted_ids st)]) ->
  ledger_ok stored
    (Ledger ({[id]} ∪ posted_ids st) sv (threads st ++ [(id, true)])).
Proof.
  intros (Hmem & Hfresh & Hnd & Hlen & Hsaves) Hid Hsv.
  assert (Hstored : id ∉ stored) by (intros Hs; apply Hid, Hmem; now left).
  assert (Hold : Forall (fun ids =>
                   exists m : nat,
                     (1 <= m <= length (published st ++ [id]))%nat
                     /\ list_to_set ids
                        = stored ∪ list_to_set (take m (published st ++ [id])))
                   (saves st)).
  { eapply Forall_impl; [exact Hsaves|]. intros ids (m & Hm & Hids).
    exists m. rewrite length_app. split; [cbn; lia|].
    rewrite take_snoc_le by lia. exact Hids. }
  unfold ledger_ok. rewrite published_snoc. cbn [posted_ids saves threads].
  split; [|split; [|split; [|split]]].
  - intros x. rewrite elem_of_union, elem_of_singleton, elem_of_app, Hmem,
      list_elem_of_singleton. tauto.
  - intros c Hc. apply elem_of_app in Hc as [Hc|Hc]; [now apply Hfresh|].
    apply list_elem_of_singleton in Hc as ->. exact Hstored.
  - apply NoDup_app. split; [exact Hnd|]. split; [|apply NoDup_singleton].
    intros x Hx Hx'. apply list_elem_of_singleton in Hx' as ->.
    apply Hid, Hmem. now right.
  - destruct Hsv as [->| ->]; rewrite !length_app; cbn; lia.
  - destruct Hsv as [->| ->]; [exact Hold|].
    apply Forall_app. split; [exact Hold|]. constructor; [|constructor].
    exists (length (published st ++ [id])). split.
    + rewrite length_app. cbn. lia.
    + rewrite firstn_all. unfold save_posted_ids. rewrite list_to_set_elements_L.
      apply set_eq. intros x.
      rewrite !elem_of_union, elem_of_singleton, elem_of_list_to_set, elem_of_app,
        list_elem_of_singleton, Hmem. tauto.
Qed.

Lemma ledger_ok_failed (stored : gset string) (st : ledger) (id : string) :
  ledger_ok stored st -> id ∉ posted_ids st ->
  ledger_ok stored
    (Ledger (posted_ids st) (saves st) (threads st ++ [(id, false)])).
Proof.
  intros (Hmem & Hfresh & Hnd & Hlen & Hsaves) Hid.
  unfold ledger_ok. rewrite published_snoc, app_nil_r. cbn [posted_ids saves threads].
  repeat split; try assumption; try apply Hmem.
  intros c Hc. apply elem_of_app in Hc as [Hc|Hc]; [now apply Hfresh|].
  apply list_elem_of_singleton in Hc as ->. cbn.
  intros Hs. apply Hid, Hmem. now left.
Qed.

Lemma ledger_ok_init (stored : gset string) :
  ledger_ok stored (Ledger stored [] []).
Proof.
  unfold ledger_ok, published. cbn.
  split; [|split; [|split; [|split]]]; try constructor; try reflexivity.
  - intros Hid. now left.
  - intros [Hid|Hid]; [exact Hid | inversion Hid].
  - intros c Hc. inversion Hc.
Qed.

Lemma check_loop_ok (cutoff : Q) (obs : nat -> item_obs) (stored : gset string) :
  forall posts n st,
    ledger_ok stored st -> ledger_ok stored (check_loop cutoff obs n posts st).
Proof.
  induction posts as [|post rest IH]; intros n st Hst; cbn [check_loop]; [exact Hst|].
  destruct (Qlt_bool (created_utc post) cutoff); [now apply IH|].
  case_bool_decide as Hin; [now apply IH|].
  destruct (negb (has_supported_media post)); [now apply IH|].
  destruct (obs n) as [| |[|]| | |]; try (now apply IH); try exact Hst.
  - apply IH. apply ledger_ok_added; [exact Hst | exact Hin | now right].
  - apply IH. now apply ledger_ok_failed.
  - apply IH. apply ledger_ok_added; [exact Hst | exact Hin | now left].
  - apply IH. now apply ledger_ok_failed.
Qed.

(** As long as no save raises, every publish is saved and the last list
    written is the set in memory. *)
Lemma check_loop_synced (cutoff : Q) (obs : nat -> item_obs) (stored : gset string) :
  (forall n, obs n <> SaveRaised) ->
  forall posts n st,
    ledger_synced stored st ->
    ledger_synced stored (check_loop cutoff obs n posts st).
Proof.
  intros Hsave.
  induction posts as [|post rest IH]; intros n st Hst; cbn [check_loop]; [exact Hst|].
  destruct (Qlt_bool (created_utc post) cutoff); [now apply IH|].
  case_bool_decide as Hin; [now apply IH|].
  destruct (negb (has_supported_media post)); [now apply IH|].
  pose proof (Hsave n) as Hn.
  destruct (obs n) as [| |[|]| | |]; try (now apply IH); try exact Hst;
    try contradiction; apply IH; destruct Hst as [Hlen Hlast];
    unfold ledger_synced; rewrite published_snoc; cbn [posted_ids saves threads].
  - split; [rewrite !length_app; cbn; lia|].
    rewrite last_snoc. unfold save_posted_ids. apply list_to_set_elements_L.
  - rewrite app_nil_r. now split.
  - rewrite app_nil_r. now split.
Qed.

(** The ledger keeps a submission from being published twice.  After a
    cycle the set of ids holds the ids loaded at the start and the ids
    published in the cycle, and nothing else; [create_bluesky_thread] was
    not called for any id loaded at the start; and no id was published more
    than once. *)
Theorem check_and_post_at_most_once (now : Q) (file : option (list string))
    (obs : nat -> item_obs) (posts : list submission) :
  let st := check_and_post now file obs posts in
  (forall id, id ∈ posted_ids st
              <-> id ∈ load_posted_ids file \/ id ∈ published st)
  /\ (forall id ok, (id, ok) ∈ threads st -> id ∉ load_posted_ids file)
  /\ NoDup (published st).
Proof.
  cbv zeta. unfold check_and_post.
  destruct (check_loop_ok (now - 5400) obs (load_posted_ids file) posts 0
              (Ledger (load_posted_ids file) [] []))
    as (Hmem & Hfresh & Hnd & _).
  - apply ledger_ok_init.
  - split; [exact Hmem|]. split; [|exact Hnd].
    intros id ok Hc. exact (Hfresh (id, ok) Hc).
Qed.

(** Every list written to the file is the set in memory at the time of the
    write: the ids loaded at the start and the ids published in the cycle up
    to then, those whose own save raised included.  There are at most as
    many lists written as published ids.  When no save raises, the set is
    saved once for every publish, and the last list written, loaded again,
    is the set in memory at the end of the cycle. *)
Theorem check_and_post_saves (now : Q) (file : option (list string))
    (obs : nat -> item_obs) (posts : list submission) :
  let st := check_and_post now file obs posts in
  (length (saves st) <= length (published st))%nat
  /\ Forall (fun ids =>
               exists m : nat,
                 (1 <= m <= length (published st))%nat
                 /\ load_posted_ids (Some ids)
                    = load_posted_ids file ∪ list_to_set (take m (published st)))
       (saves st)
  /\ Forall (fun ids => load_posted_ids file ⊆ load_posted_ids (Some ids)
                        /\ load_posted_ids (Some ids) ⊆ posted_ids st)
       (saves st)
  /\ ((forall n, obs n <> SaveRaised) ->
      length (saves st) = length (published st)
      /\ (forall ids, last (saves st) = Some ids ->
                      load_posted_ids (Some ids) = posted_ids st)
      /\ (saves st = [] -> posted_ids st = load_posted_ids file)).
Proof.
  cbv zeta. unfold check_and_post.
  destruct (check_loop_ok (now - 5400) obs (load_posted_ids file) posts 0
              (Ledger (load_posted_ids file) [] []) (ledger_ok_init _))
    as (Hmem & _ & _ & Hlen & Hsaves).
  split; [exact Hlen|]. split; [exact Hsaves|]. split.
  - eapply Forall_impl; [exact Hsaves|]. intros ids (m & Hm & Hids).
    cbn [load_posted_ids]. rewrite Hids. split.
    + apply union_subseteq_l.
    + intros x Hx. apply Hmem. apply elem_of_union in Hx as [Hx|Hx]; [now left|].
      right. apply elem_of_list_to_set in Hx.
      now apply (subseteq_take m) in Hx.
  - intros Hsave.
    destruct (check_loop_synced (now - 5400) obs (load_posted_ids file) Hsave posts 0
                (Ledger (load_posted_ids file) [] [])) as [Hlen' Hlast].
    { split; reflexivity. }
    split; [exact Hlen'|]. split.
    + intros ids Hids. now rewrite Hids in Hlast.
    + intros Hnil. now rewrite Hnil in Hlast.
Qed.

Lemma check_and_post_saves_witness :
  let st := check_and_post 12000 (Some ["seen"%string])
              (fun _ => ThreadReturned true) sample_listing in
  (forall n : nat, (fun _ : nat => ThreadReturned true) n <> SaveRaised)
  /\ published st = ["new"%string]
  /\ length (saves st) = length (published st)
  /\ (forall ids, last (saves st) = Some ids ->
                  load_posted_ids (Some ids) = posted_ids st).
Proof.
  cbv zeta.
  assert (Hsave : forall n : nat,
             (fun _ : nat => ThreadReturned true) n <> SaveRaised)
    by (intros n; discriminate).
  split; [exact Hsave|]. split; [vm_compute; reflexivity|].
  destruct (proj2 (proj2 (proj2 (check_and_post_saves 12000 (Some ["seen"%string])
                                   (fun _ => ThreadReturned true) sample_listing)))
              Hsave) as (Hlen & Hlast & _).
  split; [exact Hlen | exact Hlast].
Defined.

Lemma check_loop_calls (cutoff : Q) (obs : nat -> item_obs) :
  forall posts n st c,
    c ∈ threads (check_loop cutoff obs n posts st) ->
    c ∈ threads st
    \/ exists post,
         post ∈ posts /\ sub_id post = c.1
         /\ Qlt_bool (created_utc post) cutoff = false
         /\ has_supported_media post = true.
Proof.
  induction posts as [|post rest IH]; intros n st c; cbn [check_loop]; [now left|].
  assert (Hrest : c ∈ threads (check_loop cutoff obs (S n) rest st) ->
                  c ∈ threads st
                  \/ exists p, p ∈ post :: rest /\ sub_id p = c.1
                               /\ Qlt_bool (created_utc p) cutoff = false
                               /\ has_supported_media p = true).
  { intros Hc. apply IH in Hc as [Hc|(p & Hp & Hrest)]; [now left|].
    right. exists p. split; [now right | exact Hrest]. }
  destruct (Qlt_bool (created_utc post) cutoff) eqn:Eold; [exact Hrest|].
  case_bool_decide as Hin; [exact Hrest|].
  destruct (has_supported_media post) eqn:Em; cbn [negb]; [|exact Hrest].
  assert (Hcall : forall ok ps sv,
             c ∈ threads (check_loop cutoff obs (S n) rest
                            (Ledger ps sv (threads st ++ [(sub_id post, ok)]))) ->
             c ∈ threads st
             \/ exists p, p ∈ post :: rest /\ sub_id p = c.1
                          /\ Qlt_bool (created_utc p) cutoff = false
                          /\ has_supported_media p = true).
  { intros ok ps sv Hc. apply IH in Hc as [Hc|(p & Hp & Hrest')].
    - cbn [threads] in Hc. apply elem_of_app in Hc as [Hc|Hc]; [now left|].
      apply list_elem_of_singleton in Hc as ->. right. exists post.
      split; [now left | now repeat split].
    - right. exists p. split; [now right | exact Hrest']. }
  destruct (obs n) as [| |[|]| | |]; try exact Hrest; try apply Hcall. now left.
Qed.

(** [create_bluesky_thread] is only called for a submission of the listing
    that was created within the last hour and a half and whose url, gallery
    attribute or host promises media. *)
Theorem check_and_post_only_recent (now : Q) (file : option (list string))
    (obs : nat -> item_obs) (posts : list submission) (id : string) (ok : bool) :
  (id, ok) ∈ threads (check_and_post now file obs posts) ->
  exists post,
    post ∈ posts /\ sub_id post = id
    /\ (now - 5400 <= created_utc post)%Q
    /\ has_supported_media post = true.
Proof.
  unfold check_and_post. intros Hc.
  apply check_loop_calls in Hc as [Hc|(post & Hp & Hid & Hold & Hm)];
    [inversion Hc|].
  exists post. split; [exact Hp|]. split; [exact Hid|]. split; [|exact Hm].
  unfold Qlt_bool in Hold. apply negb_false_iff in Hold.
  now apply Qle_bool_iff.
Qed.

Lemma check_and_post_only_recent_witness :
  ("new"%string, true)
    ∈ threads (check_and_post 12000 (Some ["seen"%string])
                 (fun _ => ThreadReturned true) sample_listing)
  /\ exists post,
       post ∈ sample_listing /\ sub_id post = "new"%string
       /\ (12000 - 5400 <= created_utc post)%Q
       /\ has_supported_media post = true.
Proof.
  assert (H : ("new"%string, true)
                ∈ threads (check_and_post 12000 (Some ["seen"%string])
                             (fun _ => ThreadReturned true) sample_listing))
    by (vm_compute; apply list_elem_of_here).
  split; [exact H|].
  exact (check_and_post_only_recent 12000 _ _ _ _ _ H).
Defined.





(** ** More on the cleanup of check_and_post *)

Lemma record_result_files (st : thread) (p : post) (r : post_result) :
  files (record_result st p r) = files st.
Proof. now destruct r. Qed.

Lemma image_posts_files (w : world) (formatted_text chunk0 : str)
    (facets : list facet) (image_paths : list string) :
  forall starts st,
    files (image_posts w formatted_text chunk0 facets image_paths starts st).2
    = files st.
Proof.
  induction starts as [|i starts IH]; intros st; cbn [image_posts]; [reflexivity|].
  destruct (upload_chunk w chunk0 (take 4 (drop i image_paths)) []) as [[|im ims]|];
    [apply IH | | reflexivity].
  now rewrite IH, record_result_files.
Qed.

Lemma converted_from_cons (g : string) (paths : list string) (f : string) :
  converted_from paths f -> converted_from (g :: paths) f.
Proof.
  intros (g' & Hin & Hgif & Hf). exists g'. split; [|easy].
  now apply list_elem_of_further.
Qed.

Lemma convert_gif_to_mp4_files (converted : bool) (gif_path : string)
    (fs : gset string) (f : string) :
  f ∈ (convert_gif_to_mp4 converted gif_path fs).2 ->
  f ∈ fs \/ f = mp4_path_of gif_path.
Proof.
  unfold convert_gif_to_mp4. destruct converted; cbn [snd]; intros Hf.
  - apply elem_of_union in Hf as [Hf|Hf].
    + right. now apply elem_of_singleton in Hf.
    + left. now apply elem_of_difference in Hf as [Hf _].
  - left. now apply elem_of_difference in Hf as [Hf _].
Qed.

Lemma video_posts_files (w : world) (formatted_text chunk0 : str)
    (facets : list facet) (f : string) :
  forall video_paths st,
    f ∈ files (video_posts w formatted_text chunk0 facets video_paths st).2 ->
    f ∈ files st \/ converted_from video_paths f.
Proof.
  induction video_paths as [|v video_paths IH]; intros st; cbn [video_posts];
    [now left|].
  assert (Hstep : forall v' fs',
            (f ∈ fs' -> f ∈ files st \/ converted_from (v :: video_paths) f) ->
            f ∈ files (let st := Thread (root_uri st) (parent_uri st) (sent st) fs' in
                       match video_env w v' with
                       | VideoTooBig => video_posts w formatted_text chunk0 facets video_paths st
                       | VideoAbort => (Aborted, st)
                       | VideoReady =>
                           let post_text :=
                             if negb (truthy (root_uri st)) then formatted_text
                             else chunk0 ++ py " (Video)" in
                           let reply_ref := reply_ref_of st in
                           let p := Post post_text
                                      (if negb (truthy (root_uri st)) then Some facets else None)
                                      (Video v') None in
                           match send_video_env w v' with
                           | SendRaised => (Aborted, record_result st p SendRaised)
                           | r => video_posts w formatted_text chunk0 facets video_paths
                                    (record_result st p r)
                           end
                       end).2 ->
            f ∈ files st \/ converted_from (v :: video_paths) f).
  { intros v' fs' Hfs. cbv zeta.
    assert (Hrest : forall st', files st' = fs' ->
              f ∈ files (video_posts w formatted_text chunk0 facets video_paths st').2 ->
              f ∈ files st \/ converted_from (v :: video_paths) f).
    { intros st' Hst' Hf. apply IH in Hf as [Hf|Hf].
      - apply Hfs. now rewrite <- Hst'.
      - right. now apply converted_from_cons. }
    destruct (video_env w v'); [now apply Hrest | | exact Hfs].
    destruct (send_video_env w v'); cbn [snd];
      first [ apply Hrest; now rewrite record_result_files
            | now rewrite record_result_files ]. }
  destruct (endswith v ".gif") eqn:Hgif.
  - pose proof (convert_gif_to_mp4_files (convert_env w v) v (files st) f) as Hc.
    destruct (convert_gif_to_mp4 (convert_env w v) v (files st)) as [[mp4|] fs'];
      cbn [snd] in Hc; apply Hstep; intros Hf; (destruct (Hc Hf) as [Hs | ->]; [now left|]);
      right; exists v; (split; [apply list_elem_of_here | easy]).
  - apply Hstep. now left.
Qed.

Lemma create_bluesky_thread_files (w : world) (title author : str)
    (media_paths : list string) (scratch : gset string) (f : string) :
  f ∈ files (create_bluesky_thread w title media_paths author scratch).2 ->
  f ∈ scratch \/ converted_from media_paths f.
Proof.
  unfold create_bluesky_thread.
  destruct (split_into_thread _ _ _) as [[|chunk0 chunks]|]; try (now left).
  destruct (create_hashtag_facets _) as [facets|]; [|now left].
  match goal with |- context [image_posts ?w ?a ?b ?c ?d ?e ?f] =>
    pose proof (image_posts_files w a b c d e f) as Hi;
    destruct (image_posts w a b c d e f) as [[|] sti] end;
    cbn [snd files] in Hi; [|cbn [snd]; rewrite Hi; now left].
  match goal with |- context [video_posts ?w ?a ?b ?c ?d ?e] =>
    pose proof (video_posts_files w a b c f d e) as Hv;
    destruct (video_posts w a b c d e) as [[|] stv] end;
    cbn [snd] in *; intros Hf; (destruct (Hv Hf) as [Hs|(g & Hin & Hgif & ->)];
    [left; now rewrite <- Hi | right; exists g; split; [|easy]]);
    now apply list_elem_of_filter in Hin as [_ Hin].
Qed.

(** After an item was handed to the publish step, none of the files listed
    for it is left, whatever the publish step did, and a file that is left
    was there before or is the video a gif of the item was converted to. *)
Theorem publish_item_cleans_up (w : world) (title author : str)
    (media_files : list string) (scratch : gset string) (f : string) :
  (f ∈ media_files
   -> f ∉ (publish_item w title media_files author scratch).2)
  /\ (f ∈ (publish_item w title media_files author scratch).2
      -> f ∈ scratch \/ converted_from media_files f).
Proof.
  unfold publish_item.
  destruct media_files as [|f0 media_files].
  { split; [intros Hf; now apply elem_of_nil in Hf | now left]. }
  pose proof (create_bluesky_thread_files w title author (f0 :: media_files)
                scratch f) as Hfiles.
  destruct (create_bluesky_thread w title (f0 :: media_files) author scratch)
    as [ok st].
  cbn [snd] in *. rewrite cleanup_removes. split.
  - intros Hf Hin. apply elem_of_difference in Hin as [_ Hin].
    apply Hin. now apply elem_of_list_to_set.
  - intros Hin. apply elem_of_difference in Hin as [Hin _]. now apply Hfiles.
Qed.

Lemma publish_item_cleans_up_witness :
  let left := (publish_item all_ok (py "Nice pass!") ["a.gif"; "b.png"]%string
                 (py "alice") {["a.gif"; "b.png"; "notes.txt"]}%string).2 in
  "b.png"%string ∈ ["a.gif"; "b.png"]%string
  /\ "b.png"%string ∉ left.
Proof.
  cbv zeta.
  assert (H : "b.png"%string ∈ ["a.gif"; "b.png"]%string)
    by (apply list_elem_of_further, list_elem_of_here).
  split; [exact H|].
  exact (proj1 (publish_item_cleans_up all_ok (py "Nice pass!") (py "alice")
                  ["a.gif"; "b.png"]%string
                  {["a.gif"; "b.png"; "notes.txt"]}%string "b.png"%string) H).
Defined.

(** ** download_media and download_and_process_media, on the files *)

Lemma write_opt_lookup_ne (path p : string) (content : option bytes)
    (fs : gmap string bytes) :
  p <> path -> write_opt path content fs !! p = fs !! p.
Proof.
  intros Hp. destruct content as [c|]; [|reflexivity].
  apply lookup_insert_ne. congruence.
Qed.

Lemma write_file_write_opt (path : string) (c : bytes) (content : option bytes)
    (fs : gmap string bytes) :
  write_file path c (write_opt path content fs) = write_file path c fs.
Proof. destruct content; [apply insert_insert_eq | reflexivity]. Qed.

Lemma exists_nonempty_write (path : string) (c : bytes) (fs : gmap string bytes) :
  exists_nonempty (write_file path c fs) path = (0 <? py_len c).
Proof. unfold exists_nonempty, write_file. now rewrite lookup_insert_eq. Qed.

Lemma download_loop_files_frame (net : nat -> transfer) (filename p : string) :
  p <> filename ->
  forall attempts fs,
    (download_loop_files net filename attempts fs).2 !! p = fs !! p.
Proof.
  intros Hp. induction attempts as [|a attempts IH]; intros fs;
    cbn [download_loop_files]; [reflexivity|].
  destruct (net a) as [c| |partial]; cbn [snd].
  - apply lookup_insert_ne. congruence.
  - reflexivity.
  - rewrite IH. now apply write_opt_lookup_ne.
Qed.

(** The loop returns [True] at the first attempt that does not end in an
    exception, when that attempt receives a body that is not empty. *)
Lemma download_loop_files_true (net : nat -> transfer) (filename : string) :
  forall n s fs,
    (download_loop_files net filename (seq s n) fs).1 = true ->
    exists a c,
      (s <= a < s + n)%nat /\ net a = Received c
      /\ (forall j, (s <= j < a)%nat -> broke (net j) = true)
      /\ 0 < py_len c
      /\ (download_loop_files net filename (seq s n) fs).2 = write_file filename c fs.
Proof.
  induction n as [|n IH]; intros s fs; cbn [seq download_loop_files];
    [discriminate|].
  destruct (net s) as [c| |partial] eqn:Hs; cbn [fst snd].
  - rewrite exists_nonempty_write. intros Hc. exists s, c.
    split; [lia|]. split; [exact Hs|]. split; [intros j Hj; lia|].
    split; [now apply Z.ltb_lt | reflexivity].
  - discriminate.
  - intros Hrun. destruct (IH _ _ Hrun) as (a & c & Ha & Hnet & Hbefore & Hc & Hfs).
    exists a, c. split; [lia|]. split; [exact Hnet|]. split.
    + intros j Hj. destruct (decide (j = s)) as [->|Hjs]; [now rewrite Hs|].
      apply Hbefore. lia.
    + split; [exact Hc|]. now rewrite Hfs, write_file_write_opt.
Qed.

Lemma download_media_files_exists (net : nat -> transfer) (filename : string)
    (fs : gmap string bytes) :
  (download_media_files net filename fs).1 = true ->
  exists c : bytes,
    (download_media_files net filename fs).2 !! filename = Some c /\ 0 < py_len c.
Proof.
  intros Hrun. apply download_loop_files_true in Hrun as (a & c & _ & _ & _ & Hc & Hfs).
  exists c. split; [|exact Hc]. unfold download_media_files. rewrite Hfs.
  apply lookup_insert_eq.
Qed.

(** [download_media] returns [True] only when an attempt got status 200
    with a body that is not empty, all attempts before it ended in an
    exception, and the file then holds that body; no other file changed. *)
Theorem download_media_saves_body (net : nat -> transfer) (filename : string)
    (fs : gmap string bytes) :
  (download_media_files net filename fs).1 = true ->
  exists a c,
    (a < max_retries)%nat /\ net a = Received c
    /\ (forall j, (j < a)%nat -> broke (net j) = true)
    /\ c <> []
    /\ (download_media_files net filename fs).2 = <[filename := c]> fs.
Proof.
  intros Hrun. unfold download_media_files in *.
  apply download_loop_files_true in Hrun as (a & c & Ha & Hnet & Hbefore & Hc & Hfs).
  exists a, c. split; [lia|]. split; [exact Hnet|]. split.
  - intros j Hj. apply Hbefore. lia.
  - split; [|exact Hfs]. intros ->. now vm_compute in Hc.
Qed.

Lemma download_media_saves_body_witness :
  exists a c,
    (a < max_retries)%nat
    /\ (fun n => if (n <? 2)%nat then Broke (Some []) else Received [7; 7]) a = Received c
    /\ c <> []
    /\ (download_media_files
          (fun n => if (n <? 2)%nat then Broke (Some []) else Received [7; 7])
          "temp_abc_0.jpg" ∅).2 = <[("temp_abc_0.jpg")%string := c]> ∅.
Proof.
  assert (Hrun : (download_media_files
                    (fun n => if (n <? 2)%nat then Broke (Some []) else Received [7; 7])
                    "temp_abc_0.jpg" ∅).1 = true) by (vm_compute; reflexivity).
  destruct (download_media_saves_body
              (fun n => if (n <? 2)%nat then Broke (Some []) else Received [7; 7])
              "temp_abc_0.jpg" ∅ Hrun) as (a & c & Ha & Hnet & _ & Hc & Hfs).
  exists a, c. split; [exact Ha|]. split; [exact Hnet|]. split; [exact Hc | exact Hfs].
Defined.

Lemma string_length_append (a b : string) :
  String.length (a ++ b)%string = (String.length a + String.length b)%nat.
Proof. induction a as [|x a IH]; [reflexivity | now cbn; rewrite <- IH]. Qed.

Lemma prefixed_ne (prefix filename : string) :
  prefix <> EmptyString -> (prefix ++ filename)%string <> filename.
Proof.
  intros Hne Heq. apply (f_equal String.length) in Heq.
  rewrite string_length_append in Heq.
  destruct prefix; [congruence|]. cbn in Heq. lia.
Qed.

Lemma temp_paths_ne (filename : string) :
  ("temp_video_" ++ filename)%string <> ("temp_audio_" ++ filename)%string.
Proof.
  intros Heq. apply (f_equal (String.get 5)) in Heq. now vm_compute in Heq.
Qed.

Lemma remove_step_lookup (q p : string) (fs : gmap string bytes) :
  (if path_exists fs q then delete q fs else fs) !! p
  = if bool_decide (p = q) then None else fs !! p.
Proof.
  unfold path_exists. destruct (decide (p = q)) as [->|Hpq].
  - rewrite (bool_decide_eq_true_2 (q = q)) by reflexivity.
    destruct (decide (is_Some (fs !! q))) as [Hex|Hex].
    + rewrite bool_decide_eq_true_2 by exact Hex. apply lookup_delete_eq.
    + rewrite bool_decide_eq_false_2 by exact Hex. now apply eq_None_not_Some.
  - rewrite (bool_decide_eq_false_2 (p = q)) by exact Hpq.
    destruct (bool_decide _); [|reflexivity]. apply lookup_delete_ne. congruence.
Qed.

Lemma remove_existing_lookup (paths : list string) (p : string) :
  forall fs,
    remove_existing paths fs !! p = if bool_decide (p ∈ paths) then None else fs !! p.
Proof.
  unfold remove_existing.
  induction paths as [|q paths IH]; intros fs; cbn [foldl].
  - rewrite bool_decide_eq_false_2; [reflexivity | apply not_elem_of_nil].
  - rewrite IH, remove_step_lookup.
    destruct (decide (p ∈ paths)) as [Hin|Hin].
    + rewrite (bool_decide_eq_true_2 _ Hin), bool_decide_eq_true_2; [reflexivity|].
      now apply list_elem_of_further.
    + rewrite (bool_decide_eq_false_2 _ Hin).
      destruct (decide (p = q)) as [Hpq|Hpq].
      * rewrite (bool_decide_eq_true_2 _ Hpq), bool_decide_eq_true_2; [reflexivity|].
        rewrite Hpq. apply list_elem_of_here.
      * rewrite (bool_decide_eq_false_2 _ Hpq), bool_decide_eq_false_2; [reflexivity|].
        intros Hp. apply elem_of_cons in Hp as [Hp|Hp]; congruence.
Qed.

Lemma merge_video_audio_frame (m : merge_obs) (video_path audio_path output_path p : string)
    (fs : gmap string bytes) :
  p <> output_path ->
  (merge_video_audio m video_path audio_path output_path fs).2 !! p = fs !! p.
Proof. intros Hp. destruct m; cbn [merge_video_audio snd]; now apply write_opt_lookup_ne. Qed.

Lemma merge_video_audio_true (m : merge_obs) (video_path audio_path output_path : string)
    (fs : gmap string bytes) :
  (merge_video_audio m video_path audio_path output_path fs).1 = true ->
  is_Some ((merge_video_audio m video_path audio_path output_path fs).2 !! output_path).
Proof.
  destruct m; cbn [merge_video_audio fst snd]; [|discriminate].
  unfold path_exists. intros Hex. now apply bool_decide_eq_true_1 in Hex.
Qed.

(** [download_and_process_media] never raises: the files it renames or
    measures exist.  When it returns [True], the file [filename] exists.
    Once the video of a pair was downloaded, the temporary video file is
    not left behind, and the result is [True] unless the audio was
    downloaded and could not be merged: then the video is dropped, the
    result is [None] and both temporary files are removed. *)
Theorem download_and_process_media_returns (w : fetch_env) (url : media_url)
    (filename : string) (fs : gmap string bytes) :
  let r := download_and_process_media w url filename fs in
  r.1 <> Raises
  /\ (r.1 = Return (Some true) -> is_Some (r.2 !! filename))
  /\ (forall video_url audio_url,
         url = VideoAudio video_url audio_url ->
         r.1 <> Return (Some false) ->
         r.2 !! ("temp_video_" ++ filename)%string = None)
  /\ (r.1 = Return None ->
      (exists video_url audio_url, url = VideoAudio video_url audio_url)
      /\ r.2 !! ("temp_audio_" ++ filename)%string = None
      /\ forall output, merge_env w <> FfmpegDone (Some output)).
Proof.
  cbv zeta. unfold download_and_process_media.
  destruct url as [url|video_url audio_url].
  { pose proof (download_media_files_exists (net_env w (Some url) filename) filename fs)
      as Hex.
    destruct (download_media_files _ filename fs) as [ok fs1]. cbn [fst snd] in *.
    split; [discriminate|]. split.
    - intros Hok. injection Hok as ->. destruct (Hex eq_refl) as (c & Hc & _).
      now exists c.
    - split; [discriminate | discriminate]. }
  set (video_path := ("temp_video_" ++ filename)%string).
  set (audio_path := ("temp_audio_" ++ filename)%string).
  assert (Hvf : video_path <> filename) by (now apply prefixed_ne).
  assert (Haf : audio_path <> filename) by (now apply prefixed_ne).
  assert (Hva : video_path <> audio_path) by apply temp_paths_ne.
  pose proof (download_media_files_exists
                (net_env w (Some video_url) video_path) video_path fs) as Hvideo.
  destruct (download_media_files _ video_path fs) as [[|] fs1]; cbn [fst snd] in *.
  2: { split; [discriminate|]. split; [discriminate|].
       split; [intros ? ? _ Hr; now destruct Hr | discriminate]. }
  destruct (Hvideo eq_refl) as (vc & Hvc & _). clear Hvideo.
  pose proof (download_loop_files_frame (net_env w audio_url audio_path)
                audio_path video_path Hva (seq 0 max_retries) fs1) as Hframe.
  fold (download_media_files (net_env w audio_url audio_path) audio_path fs1) in Hframe.
  destruct (download_media_files _ audio_path fs1) as [has_audio fs2].
  cbn [fst snd] in *. rewrite Hvc in Hframe.
  destruct (has_audio && path_exists fs2 audio_path) eqn:Haudio.
  - pose proof (merge_video_audio_true (merge_env w) video_path audio_path filename fs2)
      as Hmerged.
    assert (Hnone : forall output, merge_env w = FfmpegDone (Some output) ->
              (merge_video_audio (merge_env w) video_path audio_path filename fs2).1 = true).
    { intros output ->. cbn [merge_video_audio write_opt fst]. unfold path_exists, write_file.
      rewrite lookup_insert_eq. now apply bool_decide_eq_true_2. }
    destruct (merge_video_audio _ video_path audio_path filename fs2) as [success fs3].
    cbn [fst snd] in *.
    assert (Hv : remove_existing [video_path; audio_path] fs3 !! video_path = None).
    { rewrite remove_existing_lookup, bool_decide_eq_true_2; [reflexivity|].
      apply list_elem_of_here. }
    assert (Ha : remove_existing [video_path; audio_path] fs3 !! audio_path = None).
    { rewrite remove_existing_lookup, bool_decide_eq_true_2; [reflexivity|].
      apply list_elem_of_further, list_elem_of_here. }
    assert (Hf : remove_existing [video_path; audio_path] fs3 !! filename = fs3 !! filename).
    { rewrite remove_existing_lookup, bool_decide_eq_false_2; [reflexivity|].
      intros Hin. apply elem_of_cons in Hin as [Hin|Hin]; [congruence|].
      apply list_elem_of_singleton in Hin. congruence. }
    destruct success.
    + destruct (Hmerged eq_refl) as [c Hc]. rewrite Hf, Hc. cbn [fst snd].
      split; [discriminate|]. split; [intros _; rewrite Hf, Hc; eauto|].
      split; [intros ? ? _ _; exact Hv | discriminate].
    + cbn [fst snd]. split; [discriminate|]. split; [discriminate|].
      split; [intros ? ? _ _; exact Hv|]. intros _. split; [eauto|].
      split; [exact Ha|]. intros output Hout. now specialize (Hnone _ Hout).
  - rewrite Hframe. unfold path_exists, write_file.
    rewrite bool_decide_eq_true_2 by (rewrite lookup_insert_eq; eauto).
    cbn [fst snd]. split; [discriminate|].
    split; [intros _; rewrite lookup_insert_eq; eauto|].
    split; [|discriminate]. intros ? ? _ _.
    rewrite lookup_insert_ne by congruence. apply lookup_delete_eq.
Qed.

Lemma download_and_process_media_lookup (w : fetch_env) (url : media_url)
    (filename p : string) (fs : gmap string bytes) :
  p <> filename ->
  p <> ("temp_video_" ++ filename)%string ->
  p <> ("temp_audio_" ++ filename)%string ->
  (download_and_process_media w url filename fs).2 !! p = fs !! p.
Proof.
  intros Hf Hv Ha. unfold download_and_process_media.
  destruct url as [url|video_url audio_url].
  { pose proof (download_loop_files_frame (net_env w (Some url) filename)
                  filename p Hf (seq 0 max_retries) fs) as H1.
    fold (download_media_files (net_env w (Some url) filename) filename fs) in H1.
    now destruct (download_media_files _ filename fs). }
  set (video_path := ("temp_video_" ++ filename)%string) in *.
  set (audio_path := ("temp_audio_" ++ filename)%string) in *.
  pose proof (download_loop_files_frame (net_env w (Some video_url) video_path)
                video_path p Hv (seq 0 max_retries) fs) as H1.
  fold (download_media_files (net_env w (Some video_url) video_path) video_path fs) in H1.
  destruct (download_media_files _ video_path fs) as [[|] fs1]; cbn [fst snd] in *;
    [|exact H1].
  pose proof (download_loop_files_frame (net_env w audio_url audio_path)
                audio_path p Ha (seq 0 max_retries) fs1) as H2.
  fold (download_media_files (net_env w audio_url audio_path) audio_path fs1) in H2.
  destruct (download_media_files _ audio_path fs1) as [has_audio fs2].
  cbn [fst snd] in *.
  destruct (has_audio && path_exists fs2 audio_path).
  - pose proof (merge_video_audio_frame (merge_env w) video_path audio_path filename
                  p fs2 Hf) as H3.
    destruct (merge_video_audio _ video_path audio_path filename fs2) as [success fs3].
    cbn [fst snd] in *.
    assert (H4 : remove_existing [video_path; audio_path] fs3 !! p = fs !! p).
    { rewrite remove_existing_lookup, bool_decide_eq_false_2; [congruence|].
      intros Hin. apply elem_of_cons in Hin as [Hin|Hin]; [congruence|].
      apply list_elem_of_singleton in Hin. congruence. }
    destruct success; [|exact H4].
    now destruct (remove_existing [video_path; audio_path] fs3 !! filename).
  - destruct (fs2 !! video_path) as [content|]; [|cbn [snd]; congruence].
    assert (H4 : write_file filename content (delete video_path fs2) !! p = fs !! p).
    { unfold write_file. rewrite lookup_insert_ne, lookup_delete_ne by congruence.
      congruence. }
    now destruct (path_exists _ filename).
Qed.

(** A file that [download_and_process_media] creates, changes or removes is
    the file [filename] or one of its two temporary files. *)
Theorem download_and_process_media_frame (w : fetch_env) (url : media_url)
    (filename p : string) (fs : gmap string bytes) :
  (download_and_process_media w url filename fs).2 !! p <> fs !! p ->
  p ∈ [filename; ("temp_video_" ++ filename)%string;
       ("temp_audio_" ++ filename)%string].
Proof.
  intros Hchanged.
  destruct (decide (p = filename)) as [->|Hf]; [apply list_elem_of_here|].
  apply list_elem_of_further.
  destruct (decide (p = ("temp_video_" ++ filename)%string)) as [->|Hv];
    [apply list_elem_of_here|].
  apply list_elem_of_further.
  destruct (decide (p = ("temp_audio_" ++ filename)%string)) as [->|Ha];
    [apply list_elem_of_here|].
  exfalso. apply Hchanged. now apply download_and_process_media_lookup.
Qed.

Lemma download_and_process_media_frame_witness :
  (download_and_process_media video_with_sound
     (VideoAudio "https://v.redd.it/x/DASH_720.mp4" (Some "https://v.redd.it/x/DASH_audio.mp4"))
     "temp_abc_0.mp4" ∅).2 !! ("temp_abc_0.mp4")%string
  <> (∅ : gmap string bytes) !! ("temp_abc_0.mp4")%string
  /\ ("temp_abc_0.mp4")%string
     ∈ [("temp_abc_0.mp4")%string; ("temp_video_" ++ "temp_abc_0.mp4")%string;
        ("temp_audio_" ++ "temp_abc_0.mp4")%string].
Proof.
  assert (Hchanged :
    (download_and_process_media video_with_sound
       (VideoAudio "https://v.redd.it/x/DASH_720.mp4"
          (Some "https://v.redd.it/x/DASH_audio.mp4"))
       "temp_abc_0.mp4" ∅).2 !! ("temp_abc_0.mp4")%string
    <> (∅ : gmap string bytes) !! ("temp_abc_0.mp4")%string)
    by (vm_compute; discriminate).
  split; [exact Hchanged|].
  exact (download_and_process_media_frame video_with_sound _ _ _ _ Hchanged).
Defined.

(** ** The files of a submission *)

Lemma append_cons (a : ascii) (s t : string) :
  (String a s ++ t)%string = String a (s ++ t)%string.
Proof. reflexivity. Qed.

Lemma append_nil (t : string) : (EmptyString ++ t)%string = t.
Proof. reflexivity. Qed.

Lemma rsplit_at_ext (c : ascii) (s root ext : string) :
  rsplit_at c s = Some (root, ext) -> exists t, ext = String c t.
Proof.
  revert root. induction s as [|a s IH]; intros root; cbn [rsplit_at]; [discriminate|].
  destruct (rsplit_at c s) as [[root' ext']|].
  - intros [= _ <-]. now apply (IH root').
  - destruct (Ascii.eqb a c) eqn:Hac; [|discriminate].
    apply Ascii.eqb_eq in Hac as ->. intros [= _ <-]. now exists s.
Qed.

(** An extension is empty or starts with a dot. *)
Lemma splitext_ext_dot (p : string) :
  splitext_ext p = EmptyString \/ exists t, splitext_ext p = String "." t.
Proof.
  unfold splitext_ext.
  destruct (rsplit_at "." (last_segment p)) as [[root ext]|] eqn:Hsplit; [|now left].
  destruct (all_dots root); [now left|]. right. now apply rsplit_at_ext in Hsplit.
Qed.

Lemma pretty_N_char_digit (x : N) : is_digit (pretty_N_char x) = true.
Proof. unfold pretty_N_char. now repeat case_match. Qed.

Lemma pretty_N_go_digits (x : N) :
  forall s, all_digits s = true -> all_digits (pretty_N_go x s) = true.
Proof.
  induction (N.lt_wf_0 x) as [x _ IH]; intros s Hs.
  destruct (decide (x = 0)%N) as [->|Hx]; [now rewrite pretty_N_go_0|].
  rewrite pretty_N_go_step by lia. apply IH.
  - apply N.div_lt; lia.
  - cbn [all_digits]. now rewrite pretty_N_char_digit.
Qed.

Lemma pretty_N_go_nonempty (x : N) :
  forall s, s <> EmptyString -> pretty_N_go x s <> EmptyString.
Proof.
  induction (N.lt_wf_0 x) as [x _ IH]; intros s Hs.
  destruct (decide (x = 0)%N) as [->|Hx]; [now rewrite pretty_N_go_0|].
  rewrite pretty_N_go_step by lia. apply IH; [|discriminate].
  apply N.div_lt; lia.
Qed.

(** [str(i)] is a digit followed by digits. *)
Lemma pretty_nat_digits (n : nat) :
  exists d t, pretty n = String d t /\ is_digit d = true /\ all_digits t = true.
Proof.
  assert (Hd : all_digits (pretty n) = true /\ pretty n <> EmptyString).
  { unfold pretty, pretty_nat, pretty, pretty_N. case_decide as Hn.
    - split; [reflexivity | discriminate].
    - split; [now apply pretty_N_go_digits|].
      rewrite pretty_N_go_step by lia. now apply pretty_N_go_nonempty. }
  destruct Hd as [Hall Hne]. destruct (pretty n) as [|d t]; [congruence|].
  cbn [all_digits] in Hall. apply andb_true_iff in Hall as [Hd Ht].
  now exists d, t.
Qed.

(** Digits followed by an extension can be read in one way only. *)
Lemma digits_ext_inj (d1 d2 e1 e2 : string) :
  all_digits d1 = true -> all_digits d2 = true ->
  (e1 = EmptyString \/ exists t, e1 = String "." t) ->
  (e2 = EmptyString \/ exists t, e2 = String "." t) ->
  (d1 ++ e1)%string = (d2 ++ e2)%string -> d1 = d2.
Proof.
  revert d2. induction d1 as [|a d1 IH]; intros d2 H1 H2 He1 He2 Heq.
  - destruct d2 as [|b d2]; [reflexivity|]. exfalso.
    rewrite append_nil, append_cons in Heq. cbn [all_digits] in H2.
    apply andb_true_iff in H2 as [Hb _].
    destruct He1 as [->|[t ->]]; [discriminate|].
    injection Heq as <- _. discriminate.
  - cbn [all_digits] in H1. apply andb_true_iff in H1 as [Ha H1].
    rewrite append_cons in Heq. destruct d2 as [|b d2].
    + exfalso. rewrite append_nil in Heq.
      destruct He2 as [->|[t ->]]; [discriminate|].
      injection Heq as -> _. discriminate.
    + cbn [all_digits] in H2. apply andb_true_iff in H2 as [_ H2].
      rewrite append_cons in Heq. injection Heq as -> Heq.
      f_equal. now apply IH.
Qed.

(** The files of a submission have different names. *)
Lemma media_filename_inj (id : string) (i j : nat) (url url' : media_url) :
  media_filename id i url = media_filename id j url' -> i = j.
Proof.
  unfold media_filename. intros Heq.
  apply (inj (String.append "temp_")), (inj (String.append id)),
    (inj (String.append "_")) in Heq.
  destruct (pretty_nat_digits i) as (d1 & t1 & Hi & Hd1 & Ht1).
  destruct (pretty_nat_digits j) as (d2 & t2 & Hj & Hd2 & Ht2).
  apply (inj pretty). apply digits_ext_inj in Heq; try apply splitext_ext_dot;
    [exact Heq | rewrite Hi | rewrite Hj]; cbn [all_digits]; now apply andb_true_iff.
Qed.

(** A name that starts with [temp_video_] or [temp_audio_] before the
    name of a file of the submission is no name of a file of the submission:
    in such a name, an underscore and a digit come after the id. *)
Ltac shift_base H Hd :=
  rewrite ?append_cons, ?append_nil in H; simplify_eq;
  first [ done | vm_compute in Hd; discriminate Hd ].

Ltac shift_step IH pid R d I Hd Hlen H :=
  rewrite ?append_cons in H; simplify_eq;
  apply (IH pid R d I);
  [ cbn [String.length] in Hlen; lia
  | exact Hd
  | match goal with Heq : _ = String.append pid _ |- _ => exact Heq end ].

Lemma video_temp_shift (n : nat) :
  forall pid R d I,
    (String.length pid <= n)%nat -> is_digit d = true ->
    ("video_temp_" ++ pid ++ R)%string = (pid ++ "_" ++ String d I)%string -> False.
Proof.
  induction n as [|n IH]; intros pid R d I Hlen Hd H.
  - destruct pid; [|cbn in Hlen; lia]. shift_base H Hd.
  - do 11 (destruct pid as [|? pid]; [shift_base H Hd|]).
    shift_step IH pid R d I Hd Hlen H.
Qed.

Lemma audio_temp_shift (n : nat) :
  forall pid R d I,
    (String.length pid <= n)%nat -> is_digit d = true ->
    ("audio_temp_" ++ pid ++ R)%string = (pid ++ "_" ++ String d I)%string -> False.
Proof.
  induction n as [|n IH]; intros pid R d I Hlen Hd H.
  - destruct pid; [|cbn in Hlen; lia]. shift_base H Hd.
  - do 11 (destruct pid as [|? pid]; [shift_base H Hd|]).
    shift_step IH pid R d I Hd Hlen H.
Qed.

Lemma temp_video_not_media (id : string) (i j : nat) (url url' : media_url) :
  ("temp_video_" ++ media_filename id j url')%string <> media_filename id i url.
Proof.
  unfold media_filename. intros Heq.
  destruct (pretty_nat_digits i) as (d & t & Hi & Hd & _).
  rewrite Hi in Heq. rewrite !append_cons, !append_nil in Heq.
  injection Heq as Heq.
  apply (video_temp_shift (String.length id) id
           ("_" ++ pretty j ++ splitext_ext (clean_filename url'))%string d
           (t ++ splitext_ext (clean_filename url))%string); [lia | exact Hd |].
  exact Heq.
Qed.

Lemma temp_audio_not_media (id : string) (i j : nat) (url url' : media_url) :
  ("temp_audio_" ++ media_filename id j url')%string <> media_filename id i url.
Proof.
  unfold media_filename. intros Heq.
  destruct (pretty_nat_digits i) as (d & t & Hi & Hd & _).
  rewrite Hi in Heq. rewrite !append_cons, !append_nil in Heq.
  injection Heq as Heq.
  apply (audio_temp_shift (String.length id) id
           ("_" ++ pretty j ++ splitext_ext (clean_filename url'))%string d
           (t ++ splitext_ext (clean_filename url))%string); [lia | exact Hd |].
  exact Heq.
Qed.

Lemma exists_nonempty_same (fs fs' : gmap string bytes) (f : string) :
  fs' !! f = fs !! f -> exists_nonempty fs' f = exists_nonempty fs f.
Proof. unfold exists_nonempty, bytes in *. now intros ->. Qed.

(** What the download loop keeps true: the files accepted so far are files
    of urls before position [i], exist and are not empty. *)
Lemma media_loop_inv (w : nat -> fetch_env) (id : string) :
  forall urls i media_files fs,
    NoDup media_files ->
    (forall f, f ∈ media_files ->
       exists_nonempty fs f = true
       /\ exists k url, (k < i)%nat /\ f = media_filename id k url) ->
    NoDup (media_loop w id urls i media_files fs).1
    /\ forall f, f ∈ (media_loop w id urls i media_files fs).1 ->
         exists_nonempty (media_loop w id urls i media_files fs).2 f = true
         /\ (f ∈ media_files
             \/ exists k url, urls !! k = Some url
                              /\ f = media_filename id (i + k) url).
Proof.
  induction urls as [|url rest IH]; intros i media_files fs Hnodup Hold.
  { cbn [media_loop fst snd]. split; [exact Hnodup|]. intros f Hf.
    split; [now apply Hold | now left]. }
  cbn [media_loop]. set (filename := media_filename id i url).
  assert (Hfresh : filename ∉ media_files).
  { intros Hin. destruct (Hold _ Hin) as (_ & k & u & Hk & Heq).
    apply media_filename_inj in Heq. lia. }
  assert (Hkeep : forall f, f ∈ media_files ->
            exists_nonempty (download_and_process_media (w i) url filename fs).2 f = true
            /\ exists k url, (k < S i)%nat /\ f = media_filename id k url).
  { intros f Hf. destruct (Hold f Hf) as (Hne & k & u & Hk & ->). split.
    - rewrite <- Hne. apply exists_nonempty_same, download_and_process_media_lookup.
      + intros Heq. apply media_filename_inj in Heq. lia.
      + intros Heq. symmetry in Heq. now apply temp_video_not_media in Heq.
      + intros Heq. symmetry in Heq. now apply temp_audio_not_media in Heq.
    - exists k, u. split; [lia | reflexivity]. }
  destruct (download_and_process_media (w i) url filename fs) as [r fs1].
  cbn [snd] in Hkeep.
  assert (Hskip : NoDup (media_loop w id rest (S i) media_files fs1).1
            /\ forall f, f ∈ (media_loop w id rest (S i) media_files fs1).1 ->
                 exists_nonempty (media_loop w id rest (S i) media_files fs1).2 f = true
                 /\ (f ∈ media_files
                     \/ exists k u, (url :: rest) !! k = Some u
                                    /\ f = media_filename id (i + k) u)).
  { destruct (IH (S i) media_files fs1 Hnodup Hkeep) as [Hnd Hall].
    split; [exact Hnd|]. intros f Hf. destruct (Hall f Hf) as [Hne Hwhere].
    split; [exact Hne|]. destruct Hwhere as [Hin|(k & u & Hk & ->)]; [now left|].
    right. exists (S k), u. split; [exact Hk|]. f_equal. lia. }
  assert (Htake : exists_nonempty fs1 filename = true ->
            NoDup (media_loop w id rest (S i) (media_files ++ [filename]) fs1).1
            /\ forall f, f ∈ (media_loop w id rest (S i) (media_files ++ [filename]) fs1).1 ->
                 exists_nonempty
                   (media_loop w id rest (S i) (media_files ++ [filename]) fs1).2 f = true
                 /\ (f ∈ media_files
                     \/ exists k u, (url :: rest) !! k = Some u
                                    /\ f = media_filename id (i + k) u)).
  { intros Hfile.
    destruct (IH (S i) (media_files ++ [filename]) fs1) as [Hnd Hall].
    - apply NoDup_app. split; [exact Hnodup|]. split; [|apply NoDup_singleton].
      intros f Hf Hf'. apply list_elem_of_singleton in Hf' as ->. now apply Hfresh.
    - intros f Hf. apply elem_of_app in Hf as [Hf|Hf]; [now apply Hkeep|].
      apply list_elem_of_singleton in Hf as ->. split; [exact Hfile|].
      exists i, url. split; [lia | reflexivity].
    - split; [exact Hnd|]. intros f Hf. destruct (Hall f Hf) as [Hne Hwhere].
      split; [exact Hne|]. destruct Hwhere as [Hin|(k & u & Hk & ->)].
      + apply elem_of_app in Hin as [Hin|Hin]; [now left|].
        apply list_elem_of_singleton in Hin as ->. right. exists 0%nat, url.
        split; [reflexivity|]. unfold filename. f_equal. lia.
      + right. exists (S k), u. split; [exact Hk|]. f_equal. lia. }
  destruct r as [[[|]|]|]; try exact Hskip.
  destruct (exists_nonempty fs1 filename); [now apply Htake | exact Hskip].
Qed.

(** The download loop of [check_and_post] hands [create_bluesky_thread]
    files that exist and are not empty: a later download of the same
    submission does not overwrite or remove a file accepted before, since
    the files of a submission and their temporary files all have different
    names.  Every file is the file of one of the urls, and no file is listed
    twice. *)
Theorem media_loop_files_ready (w : nat -> fetch_env) (id : string)
    (urls : list media_url) (fs : gmap string bytes) :
  let media_files := (media_loop w id urls 0 [] fs).1 in
  let fs' := (media_loop w id urls 0 [] fs).2 in
  NoDup media_files
  /\ forall f, f ∈ media_files ->
       exists_nonempty fs' f = true
       /\ exists k url, urls !! k = Some url /\ f = media_filename id k url.
Proof.
  cbv zeta.
  destruct (media_loop_inv w id urls 0 [] fs NoDup_nil_2) as [Hnd Hall].
  { intros f Hf. now apply elem_of_nil in Hf. }
  split; [exact Hnd|]. intros f Hf. destruct (Hall f Hf) as [Hne Hwhere].
  split; [exact Hne|]. destruct Hwhere as [Hin|Hk]; [now apply elem_of_nil in Hin|].
  exact Hk.
Qed.

Lemma media_loop_files_ready_witness :
  let urls := [Direct "https://i.redd.it/a.JPG?width=640";
               VideoAudio sample_video_url (Some "https://v.redd.it/xyz/audio")] in
  let media_files := (media_loop (fun _ => video_with_sound) "abc" urls 0 [] ∅).1 in
  let fs' := (media_loop (fun _ => video_with_sound) "abc" urls 0 [] ∅).2 in
  media_files = ["temp_abc_0.JPG"; "temp_abc_1.mp4"]%string
  /\ NoDup media_files
  /\ forall f, f ∈ media_files -> exists_nonempty fs' f = true.
Proof.
  cbv zeta. split; [vm_compute; reflexivity|].
  destruct (media_loop_files_ready (fun _ => video_with_sound) "abc"
              [Direct "https://i.redd.it/a.JPG?width=640";
               VideoAudio sample_video_url (Some "https://v.redd.it/xyz/audio")] ∅)
    as [Hnodup Hall].
  split; [exact Hnodup|]. intros f Hf. exact (proj1 (Hall f Hf)).
Defined.

(** ** get_media_urls *)

Lemma append_assoc (a b c : string) :
  ((a ++ b) ++ c)%string = (a ++ b ++ c)%string.
Proof.
  induction a as [|x a IH]; [reflexivity|].
  rewrite !append_cons. now f_equal.
Qed.

Lemma substring_all (b : string) : substring 0 (String.length b) b = b.
Proof. induction b as [|x b IH]; [reflexivity|]. cbn. now f_equal. Qed.

Lemma substring_append (a b : string) :
  substring (String.length a) (String.length b) (a ++ b) = b.
Proof.
  induction a as [|x a IH]; [apply substring_all|].
  rewrite append_cons. cbn [String.length substring]. exact IH.
Qed.

Lemma endswith_append (a b : string) : endswith (a ++ b) b = true.
Proof.
  unfold endswith. rewrite string_length_append.
  replace (String.length a + String.length b - String.length b)%nat
    with (String.length a) by lia.
  rewrite substring_append, String.eqb_refl, andb_true_r.
  apply Nat.leb_le. lia.
Qed.

(** For an Imgur link [get_media_urls] returns one url: the link itself
    when it ends in one of the image extensions, and the png of the last
    segment of the link otherwise.  Either way the url returned ends in
    one of the image extensions. *)
Theorem get_media_urls_imgur (head : string -> head_obs) (post : submission)
    (attrs : media_attrs) :
  contains (sub_url post) "imgur.com" = true ->
  let u :=
    if endswith_any (sub_url post) imgur_suffixes then sub_url post
    else ("https://i.imgur.com/" ++ last_segment (sub_url post) ++ ".png")%string in
  get_media_urls head post attrs = [Direct u]
  /\ endswith_any u imgur_suffixes = true.
Proof.
  intros Himgur. cbv zeta. unfold get_media_urls. rewrite Himgur.
  destruct (endswith_any (sub_url post) imgur_suffixes) eqn:Hext; cbn [negb].
  - split; [reflexivity | exact Hext].
  - split; [reflexivity|].
    unfold endswith_any, imgur_suffixes. cbn [existsb].
    rewrite <- append_assoc, endswith_append. now rewrite !orb_true_r.
Qed.

Lemma get_media_urls_imgur_witness :
  (contains "https://i.imgur.com/a.jpg" "imgur.com" = true
   /\ get_media_urls (fun _ => HeadFailed)
        (Submission "abc" 0 "https://i.imgur.com/a.jpg" false)
        (MediaAttrs false None None)
      = [Direct "https://i.imgur.com/a.jpg"])
  /\ (contains "https://imgur.com/gallery/xYz12" "imgur.com" = true
      /\ get_media_urls (fun _ => HeadFailed)
           (Submission "abc" 0 "https://imgur.com/gallery/xYz12" false)
           (MediaAttrs false None None)
         = [Direct "https://i.imgur.com/xYz12.png"]).
Proof.
  split; (split; [reflexivity|]).
  - exact (proj1 (get_media_urls_imgur (fun _ => HeadFailed)
                    (Submission "abc" 0 "https://i.imgur.com/a.jpg" false)
                    (MediaAttrs false None None) eq_refl)).
  - exact (proj1 (get_media_urls_imgur (fun _ => HeadFailed)
                    (Submission "abc" 0 "https://imgur.com/gallery/xYz12" false)
                    (MediaAttrs false None None) eq_refl)).
Defined.

(** The audio url found is that of the first pattern whose probe returns
    status 200. *)
Lemma probe_audio_first (head : string -> head_obs) (base_url : string) :
  forall patterns audio_url,
    probe_audio head base_url patterns = Some audio_url ->
    match audio_url with
    | Some u =>
        exists (k : nat) pattern,
          patterns !! k = Some pattern
          /\ u = (base_url ++ pattern)%string
          /\ head u = HeadStatus 200
          /\ forall (j : nat) p, (j < k)%nat -> patterns !! j = Some p ->
               head (base_url ++ p)%string <> HeadStatus 200
    | None =>
        forall p, p ∈ patterns -> head (base_url ++ p)%string <> HeadStatus 200
    end.
Proof.
  induction patterns as [|pattern rest IH]; intros audio_url; cbn [probe_audio].
  { intros [= <-]. intros p Hp. now apply elem_of_nil in Hp. }
  assert (Hnext : head (base_url ++ pattern)%string <> HeadStatus 200 ->
            probe_audio head base_url rest = Some audio_url ->
            match audio_url with
            | Some u =>
                exists (k : nat) pattern',
                  (pattern :: rest) !! k = Some pattern'
                  /\ u = (base_url ++ pattern')%string
                  /\ head u = HeadStatus 200
                  /\ forall (j : nat) p, (j < k)%nat -> (pattern :: rest) !! j = Some p ->
                       head (base_url ++ p)%string <> HeadStatus 200
            | None =>
                forall p, p ∈ pattern :: rest ->
                          head (base_url ++ p)%string <> HeadStatus 200
            end).
  { intros Hhere Hrest. specialize (IH _ Hrest). destruct audio_url as [u|].
    - destruct IH as (k & pattern' & Hk & Hu & H200 & Hbefore).
      exists (S k), pattern'. split; [exact Hk|]. split; [exact Hu|].
      split; [exact H200|]. intros [|j] p Hj Hp.
      + injection Hp as <-. exact Hhere.
      + apply (Hbefore j); [lia | exact Hp].
    - intros p Hp. apply elem_of_cons in Hp as [->|Hp]; [exact Hhere | now apply IH]. }
  destruct (head (base_url ++ pattern)%string) as [status_code| |] eqn:Hhead.
  - destruct (status_code =? 200) eqn:Hstatus.
    + apply Z.eqb_eq in Hstatus as ->. intros [= <-].
      exists 0%nat, pattern. split; [reflexivity|]. split; [reflexivity|].
      split; [exact Hhead|]. intros j p Hj. lia.
    + apply Z.eqb_neq in Hstatus. apply Hnext. congruence.
  - now apply Hnext.
  - discriminate.
Qed.

(** For a video hosted by Reddit, [get_media_urls] returns the fallback url
    paired with the url of the first audio pattern, in the order of the
    list, whose probe returns status 200, or with [None] when no probe
    does.  It returns no url at all only when a probe raises an exception
    that is no [RequestException]. *)
Theorem get_media_urls_first_audio (head : string -> head_obs) (post : submission)
    (attrs : media_attrs) (video_url : string) :
  contains (sub_url post) "imgur.com" = false ->
  has_is_gallery post && is_gallery attrs = false ->
  contains (sub_url post) "v.redd.it" = true ->
  media attrs = Some (Fallback video_url) ->
  let base_url := rsplit_head "/" video_url in
  (get_media_urls head post attrs = []
   /\ exists p, p ∈ audio_patterns /\ head (base_url ++ p)%string = HeadRaised)
  \/ (get_media_urls head post attrs = [VideoAudio video_url None]
      /\ forall p, p ∈ audio_patterns -> head (base_url ++ p)%string <> HeadStatus 200)
  \/ exists (k : nat) pattern,
       audio_patterns !! k = Some pattern
       /\ get_media_urls head post attrs
          = [VideoAudio video_url (Some (base_url ++ pattern)%string)]
       /\ head (base_url ++ pattern)%string = HeadStatus 200
       /\ forall (j : nat) p, (j < k)%nat -> audio_patterns !! j = Some p ->
            head (base_url ++ p)%string <> HeadStatus 200.
Proof.
  intros Himgur Hgallery Hvideo Hmedia base_url. unfold get_media_urls.
  rewrite Himgur, Hgallery, Hvideo, Hmedia.
  rewrite bool_decide_eq_true_2 by eauto. cbn [andb]. fold base_url.
  destruct (probe_audio head base_url audio_patterns) as [audio_url|] eqn:Hprobe.
  - apply probe_audio_first in Hprobe. destruct audio_url as [u|].
    + right. right. destruct Hprobe as (k & pattern & Hk & -> & H200 & Hbefore).
      exists k, pattern. split; [exact Hk|]. split; [reflexivity|].
      split; [exact H200 | exact Hbefore].
    + right. left. split; [reflexivity | exact Hprobe].
  - left. split; [reflexivity|]. clear - Hprobe.
    induction audio_patterns as [|pattern rest IH]; cbn [probe_audio] in Hprobe;
      [discriminate|].
    destruct (head (base_url ++ pattern)%string) as [status_code| |] eqn:Hhead.
    + destruct (status_code =? 200); [discriminate|].
      destruct (IH Hprobe) as (p & Hp & Hraised). exists p.
      split; [now apply list_elem_of_further | exact Hraised].
    + destruct (IH Hprobe) as (p & Hp & Hraised). exists p.
      split; [now apply list_elem_of_further | exact Hraised].
    + exists pattern. split; [apply list_elem_of_here | exact Hhead].
Qed.

Lemma gallery_urls_from (items : list gallery_entry) :
  forall media_urls,
    exists found,
      gallery_urls items media_urls = media_urls ++ found
      /\ (length found <= length items)%nat
      /\ Forall (fun url => exists u, url = Direct (replace "preview" "i" u)
                                      /\ Preview u ∈ items) found.
Proof.
  induction items as [|entry rest IH]; intros media_urls.
  { exists []. cbn [gallery_urls]. rewrite app_nil_r.
    split; [reflexivity|]. split; [reflexivity | constructor]. }
  assert (Hskip : forall found,
            (length found <= length rest)%nat ->
            Forall (fun url => exists u, url = Direct (replace "preview" "i" u)
                                         /\ Preview u ∈ rest) found ->
            (length found <= length (entry :: rest))%nat
            /\ Forall (fun url => exists u, url = Direct (replace "preview" "i" u)
                                            /\ Preview u ∈ entry :: rest) found).
  { intros found Hlen Hall. split; [cbn [length]; lia|].
    eapply Forall_impl; [exact Hall|]. intros url (u & -> & Hin).
    exists u. split; [reflexivity | now apply list_elem_of_further]. }
  destruct entry as [| | |u]; cbn [gallery_urls].
  - exists []. rewrite app_nil_r. split; [reflexivity|].
    split; [cbn [length]; lia | constructor].
  - destruct (IH media_urls) as (found & -> & Hlen & Hall).
    exists found. split; [reflexivity | now apply Hskip].
  - destruct (IH media_urls) as (found & -> & Hlen & Hall).
    exists found. split; [reflexivity | now apply Hskip].
  - destruct (IH (media_urls ++ [Direct (replace "preview" "i" u)]))
      as (found & -> & Hlen & Hall).
    exists (Direct (replace "preview" "i" u) :: found).
    split; [now rewrite <- app_assoc|]. destruct (Hskip found Hlen Hall) as [_ Hall'].
    split; [cbn [length]; lia|]. constructor; [|exact Hall'].
    exists u. split; [reflexivity | apply list_elem_of_here].
Qed.

(** [get_media_urls] returns at most one url, except for a gallery: then it
    returns at most one url per item, each the preview url of an item with
    [preview] replaced by [i]. *)
Theorem get_media_urls_bounded (head : string -> head_obs) (post : submission)
    (attrs : media_attrs) :
  (length (get_media_urls head post attrs) <= 1)%nat
  \/ exists items,
       has_is_gallery post && is_gallery attrs = true
       /\ gallery_items attrs = Some (Some items)
       /\ (length (get_media_urls head post attrs) <= length items)%nat
       /\ Forall (fun url => exists u, url = Direct (replace "preview" "i" u)
                                       /\ Preview u ∈ items)
            (get_media_urls head post attrs).
Proof.
  unfold get_media_urls.
  destruct (contains (sub_url post) "imgur.com").
  { left. destruct (negb _); cbn [length]; lia. }
  destruct (has_is_gallery post && is_gallery attrs) eqn:Hgallery.
  { destruct (gallery_items attrs) as [[items|]|]; [|left; cbn [length]; lia..].
    right. exists items. destruct (gallery_urls_from items []) as (found & -> & Hlen & Hall).
    cbn [app]. split; [reflexivity|]. split; [reflexivity|]. split; assumption. }
  left. destruct (contains (sub_url post) "v.redd.it" && _).
  - destruct (media attrs) as [[|video_url|]|]; try (cbn [length]; lia).
    destruct (probe_audio _ _ _); cbn [length]; lia.
  - destruct (endswith_any _ _); cbn [length]; lia.
Qed.

Lemma get_media_urls_first_audio_witness :
  contains (sub_url sample_video_post) "imgur.com" = false
  /\ has_is_gallery sample_video_post && is_gallery sample_video_attrs = false
  /\ contains (sub_url sample_video_post) "v.redd.it" = true
  /\ media sample_video_attrs = Some (Fallback sample_video_url)
  /\ let base_url := rsplit_head "/" sample_video_url in
     (get_media_urls sample_head sample_video_post sample_video_attrs = []
      /\ exists p, p ∈ audio_patterns
                   /\ sample_head (base_url ++ p)%string = HeadRaised)
     \/ (get_media_urls sample_head sample_video_post sample_video_attrs
         = [VideoAudio sample_video_url None]
         /\ forall p, p ∈ audio_patterns ->
                      sample_head (base_url ++ p)%string <> HeadStatus 200)
     \/ exists (k : nat) pattern,
          audio_patterns !! k = Some pattern
          /\ get_media_urls sample_head sample_video_post sample_video_attrs
             = [VideoAudio sample_video_url (Some (base_url ++ pattern)%string)]
          /\ sample_head (base_url ++ pattern)%string = HeadStatus 200
          /\ forall (j : nat) p, (j < k)%nat -> audio_patterns !! j = Some p ->
               sample_head (base_url ++ p)%string <> HeadStatus 200.
Proof.
  assert (H1 : contains (sub_url sample_video_post) "imgur.com" = false)
    by reflexivity.
  assert (H2 : has_is_gallery sample_video_post && is_gallery sample_video_attrs
               = false) by reflexivity.
  assert (H3 : contains (sub_url sample_video_post) "v.redd.it" = true)
    by reflexivity.
  assert (H4 : media sample_video_attrs = Some (Fallback sample_video_url))
    by reflexivity.
  split; [exact H1|]. split; [exact H2|]. split; [exact H3|]. split; [exact H4|].
  exact (get_media_urls_first_audio sample_head sample_video_post
           sample_video_attrs sample_video_url H1 H2 H3 H4).
Defined.
